(** * simulate_grn: a shallow embedding of the GRN time-series simulator

    The development follows [simulate_grn.py] function by function:
    [build_gene_names], [build_grn], [hill], [simulate_sample],
    [assign_lineage] and the two fragments of [main] that prepare a sample
    (the divisibility check on the step size and the morphogen vector).

    Modelling conventions, used throughout:
    - numbers: the values NumPy computes are read as exact real numbers
      ([R]); overflow to infinity and NaN are outside the model, and a
      theorem names as hypotheses the inputs it needs to stay clear of
      them.  Where a float decides a branch (the step-size check of
      [main], the threshold test of [assign_lineage]) the operations are
      rounded as IEEE 754 rounds them ([f64], [f32]);
    - arrays: a vector is a [list R], a matrix a list of rows, the snapshot
      tensor a list (cells) of lists (timepoints) of rows (genes);
    - the random generator: an abstract state-passing interface
      ([Generator]); every draw returns a value and the next state;
    - exceptions: a computation returns [inl e] when Python raises [e].
      Writes and look-ups at computed indices raise [IndexError] out of
      range; reads inside vectorised arithmetic are positional and total,
      conformant operand shapes being a precondition of the arithmetic
      (NumPy raises [ValueError] on operands that do not conform), which
      the theorems that assert a result state as hypotheses. *)

From Stdlib Require Import String Decimal DecimalString DecimalNat.
From Stdlib Require Import Reals Lra Lia ZArith Bool Arith List.
Import ListNotations.

Local Open Scope R_scope.

(** ** Exceptions and the state-and-error monad *)

Inductive exn : Type :=
| IndexError
| ValueError (msg : string)
| ZeroDivisionError.

Definition M (S A : Type) : Type := S -> exn + (A * S).

Definition ret {S A} (a : A) : M S A := fun s => inr (a, s).

Definition bind {S A B} (m : M S A) (f : A -> M S B) : M S B :=
  fun s => match m s with
           | inl e => inl e
           | inr (a, s') => f a s'
           end.

Definition raise {S A} (e : exn) : M S A := fun _ => inl e.

Definition get {S} : M S S := fun s => inr (s, s).

Definition lift {S A} (r : exn + A) : M S A :=
  fun s => match r with inl e => inl e | inr a => inr (a, s) end.

Declare Scope monad_scope.
Delimit Scope monad_scope with monad.
Notation "x <- m ;; k" := (bind m (fun x => k))
  (at level 61, m at next level, right associativity) : monad_scope.
Notation "m ;; k" := (bind m (fun _ => k))
  (at level 61, right associativity) : monad_scope.
Local Open Scope monad_scope.

(** [for x in l: body x] *)
Fixpoint for_each {S A} (l : list A) (body : A -> M S unit) : M S unit :=
  match l with
  | [] => ret tt
  | x :: l' => body x ;; for_each l' body
  end.

(** [range(n)] *)
Definition range (n : nat) : list nat := seq 0 n.

(** ** Python list and NumPy array helpers *)

(** [l[a:b]] for [0 <= a <= b]; slicing clamps and never raises. *)
Definition slice {A} (a b : nat) (l : list A) : list A :=
  firstn (b - a) (skipn a l).

(** [enumerate(l)] *)
Definition enumerate {A} (l : list A) : list (nat * A) :=
  combine (seq 0 (length l)) l.

Fixpoint split_sizes {A} (l : list A) (sizes : list nat) : list (list A) :=
  match sizes with
  | [] => []
  | s :: ss => firstn s l :: split_sizes (skipn s l) ss
  end.

(** [np.array_split(l, n)]: the first [len % n] sections hold
    [len // n + 1] items, the others [len // n]; zero sections is a
    [ValueError]. *)
Definition array_split {A} (l : list A) (n : nat) : exn + list (list A) :=
  match n with
  | O => inl (ValueError "number sections must be larger than 0.")
  | _ =>
      let q := (length l / n)%nat in
      let r := (length l mod n)%nat in
      inr (split_sizes l (repeat (S q) r ++ repeat q (n - r)))
  end.

(** [np.zeros(n)] *)
Definition zeros (n : nat) : list R := repeat 0 n.

Fixpoint set_nth {A} (i : nat) (v : A) (l : list A) : list A :=
  match l, i with
  | [], _ => []
  | _ :: t, O => v :: t
  | h :: t, S i' => h :: set_nth i' v t
  end.

(** [vec[idxs] = v]: every listed cell is overwritten by the scalar [v];
    an index past the end raises [IndexError]. *)
Fixpoint assign_idx (idxs : list nat) (v : R) (vec : list R)
  : exn + list R :=
  match idxs with
  | [] => inr vec
  | i :: rest =>
      if (i <? length vec)%nat
      then assign_idx rest v (set_nth i v vec)
      else inl IndexError
  end.

Definition sumR (l : list R) : R := fold_right Rplus 0 l.

(** [np.mean] of a vector. *)
Definition mean (l : list R) : R := sumR l / INR (length l).

(** [np.clip(v, lo, hi)] is [minimum(maximum(v, lo), hi)]. *)
Definition clip (lo hi v : R) : R := Rmin (Rmax v lo) hi.

Definition matrix : Type := list (list R).

Definition map_mat (f : R -> R) (m : matrix) : matrix := map (map f) m.

Fixpoint zip_with {A B C} (f : A -> B -> C) (a : list A) (b : list B)
  : list C :=
  match a, b with
  | x :: a', y :: b' => f x y :: zip_with f a' b'
  | _, _ => []
  end.

(** elementwise operation on two matrices of one shape *)
Definition mat_zip (f : R -> R -> R) (a b : matrix) : matrix :=
  zip_with (zip_with f) a b.

(** elementwise operation of a matrix with a row vector broadcast over
    the rows *)
Definition mat_row (f : R -> R -> R) (a : matrix) (v : list R) : matrix :=
  map (fun row => zip_with f row v) a.

Definition dot (a b : list R) : R := sumR (zip_with Rmult a b).

(** column [j] of a matrix *)
Definition col (j : nat) (m : matrix) : list R :=
  map (fun row => nth j row 0) m.

(** [m.T] for a matrix of [ncols] columns *)
Definition transpose (ncols : nat) (m : matrix) : matrix :=
  map (fun j => col j m) (seq 0 ncols).

(** [a @ b] where [b] has [ncols] columns *)
Definition matmul (ncols : nat) (a b : matrix) : matrix :=
  map (fun row => map (fun j => dot row (col j b)) (seq 0 ncols)) a.

(** [m[:, idxs]] *)
Definition take_cols (idxs : list nat) (m : matrix) : matrix :=
  map (fun row => map (fun j => nth j row 0) idxs) m.

(** [m.mean(axis=0)] for a matrix of [ncols] columns *)
Definition mean_axis0 (ncols : nat) (m : matrix) : list R :=
  map (fun j => mean (col j m)) (seq 0 ncols).

(** ** build_gene_names *)

Definition str (n : nat) : string := NilEmpty.string_of_uint (Nat.to_uint n).

(** The seven entries of the [groups] dictionary that the program reads.
    ([add_group] also stores each list under a second key derived from the
    prefix; no code reads those keys.) *)
Record Groups : Type := {
  prog : list nat;
  lineage : list nat;
  ligand : list nat;
  receptor : list nat;
  target : list nat;
  housekeeping : list nat;
  other : list nat
}.

Definition add_group (prefix : string) (count : nat) (names : list string)
  : list string * list nat :=
  let start := length names in
  (names ++ map (fun i => (prefix ++ str i)%string) (seq 1 count),
   map (fun i => (start + i - 1)%nat) (seq 1 count)).

Definition build_gene_names : list string * Groups :=
  let names := [] in
  let '(names, g_prog) := add_group "TF_PROG_" 4 names in
  let '(names, g_lineage) := add_group "TF_LIN" 12 names in
  let '(names, g_ligand) := add_group "LIG_" 20 names in
  let '(names, g_receptor) := add_group "REC_" 20 names in
  let '(names, g_target) := add_group "TARG_" 80 names in
  let '(names, g_housekeeping) := add_group "HK_" 50 names in
  let '(names, g_other) := add_group "OTHER_" 14 names in
  (names,
   {| prog := g_prog; lineage := g_lineage; ligand := g_ligand;
      receptor := g_receptor; target := g_target;
      housekeeping := g_housekeeping; other := g_other |}).

(** [gene_names, groups = build_gene_names()] and the two constants that
    [main] fixes before building the network. *)
Definition main_gene_names : list string := fst build_gene_names.
Definition main_groups : Groups := snd build_gene_names.
Definition main_n_lineages : nat := 6.
Definition main_lineage_tfs_per : nat := 2.

(** ** The random generator

    [np.random.Generator] as a state-passing interface: each method takes
    the generator state and returns the drawn value with the next state.
    Only the methods used by the modelled functions appear. *)

Class Generator (G : Type) : Type := {
  (** [rng.random()] *)
  random : G -> R * G;
  (** [rng.integers(low, high)] *)
  integers : nat -> nat -> G -> nat * G;
  (** [rng.uniform(low, high)] *)
  uniform : R -> R -> G -> R * G;
  (** [rng.normal(loc, scale, size=(rows, cols))] with a scalar scale *)
  normal : R -> R -> nat -> nat -> G -> matrix * G;
  (** [rng.normal(loc, scale, size=(rows, len(scale)))] with one scale per
      column *)
  normal_cols : R -> list R -> nat -> G -> matrix * G;
  (** [rng.choice(n, size=k, replace=False)] *)
  choice : nat -> nat -> G -> list nat * G;
  (** [rng.dirichlet(alpha)] *)
  dirichlet : list R -> G -> list R * G
}.

(** What the theorems below rely on: the documented ranges of
    [integers] and [uniform], and the length of a Dirichlet draw. *)
Class GeneratorLaws (G : Type) `{Generator G} : Prop := {
  integers_range : forall lo hi g,
    (lo < hi)%nat -> (lo <= fst (integers lo hi g) < hi)%nat;
  uniform_range : forall a b g,
    a < b -> a <= fst (uniform a b g) < b;
  dirichlet_length : forall alpha g,
    length (fst (dirichlet alpha g)) = length alpha
}.

(** ** build_grn *)

(** One record of [edge_list]. *)
Record Edge : Type := {
  source : string;
  target_ : string;
  weight : R;
  type_ : string
}.

(** The four lists that [build_grn] grows in step. *)
Record Builder : Type := {
  rows : list nat;
  cols : list nat;
  data : list R;
  edge_list : list Edge
}.

Definition empty_builder : Builder :=
  {| rows := []; cols := []; data := []; edge_list := [] |}.

(** The value of [build_grn]: the dense content of the sparse matrix [W]
    and the other four entries of the returned dictionary. *)
Record GRN : Type := {
  W : matrix;
  bias : list R;
  decay : list R;
  noise : list R;
  edges : list Edge
}.

(** [sp.csr_matrix((data, (rows, cols)), shape=(n, n))]: entry [(r, c)]
    is the sum of every [data[i]] with [rows[i] = r] and [cols[i] = c];
    duplicated coordinates are summed. *)
Fixpoint coo_entry (data : list R) (rows cols : list nat) (r c : nat) : R :=
  match data, rows, cols with
  | v :: data', r' :: rows', c' :: cols' =>
      (if ((r' =? r) && (c' =? c))%nat then v else 0)
      + coo_entry data' rows' cols' r c
  | _, _, _ => 0
  end.

Definition csr_matrix (data : list R) (rows cols : list nat) (n : nat)
  : matrix :=
  map (fun r => map (fun c => coo_entry data rows cols r c) (seq 0 n))
      (seq 0 n).

(** [lineage[lin_idx * lineage_tfs_per : (lin_idx + 1) * lineage_tfs_per]],
    the TF genes of one lineage *)
Definition tf_block (lineage : list nat) (lineage_tfs_per lin_idx : nat)
  : list nat :=
  slice (lin_idx * lineage_tfs_per) ((lin_idx + 1) * lineage_tfs_per) lineage.

Section BuildGrn.
Context {G : Type} `{Generator G}.

(** a draw from the generator inside [build_grn] *)
Definition draw {A} (op : G -> A * G) : M (G * Builder) A :=
  fun st => let (a, g') := op (fst st) in inr (a, (g', snd st)).

Variable gene_names : list string.
Variable groups : Groups.
Variables n_lineages lineage_tfs_per : nat.

Definition add_edge (src dst : nat) (w : R) (label : string)
  : M (G * Builder) unit :=
  fun st =>
    let b := snd st in
    match nth_error gene_names src, nth_error gene_names dst with
    | Some s, Some t =>
        inr (tt,
             (fst st,
              {| rows := rows b ++ [dst];
                 cols := cols b ++ [src];
                 data := data b ++ [w];
                 edge_list := edge_list b ++
                   [{| source := s; target_ := t;
                       weight := w; type_ := label |}] |}))
    | _, _ => inl IndexError
    end.

Definition block (lin_block : nat) : list nat :=
  tf_block (lineage groups) lineage_tfs_per lin_block.

Definition prog_edges : M (G * Builder) unit :=
  for_each (prog groups) (fun i =>
    add_edge i i 0.2 "prog_self" ;;
    for_each (prog groups) (fun j =>
      if (i =? j)%nat then ret tt
      else r <- draw random ;;
           add_edge j i (0.35 + 0.1 * r) "prog_mutual")).

Definition prog_to_lineage_edges : M (G * Builder) unit :=
  for_each (lineage groups) (fun lin_idx =>
    for_each (prog groups) (fun prog_idx =>
      add_edge prog_idx lin_idx 0.15 "prog_to_lineage")).

Definition lineage_edges : M (G * Builder) unit :=
  for_each (range n_lineages) (fun lin_block =>
    let tf_indices := block lin_block in
    for_each tf_indices (fun tf => add_edge tf tf 0.6 "lineage_self") ;;
    (if (length tf_indices =? 2)%nat
     then add_edge (nth 0 tf_indices 0%nat) (nth 1 tf_indices 0%nat)
                   0.4 "lineage_partner" ;;
          add_edge (nth 1 tf_indices 0%nat) (nth 0 tf_indices 0%nat)
                   0.4 "lineage_partner"
     else ret tt) ;;
    for_each tf_indices (fun tf =>
      for_each (range n_lineages) (fun other_block =>
        if (other_block =? lin_block)%nat then ret tt
        else for_each (block other_block) (fun other_tf =>
               add_edge other_tf tf (-0.5) "lineage_inhibit"))) ;;
    for_each tf_indices (fun tf =>
      for_each (prog groups) (fun prog_idx =>
        add_edge tf prog_idx (-0.3) "lineage_repress_prog"))).

(** the two loops over [enumerate(np.array_split(members, n_lineages))] *)
Definition split_edges (members : list nat) (w : R) (label : string)
  : M (G * Builder) unit :=
  splits <- lift (array_split members n_lineages) ;;
  for_each (enumerate splits) (fun '(lin_block, subset) =>
    for_each (block lin_block) (fun tf =>
      for_each subset (fun tgt => add_edge tf tgt w label))).

Definition prog_to_receptor_edges : M (G * Builder) unit :=
  for_each (prog groups) (fun prog_idx =>
    for_each (receptor groups) (fun rec =>
      add_edge prog_idx rec 0.2 "prog_to_receptor")).

(** [rng.integers(0, n_genes)]; an empty range is a [ValueError]. *)
Definition draw_gene (n_genes : nat) : M (G * Builder) nat :=
  if (0 <? n_genes)%nat then draw (integers 0 n_genes)
  else raise (ValueError "high <= 0").

Definition random_edges (n_genes : nat) : M (G * Builder) unit :=
  for_each (range 200) (fun _ =>
    src <- draw_gene n_genes ;;
    dst <- draw_gene n_genes ;;
    if (src =? dst)%nat then ret tt
    else w <- draw (uniform (-0.05) 0.05) ;;
         add_edge src dst w "random").

(** the loops of the structured rules, in the source order *)
Definition structured_edges : M (G * Builder) unit :=
  prog_edges ;;
  prog_to_lineage_edges ;;
  lineage_edges ;;
  split_edges (target groups) 0.7 "lineage_to_target" ;;
  split_edges (ligand groups) 0.6 "lineage_to_ligand" ;;
  prog_to_receptor_edges.

(** the three per-gene parameter vectors, groups assigned in the source
    order *)
Definition by_group (n_genes : nat)
           (hk lig rec tgt prg lin oth : R) : exn + list R :=
  match assign_idx (housekeeping groups) hk (zeros n_genes) with
  | inl e => inl e | inr v =>
  match assign_idx (ligand groups) lig v with
  | inl e => inl e | inr v =>
  match assign_idx (receptor groups) rec v with
  | inl e => inl e | inr v =>
  match assign_idx (target groups) tgt v with
  | inl e => inl e | inr v =>
  match assign_idx (prog groups) prg v with
  | inl e => inl e | inr v =>
  match assign_idx (lineage groups) lin v with
  | inl e => inl e | inr v =>
  assign_idx (other groups) oth v
  end end end end end end.

Definition build_grn : M (G * Builder) GRN :=
  let n_genes := length gene_names in
  structured_edges ;;
  random_edges n_genes ;;
  st <- get ;;
  let b := snd st in
  let W := csr_matrix (data b) (rows b) (cols b) n_genes in
  bias <- lift (by_group n_genes 0.6 0.2 0.2 0.05 0.05 0.05 0.1) ;;
  decay <- lift (by_group n_genes 0.1 0.2 0.2 0.2 0.3 0.3 0.2) ;;
  noise <- lift (by_group n_genes 0.05 0.06 0.06 0.08 0.1 0.1 0.08) ;;
  ret {| W := W; bias := bias; decay := decay; noise := noise;
         edges := edge_list b |}.

(** [build_grn(rng, ...)] as called: the lists start empty. *)
Definition run_build_grn (rng : G) : exn + (GRN * G) :=
  match build_grn (rng, empty_builder) with
  | inl e => inl e
  | inr (grn, st) => inr (grn, fst st)
  end.
End BuildGrn.

(** ** A replayable generator

    A generator that replays a finite tape of natural numbers and yields
    zeros once the tape is exhausted; it instantiates the interface on
    concrete inputs. *)

Definition pop (tape : list nat) : nat * list nat :=
  match tape with
  | [] => (0%nat, [])
  | h :: t => (h, t)
  end.

Fixpoint pops (n : nat) (tape : list nat) : list nat * list nat :=
  match n with
  | O => ([], tape)
  | S n' => let (h, t) := pop tape in
            let (hs, t') := pops n' t in (h :: hs, t')
  end.

Definition unit_of (h : nat) : R := INR (h mod 1000) / 1000.

Fixpoint tape_rows (f : nat -> nat -> R) (rows cols : nat)
         (tape : list nat) : matrix * list nat :=
  match rows with
  | O => ([], tape)
  | S r => let (hs, t) := pops cols tape in
           let (m, t') := tape_rows f r cols t in
           (map (fun '(j, h) => f j h) (enumerate hs) :: m, t')
  end.

#[export] Instance TapeGenerator : Generator (list nat) := {
  random := fun tape => let (h, t) := pop tape in (unit_of h, t);
  integers := fun lo hi tape =>
    let (h, t) := pop tape in ((lo + h mod (hi - lo))%nat, t);
  uniform := fun a b tape =>
    let (h, t) := pop tape in (a + (b - a) * unit_of h, t);
  normal := fun loc scale rows cols tape =>
    tape_rows (fun _ h => loc + scale * (unit_of h - 1 / 2)) rows cols tape;
  normal_cols := fun loc scales rows tape =>
    tape_rows (fun j h => loc + nth j scales 0 * (unit_of h - 1 / 2))
              rows (length scales) tape;
  choice := fun n k tape =>
    let (h, t) := pop tape in
    (map (fun i => ((h + i) mod n)%nat) (seq 0 k), t);
  dirichlet := fun alpha tape =>
    let (hs, t) := pops (length alpha) tape in
    let ws := map (fun h => INR (S h)) hs in
    (map (fun w => w / sumR ws) ws, t)
}.


(** ** IEEE 754 rounding

    Python floats and NumPy float64 values are binary64 numbers, the
    [scores] of [assign_lineage] are binary32 numbers.  The few places
    where the program branches on a float are modelled with the rounding
    of each operation written out. *)

(** the integer nearest to [r], ties to even *)
Definition Znearest (r : R) : Z :=
  let f := Int_part r in
  let d := r - IZR f in
  if Rlt_dec d (1 / 2) then f
  else if Rlt_dec (1 / 2) d then (f + 1)%Z
  else if Z.even f then f else (f + 1)%Z.

(** the binary exponent of [r <> 0]:
    [2 ^ mag2 r <= |r| < 2 ^ (mag2 r + 1)] *)
Definition mag2 (r : R) : Z := Int_part (ln (Rabs r) / ln 2).

(** Round to nearest, ties to even, in the binary format with [prec]
    fraction bits and least normal exponent [emin]; subnormal numbers are
    included, the overflow to infinity is not. *)
Definition round_binary (prec emin : Z) (r : R) : R :=
  if Req_dec_T r 0 then 0
  else
    let e := Z.max (mag2 r) emin in
    let q := powerRZ 2 (e - prec) in
    IZR (Znearest (r / q)) * q.

(** the nearest Python float (binary64) *)
Definition f64 : R -> R := round_binary 52 (-1022).

(** the nearest NumPy float32 (binary32) *)
Definition f32 : R -> R := round_binary 23 (-126).

(** ** hill *)

(** [b ** e] for a base [b >= 0] and an exponent [e >= 0]: [np.power] is
    applied to [np.maximum(x, 0.0)], and the theorems take [k >= 0] and
    [n >= 0].  Outside that domain the program leaves the reals and the
    model does not follow it: at base 0 with [e < 0] NumPy yields infinity
    and Python's [k ** n] raises [ZeroDivisionError] (the model value is
    0), a negative [k] with a fractional exponent gives a complex number,
    and a power beyond the double range makes Python raise
    [OverflowError]. *)
Definition power (b e : R) : R :=
  if Req_dec_T b 0
  then (if Req_dec_T e 0 then 1 else 0)
  else Rpower b e.

(** [hill] at one array element, over the reals.  In double arithmetic
    the quotient is rounded, so that the value 1 is reached for large
    arguments; the strict bound [hill < 1] belongs to the reals only. *)
Definition hill (x k n : R) : R :=
  let x_pos := Rmax x 0 in
  let x_pow := power x_pos n in
  let k_pow := power k n in
  x_pow / (k_pow + x_pow + 1e-8).

(** ** simulate_sample *)

Definition tensor : Type := list (list (list R)).

(** [row[idxs] = vs], position by position *)
Fixpoint write_row (idxs : list nat) (vs : list R) (row : list R) : list R :=
  match idxs, vs with
  | i :: idxs', v :: vs' => write_row idxs' vs' (set_nth i v row)
  | _, _ => row
  end.

(** [x[:, idxs] = vals] on a matrix of [n_genes] columns *)
Definition set_cols (n_genes : nat) (idxs : list nat) (vals x : matrix)
  : exn + matrix :=
  if forallb (fun i => (i <? n_genes)%nat) idxs
  then inr (zip_with (fun row vs => write_row idxs vs row) x vals)
  else inl IndexError.

(** [snapshots[:, idx, :] = x] on a tensor of [n_timepoints] timepoints *)
Definition set_snapshot (n_timepoints idx : nat) (x : matrix)
           (snapshots : tensor) : exn + tensor :=
  if (idx <? n_timepoints)%nat
  then inr (zip_with (fun tps row => set_nth idx row tps) snapshots x)
  else inl IndexError.

(** [ligand_mean] is a vector in mean-field mode and a matrix (one row per
    cell) in neighbor mode. *)
Inductive ligand_avail : Type :=
| Global (v : list R)
| PerCell (m : matrix).

(** [np.maximum(x[:, lig_idx], 0.0).mean(axis=0)] *)
Definition global_ligand_mean (lig_idx : list nat) (x : matrix) : list R :=
  mean_axis0 (length lig_idx)
             (map_mat (fun v => Rmax v 0) (take_cols lig_idx x)).

(** [np.maximum(x[neighbor_idx][:, :, lig_idx], 0.0).mean(axis=1)] *)
Definition neighbor_ligand_mean (neighbor_idx : list (list nat))
           (lig_idx : list nat) (x : matrix) : matrix :=
  map (fun nbrs =>
         mean_axis0 (length lig_idx)
           (map_mat (fun v => Rmax v 0)
              (take_cols lig_idx (map (fun c => nth c x []) nbrs))))
      neighbor_idx.

Definition ligand_mean (neighbor_idx : option (list (list nat)))
           (neighbor_mix : R) (lig_idx : list nat) (x : matrix)
  : ligand_avail :=
  match neighbor_idx with
  | None => Global (global_ligand_mean lig_idx x)
  | Some nb =>
      let neighbor_lig := neighbor_ligand_mean nb lig_idx x in
      let global_lig := global_ligand_mean lig_idx x in
      PerCell (mat_row Rplus
                 (map_mat (Rmult neighbor_mix) neighbor_lig)
                 (map (Rmult (1 - neighbor_mix)) global_lig))
  end.

(** [receptor_act * ligand_mean], for as many ligands as receptors; on
    operands of different widths NumPy raises [ValueError], where the
    positional product stops at the shorter one. *)
Definition signal_of (receptor_act : matrix) (lm : ligand_avail) : matrix :=
  match lm with
  | Global v => mat_row Rmult receptor_act v
  | PerCell m => mat_zip Rmult receptor_act m
  end.

(** [h @ W] with [W = grn["W"].transpose().toarray()] *)
Definition regulatory_input (grn : GRN) (hill_k hill_n : R) (x : matrix)
  : matrix :=
  let n_genes := length (bias grn) in
  let Wt := transpose n_genes (W grn) in
  let h := map_mat (fun v => hill v hill_k hill_n) x in
  matmul n_genes h Wt.

(** [f = h @ W + bias - decay * x] *)
Definition drift (grn : GRN) (hill_k hill_n : R) (x : matrix) : matrix :=
  mat_zip Rminus
    (mat_row Rplus (regulatory_input grn hill_k hill_n x) (bias grn))
    (mat_row (fun xv d => d * xv) x (decay grn)).

(** [deriv = f + g_signal + morphogen] *)
Definition deriv (grn : GRN) (ligand_effects : matrix) (groups : Groups)
           (morphogen : list R) (hill_k hill_n : R)
           (neighbor_idx : option (list (list nat))) (neighbor_mix : R)
           (x : matrix) : matrix :=
  let n_genes := length (bias grn) in
  let lig_idx := ligand groups in
  let rec_idx := receptor groups in
  let f := drift grn hill_k hill_n x in
  let lm := ligand_mean neighbor_idx neighbor_mix lig_idx x in
  let receptor_act :=
    map_mat (fun v => hill v hill_k hill_n) (take_cols rec_idx x) in
  let signal := signal_of receptor_act lm in
  let n_pairs := length (hd [] ligand_effects) in
  let g_signal := matmul n_genes signal (transpose n_pairs ligand_effects) in
  mat_row Rplus (mat_zip Rplus f g_signal) morphogen.

Section Simulate.
Context {G : Type} `{Generator G}.

(** a draw from the generator *)
Definition sample {A} (op : G -> A * G) : M G A := fun g => inr (op g).

(** a loop that rebinds local variables: [acc] holds them *)
Fixpoint fold_m {A B} (l : list A) (acc : B) (body : B -> A -> M G B)
  : M G B :=
  match l with
  | [] => ret acc
  | a :: l' => acc' <- body acc a ;; fold_m l' acc' body
  end.

(** [x[:, idxs] = rng.normal(loc, scale, size=(n_cells, len(idxs)))] *)
Definition init_group (n_cells n_genes : nat) (idxs : list nat)
           (loc scale : R) (x : matrix) : M G matrix :=
  vals <- sample (normal loc scale n_cells (length idxs)) ;;
  lift (set_cols n_genes idxs vals x).

Definition init_state (n_cells n_genes : nat) (groups : Groups) (x_max : R)
  : M G matrix :=
  let x := repeat (zeros n_genes) n_cells in
  x <- init_group n_cells n_genes (prog groups) 1.5 0.1 x ;;
  x <- init_group n_cells n_genes (lineage groups) 0.1 0.05 x ;;
  x <- init_group n_cells n_genes (ligand groups) 0.2 0.05 x ;;
  x <- init_group n_cells n_genes (receptor groups) 0.2 0.05 x ;;
  x <- init_group n_cells n_genes (target groups) 0.1 0.05 x ;;
  x <- init_group n_cells n_genes (housekeeping groups) 1.0 0.1 x ;;
  x <- init_group n_cells n_genes (other groups) 0.1 0.05 x ;;
  ret (map_mat (clip 0 x_max) x).

(** the neighbor table drawn once per sample; [None] is Python's [None] *)
Definition sample_neighbors (neighbor_mode : string) (neighbor_k : Z)
           (n_cells : nat) : M G (option (list (list nat))) :=
  if String.eqb neighbor_mode "random" then
    if ((neighbor_k <=? 0)%Z || (n_cells <=? 1)%nat)%bool then ret None
    else
      let k := Z.to_nat (Z.min neighbor_k (Z.of_nat n_cells - 1)) in
      nb <- fold_m (range n_cells) [] (fun nb i =>
              choices <- sample (choice (n_cells - 1) k) ;;
              let choices :=
                map (fun c => if (i <=? c)%nat then (c + 1)%nat else c)
                    choices in
              ret (nb ++ [choices])) ;;
      ret (Some nb)
  else ret None.

(** one pass through the body of the step loop, before the snapshot
    test, for [dt >= 0]: [np.sqrt] of a negative [dt] is NaN, which
    [np.clip] keeps, where [sqrt] is 0 *)
Definition step_x (dt : R) (grn : GRN) (ligand_effects : matrix)
           (groups : Groups) (morphogen : list R) (x_max hill_k hill_n : R)
           (neighbor_idx : option (list (list nat))) (neighbor_mix : R)
           (x : matrix) : M G matrix :=
  let d := deriv grn ligand_effects groups morphogen hill_k hill_n
                 neighbor_idx neighbor_mix x in
  nz <- sample (normal_cols 0 (noise grn) (length x)) ;;
  let noise_term := map_mat (fun v => v * sqrt dt) nz in
  let x := mat_zip Rplus (mat_zip Rplus x (map_mat (Rmult dt) d))
                   noise_term in
  ret (map_mat (clip 0 x_max) x).

(** the local variables the step loop rebinds *)
Record LoopVars : Type := {
  lv_x : matrix;
  lv_snapshots : tensor;
  lv_snapshot_idx : nat
}.

Definition simulate_sample (n_cells : nat) (timepoints : list R) (dt : R)
           (steps_per_tp : Z) (grn : GRN) (ligand_effects : matrix)
           (groups : Groups) (morphogen : list R)
           (x_max hill_k hill_n : R) (neighbor_mode : string)
           (neighbor_k : Z) (neighbor_mix : R) : M G tensor :=
  let n_genes := length (bias grn) in
  x <- init_state n_cells n_genes groups x_max ;;
  let n_timepoints := length timepoints in
  let snapshots := repeat (repeat (zeros n_genes) n_timepoints) n_cells in
  snapshots <- lift (set_snapshot n_timepoints 0 x snapshots) ;;
  let total_steps := ((Z.of_nat n_timepoints - 1) * steps_per_tp)%Z in
  neighbor_idx <- sample_neighbors neighbor_mode neighbor_k n_cells ;;
  lv <- fold_m (range (Z.to_nat total_steps))
          {| lv_x := x; lv_snapshots := snapshots; lv_snapshot_idx := 1 |}
          (fun lv step =>
             x <- step_x dt grn ligand_effects groups morphogen
                         x_max hill_k hill_n neighbor_idx neighbor_mix
                         (lv_x lv) ;;
             if ((Z.of_nat step + 1) mod steps_per_tp =? 0)%Z
             then
               snapshots <- lift (set_snapshot n_timepoints
                                    (lv_snapshot_idx lv) x
                                    (lv_snapshots lv)) ;;
               ret {| lv_x := x; lv_snapshots := snapshots;
                      lv_snapshot_idx := lv_snapshot_idx lv + 1 |}
             else
               ret {| lv_x := x; lv_snapshots := lv_snapshots lv;
                      lv_snapshot_idx := lv_snapshot_idx lv |}) ;;
  ret (lv_snapshots lv).
End Simulate.

(** ** assign_lineage *)

(** [row.max()] of a nonempty row *)
Definition max_list (l : list R) : R :=
  match l with
  | [] => 0
  | v :: t => fold_left Rmax t v
  end.

(** [np.argmax]: the first position holding the maximum *)
Fixpoint argmax_from (l : list R) (i best_i : nat) (best_v : R) : nat :=
  match l with
  | [] => best_i
  | v :: t =>
      if Rlt_dec best_v v
      then argmax_from t (S i) i v
      else argmax_from t (S i) best_i best_v
  end.

Definition argmax (l : list R) : nat :=
  match l with
  | [] => 0%nat
  | v :: t => argmax_from t 1 0 v
  end.

(** The float32 arithmetic of [assign_lineage]: [scores] has dtype
    float32 and receives the means that [np.mean] computes.  NumPy adds
    the entries of a block in an order that depends on the length of the
    block, each step rounded, so the stored mean is an operation of the
    interface; the theorems hold for every instance. *)
Class NumPy32 : Type := {
  mean32 : list R -> R
}.

(** the float32 mean with the entries added from left to right *)
Definition sequential_mean32 (l : list R) : R :=
  f32 (fold_left (fun acc v => f32 (acc + v)) l 0 / INR (length l)).

#[export] Instance seq32 : NumPy32 := {| mean32 := sequential_mean32 |}.

(** one row of [scores]: the float32 mean of the row over each lineage's
    TF genes (NaN in NumPy for a lineage without TF genes; the theorems
    take blocks that are not empty) *)
Definition lineage_scores {N : NumPy32} (lineage_indices : list nat)
           (n_lineages lineage_tfs_per : nat) (row : list R) : list R :=
  map (fun lin_idx =>
         mean32 (map (fun j => nth j row 0)
                     (tf_block lineage_indices lineage_tfs_per lin_idx)))
      (range n_lineages).

(** One entry of [lineage_id].  [max_scores < threshold] compares a
    float32 array with a Python float: NumPy casts the threshold to
    float32 and compares there. *)
Definition label_of (scores : list R) (threshold : R) : nat :=
  if Rlt_dec (max_list scores) (f32 threshold) then 0%nat
  else (argmax scores + 1)%nat.

(** one row of [probs] *)
Definition softmax (scores : list R) : list R :=
  let exp_scores := map (fun s => exp (s - max_list scores)) scores in
  map (fun e => e / sumR exp_scores) exp_scores.

(** [x[:, tf_indices]] finds every index among the columns of every row
    (a list of rows shows no width when it is empty: an empty [x] stands
    for a matrix that is wide enough) *)
Definition columns_exist (x : matrix) (tf_indices : list nat) : bool :=
  forallb (fun row => forallb (fun j => (j <? length row)%nat) tf_indices) x.

(** Reducing over an empty lineage axis ([n_lineages = 0]) is a
    [ValueError] in NumPy; a TF index that is not a column of [x] makes
    the first loop raise [IndexError]. *)
Definition assign_lineage {N : NumPy32} (x : matrix)
           (lineage_indices : list nat)
           (n_lineages lineage_tfs_per : nat) (threshold : R)
  : exn + (list nat * matrix) :=
  match n_lineages with
  | O => inl (ValueError "zero-size array to reduction operation maximum")
  | _ =>
      if forallb (fun lin_idx =>
                    columns_exist x (tf_block lineage_indices
                                              lineage_tfs_per lin_idx))
                 (range n_lineages)
      then
        let scores :=
          map (lineage_scores lineage_indices n_lineages lineage_tfs_per)
              x in
        inr (map (fun s => label_of s threshold) scores,
             map softmax scores)
      else inl IndexError
  end.

(** ** main: the step-size check and the morphogen vector *)

(** [int(r)] truncates toward zero. *)
Definition int (r : R) : Z :=
  if Rle_dec 0 r then Int_part r else (- Int_part (- r))%Z.

(** The timepoints array and the step-size check of [main].  The two
    arguments are the values given on the command line; argparse's
    [type=float] reads each as the nearest double.
    [np.arange(0, n_timepoints * h, h)] raises [ZeroDivisionError] for a
    zero step [h] (and returns for every other step, the number of
    timepoints being one whose array fits in memory); then
    [steps_per_tp = int(h / dt)] is followed by the test that raises
    [ValueError].  The division, the product and the difference are those
    of Python floats, each rounded to the nearest double, and [1e-6] is
    the double nearest to it.  (An argument beyond the double range is
    read as infinity, and a quotient beyond it makes [int] raise
    [OverflowError]; the theorems take arguments and quotients inside the
    range.) *)
Definition check_steps (hours_per_timepoint dt : R) : exn + Z :=
  let h := f64 hours_per_timepoint in
  let d := f64 dt in
  if Req_dec_T h 0 then inl ZeroDivisionError
  else if Req_dec_T d 0 then inl ZeroDivisionError
  else
    let steps_per_tp := int (f64 (h / d)) in
    if Rlt_dec (f64 1e-6) (Rabs (f64 (f64 (IZR steps_per_tp * d) - h)))
    then inl (ValueError "hours-per-timepoint must be divisible by dt.")
    else inr steps_per_tp.

(** the loop filling [morphogen] from the drawn [lineage_bias] *)
Fixpoint fill_morphogen (lineage : list nat) (lineage_tfs_per : nat)
         (morphogen_scale : R) (lineage_bias : list R)
         (lin_idxs : list nat) (morphogen : list R) : exn + list R :=
  match lin_idxs with
  | [] => inr morphogen
  | lin_idx :: rest =>
      match nth_error lineage_bias lin_idx with
      | None => inl IndexError
      | Some b =>
          match assign_idx (tf_block lineage lineage_tfs_per lin_idx)
                           (morphogen_scale * b) morphogen with
          | inl e => inl e
          | inr m => fill_morphogen lineage lineage_tfs_per morphogen_scale
                                    lineage_bias rest m
          end
      end
  end.

Definition make_morphogen (n_genes : nat) (groups : Groups)
           (n_lineages lineage_tfs_per : nat) (morphogen_scale : R)
           (lineage_bias : list R) : exn + list R :=
  fill_morphogen (lineage groups) lineage_tfs_per morphogen_scale
                 lineage_bias (range n_lineages) (zeros n_genes).

(** the first three statements of the per-sample loop body *)
Definition sample_morphogen {G} `{Generator G} (n_genes : nat)
           (groups : Groups) (n_lineages lineage_tfs_per : nat)
           (morphogen_scale : R) : M G (list R) :=
  lineage_bias <- sample (dirichlet (repeat 1 n_lineages)) ;;
  lift (make_morphogen n_genes groups n_lineages lineage_tfs_per
                       morphogen_scale lineage_bias).

(** ** build_ligand_receptor_effects *)

(** One record of [pair_map]. *)
Record Pair : Type := {
  pair_id : nat;
  ligand_ : nat;
  receptor_ : nat
}.

(** [a % n] on NumPy integer arrays: a zero divisor yields 0 (with a
    warning), not an exception. *)
Definition np_mod (a n : nat) : nat :=
  match n with
  | O => 0%nat
  | _ => (a mod n)%nat
  end.

(** [B[r, c] = v] on a matrix of [n_rows] rows and [n_cols] columns *)
Definition set_entry (n_rows n_cols r c : nat) (v : R) (m : matrix)
  : exn + matrix :=
  if ((r <? n_rows) && (c <? n_cols))%nat%bool
  then inr (set_nth r (set_nth c v (nth r m [])) m)
  else inl IndexError.

(** [for tf in tf_indices: B[tf, pair_id] = 0.6] *)
Fixpoint mark_pair (n_rows n_cols : nat) (tf_indices : list nat)
         (pair_id : nat) (B : matrix) : exn + matrix :=
  match tf_indices with
  | [] => inr B
  | tf :: rest =>
      match set_entry n_rows n_cols tf pair_id 0.6 B with
      | inl e => inl e
      | inr B' => mark_pair n_rows n_cols rest pair_id B'
      end
  end.

(** the loop over [enumerate(pair_to_lineage)] *)
Fixpoint mark_pairs (n_rows n_cols : nat) (lineage : list nat)
         (lineage_tfs_per : nat) (pairs : list (nat * nat)) (B : matrix)
  : exn + matrix :=
  match pairs with
  | [] => inr B
  | (pair_id, lin_idx) :: rest =>
      match mark_pair n_rows n_cols
                      (tf_block lineage lineage_tfs_per lin_idx)
                      pair_id B with
      | inl e => inl e
      | inr B' => mark_pairs n_rows n_cols lineage lineage_tfs_per rest B'
      end
  end.

Definition build_ligand_receptor_effects (gene_names : list string)
           (groups : Groups) (n_lineages lineage_tfs_per : nat)
  : exn + (matrix * list Pair) :=
  let ligands := ligand groups in
  let receptors := receptor groups in
  let n_pairs := Nat.min (length ligands) (length receptors) in
  let pair_map :=
    map (fun idx => {| pair_id := idx;
                       ligand_ := nth idx ligands 0%nat;
                       receptor_ := nth idx receptors 0%nat |})
        (range n_pairs) in
  let pair_to_lineage := map (fun p => np_mod p n_lineages) (range n_pairs) in
  let B := repeat (zeros n_pairs) (length gene_names) in
  match mark_pairs (length gene_names) n_pairs (lineage groups)
                   lineage_tfs_per (enumerate pair_to_lineage) B with
  | inl e => inl e
  | inr B' => inr (B', pair_map)
  end.

(** [g_signal = signal.dot(ligand_effects.T)], the term of [deriv] that
    carries the signal back to the genes *)
Definition g_signal_of (n_genes : nat) (signal ligand_effects : matrix)
  : matrix :=
  matmul n_genes signal
         (transpose (length (hd [] ligand_effects)) ligand_effects).

(** ** latent_to_counts *)

(** The three generator methods that [latent_to_counts] calls. *)
Class CountGenerator (G : Type) : Type := {
  (** [rng.gamma(shape, scale)]: one shape per column, one scale per cell *)
  gamma : list R -> matrix -> G -> matrix * G;
  (** [rng.poisson(lam)] *)
  poisson : matrix -> G -> list (list Z) * G;
  (** [rng.random((rows, cols))] *)
  random_array : nat -> nat -> G -> matrix * G
}.

(** [np.log1p(np.exp(v))], over the reals; in double arithmetic the
    value is [v] itself for large [v] and 0 for very negative [v] *)
Definition softplus (v : R) : R := ln (1 + exp v).

(** [1.0 / (1.0 + np.exp((mu - dropout_mid) / dropout_scale))], over the
    reals; in double arithmetic the values 0 and 1 are reached far from
    [dropout_mid] *)
Definition drop_prob (dropout_mid dropout_scale mu : R) : R :=
  1 / (1 + exp ((mu - dropout_mid) / dropout_scale)).

(** [.astype(np.int32)] on a 64-bit integer: the value wraps modulo
    [2^32] into [[-2^31, 2^31)]. *)
Definition to_int32 (z : Z) : Z :=
  ((z + 2147483648) mod 4294967296 - 2147483648)%Z.

(** [a < b] on two arrays of one shape *)
Definition less_than (a b : matrix) : list (list bool) :=
  zip_with (zip_with (fun u p => if Rlt_dec u p then true else false)) a b.

(** [counts[drop_mask] = 0] *)
Definition zero_where (drop_mask : list (list bool))
           (counts : list (list Z)) : list (list Z) :=
  zip_with (zip_with (fun (m : bool) c => if m then 0%Z else c))
           drop_mask counts.

Definition latent_to_counts {G} `{CountGenerator G} (x : matrix)
           (dispersion : list R) (dropout_mid dropout_scale : R) (rng : G)
  : list (list Z) * G :=
  let mu := map_mat softplus x in
  let shape := dispersion in
  let scale := mat_row Rdiv mu dispersion in
  let (lam, rng) := gamma shape scale rng in
  let (draws, rng) := poisson lam rng in
  let counts := map (map to_int32) draws in
  let drop_prob := map_mat (drop_prob dropout_mid dropout_scale) mu in
  let (u, rng) := random_array (length mu) (length (hd [] mu)) rng in
  let drop_mask := less_than u drop_prob in
  (zero_where drop_mask counts, rng).

(** ** main: trajectories per sample, cell types and the transition graph *)

Definition sumZ (l : list Z) : Z := fold_right Z.add 0%Z l.

(** [traj_per_sample] and [actual_total_cells]; [//] and [%] are Python's
    floor division and modulo, a zero divisor raises
    [ZeroDivisionError]. *)
Definition split_trajectories (total_cells n_samples n_timepoints : Z)
  : exn + (list Z * Z) :=
  if (n_timepoints =? 0)%Z then inl ZeroDivisionError
  else
    let total_trajectories := (total_cells / n_timepoints)%Z in
    if (n_samples =? 0)%Z then inl ZeroDivisionError
    else
      let base_traj := (total_trajectories / n_samples)%Z in
      let remainder := (total_trajectories mod n_samples)%Z in
      let traj_per_sample :=
        map (fun i => (base_traj
                       + (if (Z.of_nat i <? remainder)%Z then 1 else 0))%Z)
            (range (Z.to_nat n_samples)) in
      let actual_total_cells := (sumZ traj_per_sample * n_timepoints)%Z in
      inr (traj_per_sample, actual_total_cells).

(** [np.where(lineage_id == 0, "progenitor", f"lin{idx}")] at one cell *)
Definition cell_type (lineage_id : nat) : string :=
  if (lineage_id =? 0)%nat then "progenitor"%string
  else ("lin" ++ str lineage_id)%string.

(** [np.tile(np.arange(n_timepoints), n_cells)] *)
Definition time_index (n_cells n_timepoints : nat) : list nat :=
  concat (repeat (range n_timepoints) n_cells).

(** [np.where(mask)[0]]: the positions at which [mask] holds *)
Definition where_ {A} (mask : A -> bool) (l : list A) : list nat :=
  map fst (filter (fun p => mask (snd p)) (enumerate l)).

(** [src] and [tgt] of one sample, paired:
    [src = offset + np.where(time_idx < n_timepoints - 1)[0]],
    [tgt = src + 1] *)
Definition transition_pairs (offset n_cells n_timepoints : nat)
  : list (nat * nat) :=
  let time_idx := time_index n_cells n_timepoints in
  let src :=
    map (fun i => (offset + i)%nat)
        (where_ (fun t => (Z.of_nat t <? Z.of_nat n_timepoints - 1)%Z)
                time_idx) in
  let tgt := map (fun s => (s + 1)%nat) src in
  combine src tgt.

(** [snapshots.reshape(n_cells * n_timepoints, n_genes)] *)
Definition reshape_flat (snapshots : tensor) : matrix := concat snapshots.

(** ** A replayable generator for the count model *)

Fixpoint tape_counts (lam : matrix) (tape : list nat)
  : list (list Z) * list nat :=
  match lam with
  | [] => ([], tape)
  | row :: rest =>
      let (hs, t) := pops (length row) tape in
      let (m, t') := tape_counts rest t in
      (map (fun h => Z.of_nat (h mod 50)) hs :: m, t')
  end.

#[export] Instance TapeCountGenerator : CountGenerator (list nat) := {
  gamma := fun shape scale tape => (mat_row Rmult scale shape, tape);
  poisson := tape_counts;
  random_array := fun rows cols tape =>
    tape_rows (fun _ h => unit_of h) rows cols tape
}.
(** ** Specification vocabulary *)

(** Total correctness of a monadic computation: from every state in [P]
    it returns, with a value and a state in [Q]. *)
Definition hoare {S A} (P : S -> Prop) (m : M S A) (Q : A -> S -> Prop)
  : Prop :=
  forall s, P s -> exists a s', m s = inr (a, s') /\ Q a s'.

(** The accumulated weight of the edges from gene [s] to gene [t]: the sum
    of the weights of all records of the edge list with these endpoints. *)
Definition joins (s t : string) (e : Edge) : bool :=
  (String.eqb (source e) s && String.eqb (target_ e) t)%bool.

Definition edge_sum (es : list Edge) (s t : string) : R :=
  sumR (map weight (filter (joins s t) es)).

Definition is_random (e : Edge) : bool := String.eqb (type_ e) "random".

Definition count_random (es : list Edge) : nat :=
  length (filter is_random es).

(** The number of attempts, among the next [k] passes of the random-edge
    loop started on generator state [g], whose drawn source and target
    differ: the loop replayed on the generator alone. *)
Fixpoint accepted {G} `{Generator G} (n_genes k : nat) (g : G) : nat :=
  match k with
  | O => 0%nat
  | S k' =>
      let (src, g1) := integers 0 n_genes g in
      let (dst, g2) := integers 0 n_genes g1 in
      if (src =? dst)%nat then accepted n_genes k' g2
      else let (_, g3) := uniform (-0.05) 0.05 g2 in
           S (accepted n_genes k' g3)
  end.

(** what a record tagged [random] must satisfy *)
Definition random_ok (e : Edge) : Prop :=
  is_random e = true ->
  source e <> target_ e /\ -0.05 <= weight e <= 0.05.

(** The four lists of the builder describe the same calls of [add_edge],
    in the same order. *)
Inductive mirror (names : list string)
  : list nat -> list nat -> list R -> list Edge -> Prop :=
| mirror_nil : mirror names [] [] [] []
| mirror_snoc rows cols data es src dst w label s t :
    mirror names rows cols data es ->
    nth_error names src = Some s ->
    nth_error names dst = Some t ->
    mirror names (rows ++ [dst]) (cols ++ [src]) (data ++ [w])
           (es ++ [{| source := s; target_ := t;
                      weight := w; type_ := label |}]).

(** the invariant of [build_grn]: the lists mirror each other, at most [k]
    records are tagged [random], and each of those is well formed *)
Definition binv {G} (names : list string) (k : nat) (st : G * Builder)
  : Prop :=
  let b := snd st in
  mirror names (rows b) (cols b) (data b) (edge_list b)
  /\ (count_random (edge_list b) <= k)%nat
  /\ Forall random_ok (edge_list b).

(** what [build_grn] returns on a catalog [names] *)
Definition grn_spec (names : list string) (grn : GRN) : Prop :=
  exists b : Builder,
    mirror names (rows b) (cols b) (data b) (edges grn)
    /\ W grn = csr_matrix (data b) (rows b) (cols b) (length names)
    /\ Forall random_ok (edges grn)
    /\ length (bias grn) = length names
    /\ length (decay grn) = length names
    /\ length (noise grn) = length names.

(** every index of every group names a gene *)
Definition groups_in_range (n_genes : nat) (groups : Groups) : Prop :=
  Forall (fun i => (i < n_genes)%nat)
         (prog groups ++ lineage groups ++ ligand groups ++ receptor groups
          ++ target groups ++ housekeeping groups ++ other groups).

(** a boolean test that a list of names has no repetition *)
Fixpoint nodupb (l : list string) : bool :=
  match l with
  | [] => true
  | x :: t => (negb (existsb (String.eqb x) t) && nodupb t)%bool
  end.

(** a tape on which the first pair of random genes collides (gene 3 twice,
    after the twelve draws of the program-TF weights) and the following
    199 pairs do not *)
Definition tape_one_collision : list nat :=
  (repeat 0 12 ++ [3; 3] ++ flat_map (fun i => [i; S i; i]) (seq 0 199))%nat.

(** a tape on which the first random edge runs from gene 0 (a program TF)
    to gene 36 (a receptor) with weight 0.03, and every later pair
    collides *)
Definition tape_duplicate : list nat := (repeat 0 12 ++ [0; 36; 800])%nat.

(** Partial correctness: whenever the computation returns, the value is
    in [Q]. *)
Definition post {S A} (m : M S A) (Q : A -> Prop) : Prop :=
  forall s a s', m s = inr (a, s') -> Q a.

(** The computation returns from every state, with a value in [Q]. *)
Definition returns {S A} (m : M S A) (Q : A -> Prop) : Prop :=
  forall s, exists a s', m s = inr (a, s') /\ Q a.


(** a four-gene network (one program TF, one lineage TF, one ligand, one
    receptor) on which the simulator is run concretely *)
Definition toy_groups : Groups :=
  {| prog := [0%nat]; lineage := [1%nat]; ligand := [2%nat];
     receptor := [3%nat]; target := []; housekeeping := []; other := [] |}.

Definition toy_grn : GRN :=
  {| W := [[0.2; -0.3; 0; 0]; [0.15; 0.6; 0; 0];
           [0; 0.6; 0; 0]; [0.2; 0; 0; 0]];
     bias := [0.05; 0.05; 0.2; 0.2];
     decay := [0.3; 0.3; 0.2; 0.2];
     noise := [0.1; 0.1; 0.06; 0.06];
     edges := [] |}.

Definition toy_ligand_effects : matrix := [[0]; [0.6]; [0]; [0]].

Definition toy_run (neighbor_mode : string) (neighbor_k : Z)
  : exn + (tensor * list nat) :=
  simulate_sample 2 [0; 2; 4] 1 2 toy_grn toy_ligand_effects toy_groups
                  [0; 0.3; 0; 0] 6 1 2 neighbor_mode neighbor_k 1
                  [7; 250; 999; 4; 31; 600]%nat.



(** entry [(g, q)] of a matrix *)
Definition entry (m : matrix) (g q : nat) : R := nth q (nth g m []) 0.

(** a matrix of [r] rows and [c] columns *)
Definition has_shape (r c : nat) (m : matrix) : Prop :=
  length m = r /\ Forall (fun row => length row = c) m.

(** membership in a list of gene indices, as a test *)
Definition mem (g : nat) (l : list nat) : bool := existsb (Nat.eqb g) l.

(** rates that [rng.poisson] accepts: not negative and below the bound
    (about [9.22e18]) beyond which it raises [ValueError] *)
Definition poisson_accepts (lam : matrix) : Prop :=
  Forall (Forall (fun l => 0 <= l <= 9e18)) lam.

(** [rng.choice(n, size=k, replace=False)] with [k <= n] yields [k]
    distinct values below [n]. *)
Definition choice_without_replacement (G : Type) `{Generator G} : Prop :=
  forall n k g,
    (k <= n)%nat ->
    length (fst (choice n k g)) = k
    /\ NoDup (fst (choice n k g))
    /\ Forall (fun c => (c < n)%nat) (fst (choice n k g)).

(** [rng.normal] returns an array of the requested shape. *)
Definition normal_shapes (G : Type) `{Generator G} : Prop :=
  (forall loc scale rows cols g,
      has_shape rows cols (fst (normal loc scale rows cols g)))
  /\ (forall loc scales rows g,
         has_shape rows (length scales)
                   (fst (normal_cols loc scales rows g))).

(** the value that the group assignments of [build_grn] leave on gene [g]:
    the one of the last assigned group that holds [g], and 0 for a gene of
    no group *)
Definition last_group_value (groups : Groups) (g : nat)
           (hk lig rec tgt prg lin oth : R) : R :=
  if mem g (other groups) then oth
  else if mem g (lineage groups) then lin
  else if mem g (prog groups) then prg
  else if mem g (target groups) then tgt
  else if mem g (receptor groups) then rec
  else if mem g (ligand groups) then lig
  else if mem g (housekeeping groups) then hk
  else 0.

(** every lineage has a TF block that is not empty and lies among the
    columns of every row of [x]: the means that [assign_lineage] takes are
    defined *)
Definition blocks_in_rows (x : matrix) (lineage_indices : list nat)
           (n_lineages lineage_tfs_per : nat) : Prop :=
  forall lin_idx, (lin_idx < n_lineages)%nat ->
    tf_block lineage_indices lineage_tfs_per lin_idx <> []
    /\ Forall (fun row =>
                 Forall (fun j => (j < length row)%nat)
                        (tf_block lineage_indices lineage_tfs_per lin_idx))
              x.

(** a value of the float32 format: rounding leaves it as it is *)
Definition is_float32 (v : R) : Prop := f32 v = v.


Definition within (b v : R) : Prop := - b <= v <= b.


(** Operands that conform, as the array arithmetic of [simulate_sample]
    needs them: a square adjacency, one decay, noise and morphogen entry
    per gene, noise amplitudes that [rng.normal] accepts, as many ligands
    as receptors, one row of ligand effects per gene and one column per
    pair, and groups that index genes. *)
Definition conformant (grn : GRN) (groups : Groups)
           (ligand_effects : matrix) (morphogen : list R) : Prop :=
  let n_genes := length (bias grn) in
  has_shape n_genes n_genes (W grn)
  /\ length (decay grn) = n_genes
  /\ length (noise grn) = n_genes
  /\ Forall (fun s => 0 <= s) (noise grn)
  /\ length morphogen = n_genes
  /\ length (ligand groups) = length (receptor groups)
  /\ has_shape n_genes (length (receptor groups)) ligand_effects
  /\ groups_in_range n_genes groups.
(** ** The monad and the loops *)

Lemma hoare_ret {S A} (P : S -> Prop) (Q : A -> S -> Prop) (a : A) :
  (forall s, P s -> Q a s) -> hoare P (ret a) Q.
Proof. intros HQ s Hs. exists a, s. split; [reflexivity | auto]. Qed.

Lemma hoare_bind {S A B} (P : S -> Prop) (Q : A -> S -> Prop)
      (R : B -> S -> Prop) (m : M S A) (f : A -> M S B) :
  hoare P m Q -> (forall a, hoare (Q a) (f a) R) -> hoare P (bind m f) R.
Proof.
  intros Hm Hf s Hs. destruct (Hm s Hs) as (a & s1 & E1 & H1).
  destruct (Hf a s1 H1) as (b & s2 & E2 & H2).
  exists b, s2. split; [|assumption].
  unfold bind. rewrite E1. exact E2.
Qed.

Lemma hoare_conseq {S A} (P P' : S -> Prop) (Q Q' : A -> S -> Prop)
      (m : M S A) :
  hoare P' m Q' -> (forall s, P s -> P' s) ->
  (forall a s, Q' a s -> Q a s) -> hoare P m Q.
Proof.
  intros Hm HP HQ s Hs. destruct (Hm s (HP s Hs)) as (a & s' & E & H').
  exists a, s'. auto.
Qed.

Lemma hoare_lift {S A} (P : S -> Prop) (Q : A -> S -> Prop)
      (r : exn + A) (a : A) :
  r = inr a -> (forall s, P s -> Q a s) -> hoare P (lift r) Q.
Proof.
  intros -> HQ s Hs. exists a, s. split; [reflexivity | auto].
Qed.

(** a loop whose body keeps an invariant *)
Lemma hoare_for_each {S A} (I : S -> Prop) (l : list A)
      (body : A -> M S unit) :
  (forall x, In x l -> hoare I (body x) (fun _ => I)) ->
  hoare I (for_each l body) (fun _ => I).
Proof.
  induction l as [|x l IH]; intros Hb; simpl.
  - apply hoare_ret. auto.
  - eapply hoare_bind.
    + apply Hb. now left.
    + intros u. apply IH. intros y Hy. apply Hb. now right.
Qed.

(** ** IEEE 754 rounding: evaluation and exactness *)


Lemma Int_part_bounds (r : R) : IZR (Int_part r) <= r < IZR (Int_part r) + 1.
Proof. destruct (base_Int_part r). lra. Qed.

Lemma Int_part_unique (r : R) (z : Z) :
  IZR z <= r < IZR z + 1 -> Int_part r = z.
Proof. intros H. symmetry. apply Int_part_spec. lra. Qed.

Lemma Znearest_close (r : R) : Rabs (IZR (Znearest r) - r) <= 1 / 2.
Proof.
  unfold Znearest. pose proof (Int_part_bounds r) as Hb.
  set (f := Int_part r) in *.
  destruct (Rlt_dec (r - IZR f) (1 / 2)) as [Hlo|Hlo].
  - apply Rabs_le. lra.
  - destruct (Rlt_dec (1 / 2) (r - IZR f)) as [Hhi|Hhi].
    + rewrite plus_IZR. apply Rabs_le. lra.
    + destruct (Z.even f); [|rewrite plus_IZR]; apply Rabs_le; lra.
Qed.

Lemma Znearest_eval (r : R) (n : Z) :
  IZR n - 1 / 2 < r < IZR n + 1 / 2 -> Znearest r = n.
Proof.
  intros Hn. unfold Znearest. pose proof (Int_part_bounds r) as Hb.
  set (f := Int_part r) in *.
  assert (Hf : (f = n \/ f = n - 1)%Z).
  { assert (H1 : IZR f < IZR n + 1) by lra.
    assert (H2 : IZR n - 2 < IZR f) by lra.
    rewrite <- plus_IZR in H1. apply lt_IZR in H1.
    rewrite <- minus_IZR in H2. apply lt_IZR in H2. lia. }
  destruct Hf as [-> | ->].
  - destruct (Rlt_dec (r - IZR n) (1 / 2)); [reflexivity | lra].
  - rewrite minus_IZR in *.
    destruct (Rlt_dec (r - (IZR n - 1)) (1 / 2)); [lra|].
    destruct (Rlt_dec (1 / 2) (r - (IZR n - 1))); [lia | lra].
Qed.

Lemma Znearest_IZR (n : Z) : Znearest (IZR n) = n.
Proof. apply Znearest_eval. lra. Qed.

Lemma ln_2_pos : 0 < ln 2.
Proof. rewrite <- ln_1. apply ln_increasing; lra. Qed.

Lemma pow2_pos (k : Z) : 0 < powerRZ 2 k.
Proof. apply powerRZ_lt. lra. Qed.

Lemma ln_pow2 (k : Z) : ln (powerRZ 2 k) = IZR k * ln 2.
Proof.
  rewrite powerRZ_Rpower by lra. unfold Rpower. apply ln_exp.
Qed.

Lemma pow2_add (a b : Z) : powerRZ 2 (a + b) = powerRZ 2 a * powerRZ 2 b.
Proof. apply powerRZ_add. lra. Qed.

Lemma pow2_le (a b : Z) : (a <= b)%Z -> powerRZ 2 a <= powerRZ 2 b.
Proof.
  intros H. replace b with (a + (b - a))%Z by lia. rewrite pow2_add.
  assert (1 <= powerRZ 2 (b - a)).
  { destruct (b - a)%Z eqn:E; try lia.
    - simpl. lra.
    - simpl. apply pow_R1_Rle. lra. }
  pose proof (pow2_pos a). nra.
Qed.

Lemma pow2_lt (a b : Z) : (a < b)%Z -> powerRZ 2 a < powerRZ 2 b.
Proof.
  intros H. apply Rlt_le_trans with (powerRZ 2 (a + 1)).
  - rewrite pow2_add. simpl. pose proof (pow2_pos a). lra.
  - apply pow2_le. lia.
Qed.

Lemma mag2_unique (r : R) (k : Z) :
  powerRZ 2 k <= Rabs r < powerRZ 2 (k + 1) -> mag2 r = k.
Proof.
  intros [Hlo Hhi]. unfold mag2. apply Int_part_unique.
  pose proof (pow2_pos k) as Hk. pose proof ln_2_pos as H2.
  assert (Hr : 0 < Rabs r) by lra.
  assert (L1 : IZR k * ln 2 <= ln (Rabs r)).
  { rewrite <- ln_pow2. destruct Hlo as [Hlo|Hlo].
    - left. now apply ln_increasing.
    - rewrite Hlo. lra. }
  assert (L2 : ln (Rabs r) < (IZR k + 1) * ln 2).
  { rewrite <- plus_IZR, <- ln_pow2. now apply ln_increasing. }
  split.
  - apply Rmult_le_reg_r with (ln 2); [exact H2|].
    unfold Rdiv. rewrite Rmult_assoc, Rinv_l by lra. lra.
  - apply Rmult_lt_reg_r with (ln 2); [exact H2|].
    unfold Rdiv. rewrite Rmult_assoc, Rinv_l by lra. lra.
Qed.

Lemma mag2_spec (r : R) :
  r <> 0 -> powerRZ 2 (mag2 r) <= Rabs r < powerRZ 2 (mag2 r + 1).
Proof.
  intros Hr. assert (Ha : 0 < Rabs r) by now apply Rabs_pos_lt.
  pose proof ln_2_pos as H2. unfold mag2.
  pose proof (Int_part_bounds (ln (Rabs r) / ln 2)) as [Hlo Hhi].
  set (k := Int_part (ln (Rabs r) / ln 2)) in *.
  assert (L1 : IZR k * ln 2 <= ln (Rabs r)).
  { apply Rmult_le_compat_r with (r := ln 2) in Hlo; [|lra].
    unfold Rdiv in Hlo. rewrite Rmult_assoc, Rinv_l in Hlo by lra. lra. }
  assert (L2 : ln (Rabs r) < (IZR k + 1) * ln 2).
  { apply Rmult_lt_compat_r with (r := ln 2) in Hhi; [|lra].
    unfold Rdiv in Hhi. rewrite Rmult_assoc, Rinv_l in Hhi by lra. lra. }
  rewrite <- (exp_ln (Rabs r)) at 1 2 by exact Ha.
  rewrite !powerRZ_Rpower by lra. unfold Rpower. rewrite plus_IZR. split.
  - destruct L1 as [L1|L1]; [left; now apply exp_increasing|].
    rewrite L1. lra.
  - now apply exp_increasing.
Qed.

(** evaluation of a rounding from the binade [k] of [r] and the integer
    [n] nearest to [r / 2 ^ (k - prec)] *)
Lemma round_eval (prec emin : Z) (r : R) (k n : Z) :
  powerRZ 2 k <= Rabs r < powerRZ 2 (k + 1) ->
  (emin <= k)%Z ->
  IZR n - 1 / 2 < r / powerRZ 2 (k - prec) < IZR n + 1 / 2 ->
  round_binary prec emin r = IZR n * powerRZ 2 (k - prec).
Proof.
  intros Hk He Hn. unfold round_binary.
  destruct (Req_dec_T r 0) as [->|_].
  { rewrite Rabs_R0 in Hk. pose proof (pow2_pos k). lra. }
  rewrite (mag2_unique r k Hk). rewrite Z.max_l by lia.
  now rewrite (Znearest_eval _ n Hn).
Qed.

Lemma round_0 (prec emin : Z) : round_binary prec emin 0 = 0.
Proof.
  unfold round_binary. destruct (Req_dec_T 0 0); [reflexivity|contradiction].
Qed.

Lemma IZR_pow2 (z : Z) : (0 <= z)%Z -> IZR (2 ^ z) = powerRZ 2 z.
Proof.
  intros Hz. rewrite <- (Z2Nat.id z Hz) at 1 2.
  rewrite <- pow_IZR. now rewrite pow_powerRZ.
Qed.

Lemma pow2_div (a b : Z) : powerRZ 2 a / powerRZ 2 b = powerRZ 2 (a - b).
Proof.
  replace a with ((a - b) + b)%Z at 1 by lia. rewrite pow2_add.
  field. pose proof (pow2_pos b). lra.
Qed.

Lemma Rabs_le_inv (a b : R) : Rabs a <= b -> - b <= a <= b.
Proof. unfold Rabs. destruct (Rcase_abs a); lra. Qed.

Lemma Znearest_le (r : R) (m : Z) : r <= IZR m -> (Znearest r <= m)%Z.
Proof.
  intros H. pose proof (Znearest_close r) as Hc. apply Rabs_le_inv in Hc.
  assert (IZR (Znearest r) < IZR m + 1) by lra.
  rewrite <- plus_IZR in H0. apply lt_IZR in H0. lia.
Qed.

Lemma Znearest_ge (r : R) (m : Z) : IZR m <= r -> (m <= Znearest r)%Z.
Proof.
  intros H. pose proof (Znearest_close r) as Hc. apply Rabs_le_inv in Hc.
  assert (IZR m - 1 < IZR (Znearest r)) by lra.
  rewrite <- minus_IZR in H0. apply lt_IZR in H0. lia.
Qed.

(** a rounding is an integer multiple of the quantum of its binade *)
Lemma round_grid (prec emin : Z) (r : R) :
  (0 <= prec)%Z -> r <> 0 ->
  let e := Z.max (mag2 r) emin in
  exists n : Z,
    round_binary prec emin r = IZR n * powerRZ 2 (e - prec)
    /\ (Z.abs n <= 2 ^ (prec + 1))%Z
    /\ ((emin <= mag2 r)%Z -> (2 ^ prec <= Z.abs n)%Z).
Proof.
  intros Hp Hr e. unfold round_binary.
  destruct (Req_dec_T r 0); [contradiction|]. fold e.
  set (q := powerRZ 2 (e - prec)). set (x := r / q).
  exists (Znearest x). split; [reflexivity|].
  pose proof (mag2_spec r Hr) as [Hlo Hhi].
  pose proof (pow2_pos (e - prec)) as Hq. fold q in Hq.
  assert (Hx : Rabs x = Rabs r / q).
  { unfold x, Rdiv. rewrite Rabs_mult, Rabs_inv, (Rabs_pos_eq q); lra. }
  split.
  - assert (Hup : Rabs x <= IZR (2 ^ (prec + 1))).
    { rewrite IZR_pow2 by lia. rewrite Hx.
      apply Rmult_le_reg_r with q; [exact Hq|].
      unfold Rdiv. rewrite Rmult_assoc, Rinv_l, Rmult_1_r by lra.
      unfold q. rewrite <- pow2_add.
      apply Rle_trans with (powerRZ 2 (mag2 r + 1)); [lra|].
      apply pow2_le. lia. }
    apply Rabs_le_inv in Hup. rewrite <- opp_IZR in Hup.
    pose proof (Znearest_le x _ (proj2 Hup)).
    pose proof (Znearest_ge x _ (proj1 Hup)). lia.
  - intros He. assert (Ee : e = mag2 r) by (unfold e; lia).
    assert (Hdn : IZR (2 ^ prec) <= Rabs x).
    { rewrite IZR_pow2 by lia. rewrite Hx.
      apply Rmult_le_reg_r with q; [exact Hq|].
      unfold Rdiv. rewrite Rmult_assoc, Rinv_l, Rmult_1_r by lra.
      unfold q. rewrite <- pow2_add.
      replace (prec + (e - prec))%Z with (mag2 r) by lia. exact Hlo. }
    unfold Rabs in Hdn. destruct (Rcase_abs x) as [Hneg|Hpos].
    + assert (Hle : x <= IZR (- 2 ^ prec)) by (rewrite opp_IZR; lra).
      pose proof (Znearest_le x _ Hle). lia.
    + pose proof (Znearest_ge x _ Hdn). lia.
Qed.

(** a value on the grid of its binade is not changed by rounding *)
Lemma round_exact (prec emin : Z) (n e : Z) :
  (0 <= prec)%Z -> (emin <= e)%Z ->
  (Z.abs n < 2 ^ (prec + 1))%Z ->
  (2 ^ prec <= Z.abs n \/ e = emin)%Z ->
  round_binary prec emin (IZR n * powerRZ 2 (e - prec))
  = IZR n * powerRZ 2 (e - prec).
Proof.
  intros Hp He Hn Hnorm.
  pose proof (pow2_pos (e - prec)) as Hq.
  destruct (Z.eq_dec n 0) as [->|Hn0].
  { rewrite Rmult_0_l. apply round_0. }
  set (v := IZR n * powerRZ 2 (e - prec)).
  assert (Hv : v <> 0).
  { unfold v. apply Rmult_integral_contrapositive_currified; [|lra].
    intros E. apply eq_IZR in E. contradiction. }
  assert (Habs : Rabs v = IZR (Z.abs n) * powerRZ 2 (e - prec)).
  { unfold v. rewrite Rabs_mult, (Rabs_pos_eq (powerRZ 2 (e - prec))) by lra.
    now rewrite <- abs_IZR. }
  assert (Hup : Rabs v < powerRZ 2 (e + 1)).
  { rewrite Habs. replace (e + 1)%Z with ((prec + 1) + (e - prec))%Z by lia.
    rewrite pow2_add, <- (IZR_pow2 (prec + 1)) by lia.
    apply Rmult_lt_compat_r; [exact Hq|]. now apply IZR_lt. }
  assert (Hmag : (mag2 v <= e)%Z).
  { pose proof (mag2_spec v Hv) as [Hlo _].
    destruct (Z_lt_le_dec e (mag2 v)) as [Hlt|]; [|assumption].
    exfalso. assert (powerRZ 2 (e + 1) <= powerRZ 2 (mag2 v))
      by (apply pow2_le; lia). lra. }
  assert (Hmax : Z.max (mag2 v) emin = e).
  { destruct Hnorm as [Hnorm| ->]; [|lia].
    assert (Hdn : powerRZ 2 e <= Rabs v).
    { rewrite Habs. replace e with (prec + (e - prec))%Z at 1 by lia.
      rewrite pow2_add, <- (IZR_pow2 prec) by lia.
      apply Rmult_le_compat_r; [lra|]. now apply IZR_le. }
    rewrite (mag2_unique v e (conj Hdn Hup)). lia. }
  unfold round_binary. fold v. destruct (Req_dec_T v 0); [contradiction|].
  rewrite Hmax.
  replace (v / powerRZ 2 (e - prec)) with (IZR n)
    by (unfold v; field; lra).
  now rewrite Znearest_IZR.
Qed.

(** rounding twice is rounding once *)
Lemma round_idem (prec emin : Z) (r : R) :
  (0 <= prec)%Z ->
  round_binary prec emin (round_binary prec emin r)
  = round_binary prec emin r.
Proof.
  intros Hp. destruct (Req_dec_T r 0) as [->|Hr].
  { rewrite round_0. apply round_0. }
  destruct (round_grid prec emin r Hp Hr) as (n & E & Hup & Hdn).
  set (e := Z.max (mag2 r) emin) in *. rewrite E.
  destruct (Z.eq_dec (Z.abs n) (2 ^ (prec + 1))) as [Htop|Htop].
  - (* the rounding reached the next binade *)
    assert (E2 : (2 ^ (prec + 1) = 2 * 2 ^ prec)%Z).
    { replace (prec + 1)%Z with (1 + prec)%Z by lia.
      now rewrite Z.pow_add_r by lia. }
    assert (Hh : exists h : Z, (n = 2 * h /\ Z.abs h = 2 ^ prec)%Z).
    { destruct (Z_le_gt_dec 0 n).
      - exists (2 ^ prec)%Z. split; [lia|].
        apply Z.abs_eq, Z.pow_nonneg. lia.
      - exists (- 2 ^ prec)%Z. split; [lia|].
        rewrite Z.abs_opp. apply Z.abs_eq, Z.pow_nonneg. lia. }
    destruct Hh as (h & -> & Hhalf).
    replace (IZR (2 * h) * powerRZ 2 (e - prec))
      with (IZR h * powerRZ 2 ((e + 1) - prec)).
    + apply round_exact; unfold e; lia.
    + rewrite mult_IZR.
      replace (e + 1 - prec)%Z with (1 + (e - prec))%Z by lia.
      rewrite pow2_add. simpl. ring.
  - apply round_exact; unfold e; lia.
Qed.

(** integers below [2 ^ 53] in size are doubles *)
Lemma f64_int (m : Z) : (Z.abs m < 2 ^ 53)%Z -> f64 (IZR m) = IZR m.
Proof.
  intros Hm. destruct (Z.eq_dec m 0) as [->|H0]; [apply round_0|].
  set (j := Z.log2 (Z.abs m)).
  assert (Hj : (2 ^ j <= Z.abs m < 2 ^ (j + 1))%Z).
  { pose proof (Z.log2_spec (Z.abs m) ltac:(lia)) as H.
    unfold j. replace (Z.log2 (Z.abs m) + 1)%Z
      with (Z.succ (Z.log2 (Z.abs m))) by lia. exact H. }
  assert (Hj0 : (0 <= j)%Z) by apply Z.log2_nonneg.
  assert (Hj52 : (j <= 52)%Z).
  { destruct (Z_le_gt_dec j 52); [assumption|]. exfalso.
    assert (2 ^ 53 <= 2 ^ j)%Z by (apply Z.pow_le_mono_r; lia). lia. }
  replace (IZR m) with (IZR (m * 2 ^ (52 - j)) * powerRZ 2 (j - 52)).
  - unfold f64. apply round_exact; try lia.
    + rewrite Z.abs_mul, (Z.abs_eq (2 ^ (52 - j))) by (apply Z.pow_nonneg; lia).
      replace (52 + 1)%Z with ((j + 1) + (52 - j))%Z by lia.
      rewrite Z.pow_add_r by lia.
      apply Z.mul_lt_mono_pos_r; [apply Z.pow_pos_nonneg; lia | lia].
    + left. rewrite Z.abs_mul, (Z.abs_eq (2 ^ (52 - j)))
        by (apply Z.pow_nonneg; lia).
      replace 52%Z with (j + (52 - j))%Z at 1 by lia.
      rewrite Z.pow_add_r by lia.
      apply Z.mul_le_mono_nonneg_r; [apply Z.pow_nonneg; lia | lia].
  - rewrite mult_IZR, IZR_pow2 by lia. rewrite Rmult_assoc, <- pow2_add.
    replace (52 - j + (j - 52))%Z with 0%Z by lia. simpl. ring.
Qed.

(** rounding does not cross a power of two *)
Lemma round_le_pow2 (prec emin : Z) (r : R) (j : Z) :
  (0 <= prec)%Z -> (emin - prec <= j)%Z ->
  Rabs r <= powerRZ 2 j ->
  Rabs (round_binary prec emin r) <= powerRZ 2 j.
Proof.
  intros Hp Hj Hr. destruct (Req_dec_T r 0) as [->|H0].
  { rewrite round_0, Rabs_R0. left. apply pow2_pos. }
  unfold round_binary. destruct (Req_dec_T r 0); [contradiction|].
  set (e := Z.max (mag2 r) emin).
  pose proof (pow2_pos (e - prec)) as Hq.
  pose proof (mag2_spec r H0) as [Hlo _].
  assert (Hk : (mag2 r <= j)%Z).
  { destruct (Z_le_gt_dec (mag2 r) j); [assumption|]. exfalso.
    assert (powerRZ 2 j < powerRZ 2 (mag2 r)) by (apply pow2_lt; lia). lra. }
  assert (He : (e - prec <= j)%Z) by (unfold e; lia).
  set (x := r / powerRZ 2 (e - prec)).
  assert (Hx : Rabs x <= IZR (2 ^ (j - (e - prec)))).
  { rewrite IZR_pow2 by lia. unfold x, Rdiv.
    rewrite Rabs_mult, Rabs_inv, (Rabs_pos_eq (powerRZ 2 (e - prec))) by lra.
    rewrite <- (pow2_div j (e - prec)). unfold Rdiv.
    apply Rmult_le_compat_r; [left; now apply Rinv_0_lt_compat | exact Hr]. }
  apply Rabs_le_inv in Hx. rewrite <- opp_IZR in Hx.
  pose proof (Znearest_le x _ (proj2 Hx)) as H1.
  pose proof (Znearest_ge x _ (proj1 Hx)) as H2.
  rewrite Rabs_mult, (Rabs_pos_eq (powerRZ 2 (e - prec))) by lra.
  replace (powerRZ 2 j)
    with (IZR (2 ^ (j - (e - prec))) * powerRZ 2 (e - prec)).
  - apply Rmult_le_compat_r; [lra|]. rewrite <- abs_IZR. apply IZR_le. lia.
  - rewrite IZR_pow2 by lia. rewrite <- pow2_add. f_equal. lia.
Qed.

Lemma Rabs_bounds_pos (r a b : R) : 0 <= a -> a <= r < b -> a <= Rabs r < b.
Proof. intros Ha H. rewrite Rabs_pos_eq; lra. Qed.

Lemma Rabs_bounds_neg (r a b : R) : 0 <= a -> a <= - r < b -> a <= Rabs r < b.
Proof. intros Ha H. rewrite <- Rabs_Ropp, Rabs_pos_eq; lra. Qed.

Lemma mag2_le (a b : R) : a <> 0 -> Rabs a <= Rabs b -> (mag2 a <= mag2 b)%Z.
Proof.
  intros Ha Hab.
  assert (Hb : b <> 0).
  { intros E. rewrite E, Rabs_R0 in Hab.
    pose proof (Rabs_pos_lt a Ha). lra. }
  pose proof (mag2_spec a Ha) as [La _].
  pose proof (mag2_spec b Hb) as [_ Ub].
  destruct (Z_le_gt_dec (mag2 a) (mag2 b)); [assumption|]. exfalso.
  assert (powerRZ 2 (mag2 b + 1) <= powerRZ 2 (mag2 a))
    by (apply pow2_le; lia).
  lra.
Qed.

(** rounding to nearest does not cross a value of the format: a value
    [s] of the format that is at least [t] is at least the rounding of
    [t] *)
Lemma round_below_grid (prec emin : Z) (t s : R) :
  (0 <= prec)%Z -> round_binary prec emin s = s -> t <= s ->
  round_binary prec emin t <= s.
Proof.
  intros Hp Hs Hts.
  destruct (Req_dec_T t 0) as [->|Ht]; [rewrite round_0; exact Hts|].
  unfold round_binary at 1. destruct (Req_dec_T t 0); [contradiction|].
  set (et := Z.max (mag2 t) emin). set (q := powerRZ 2 (et - prec)).
  pose proof (pow2_pos (et - prec)) as Hq. fold q in Hq.
  assert (Hmult : forall m : Z,
             t <= IZR m * q -> IZR (Znearest (t / q)) * q <= IZR m * q).
  { intros m Hm. apply Rmult_le_compat_r; [lra|]. apply IZR_le, Znearest_le.
    apply Rmult_le_reg_r with q; [exact Hq|].
    unfold Rdiv. rewrite Rmult_assoc, Rinv_l by lra. lra. }
  destruct (Req_dec_T s 0) as [Es|Hs0].
  { apply Rle_trans with (IZR 0 * q); [apply Hmult; lra | lra]. }
  unfold round_binary in Hs. destruct (Req_dec_T s 0); [contradiction|].
  set (es := Z.max (mag2 s) emin) in Hs.
  set (ns := Znearest (s / powerRZ 2 (es - prec))) in Hs.
  destruct (Z_le_gt_dec et es) as [Hle|Hgt].
  - assert (E : s = IZR (ns * 2 ^ (es - et)) * q).
    { rewrite mult_IZR, IZR_pow2 by lia. unfold q.
      rewrite Rmult_assoc, <- pow2_add.
      replace (es - et + (et - prec))%Z with (es - prec)%Z by lia.
      now symmetry. }
    rewrite E. apply Hmult. rewrite <- E. exact Hts.
  - assert (Et : et = mag2 t) by (unfold et, es in *; lia).
    assert (Hms : (mag2 s + 1 <= et)%Z) by (unfold es in *; lia).
    pose proof (mag2_spec t Ht) as [Lt _]. rewrite <- Et in Lt.
    pose proof (mag2_spec s Hs0) as [_ Us].
    pose proof (pow2_le _ _ Hms) as Hpow.
    assert (Hsa : Rabs s < powerRZ 2 et) by lra.
    assert (Hneg : t <= - powerRZ 2 et).
    { revert Lt Hsa. unfold Rabs.
      destruct (Rcase_abs t), (Rcase_abs s); lra. }
    assert (Em : IZR (- 2 ^ prec) * q = - powerRZ 2 et).
    { rewrite opp_IZR, IZR_pow2 by lia. unfold q.
      rewrite <- Ropp_mult_distr_l, <- pow2_add. do 2 f_equal. lia. }
    apply Rle_trans with (IZR (- 2 ^ prec) * q).
    + apply Hmult. rewrite Em. exact Hneg.
    + rewrite Em. revert Hsa. unfold Rabs. destruct (Rcase_abs s); lra.
Qed.

(** ** Powers *)

Lemma power_zero_base (e : R) : e <> 0 -> power 0 e = 0.
Proof.
  intros He. unfold power.
  destruct (Req_dec_T 0 0) as [_|N]; [|contradiction].
  destruct (Req_dec_T e 0); [contradiction|reflexivity].
Qed.

Lemma power_pos_base (b e : R) : 0 < b -> power b e = Rpower b e.
Proof.
  intros Hb. unfold power.
  destruct (Req_dec_T b 0); [lra|reflexivity].
Qed.

Lemma power_pos (b e : R) : 0 < b -> 0 < power b e.
Proof.
  intros Hb. rewrite power_pos_base by assumption.
  unfold Rpower. apply exp_pos.
Qed.

Lemma power_nonneg (b e : R) : 0 <= b -> 0 < e -> 0 <= power b e.
Proof.
  intros [Hb|Hb] He.
  - left. now apply power_pos.
  - subst b. rewrite power_zero_base; lra.
Qed.

Lemma power_lt (a b e : R) : 0 < e -> 0 <= a < b -> power a e < power b e.
Proof.
  intros He [[Ha|Ha] Hab].
  - rewrite !power_pos_base by lra. apply Rlt_Rpower_l; lra.
  - subst a. rewrite power_zero_base by lra. apply power_pos; lra.
Qed.

Lemma power_sq (b : R) : 0 < b -> power b 2 = b * b.
Proof.
  intros Hb. rewrite power_pos_base by assumption.
  replace 2 with (INR 2) by (simpl; lra).
  rewrite Rpower_pow by assumption. simpl. ring.
Qed.
(** ** Lists, slices and sums *)

Lemma sumR_app (a b : list R) : sumR (a ++ b) = sumR a + sumR b.
Proof.
  unfold sumR. induction a as [|x a IH]; simpl; [ring | rewrite IH; ring].
Qed.

Lemma in_firstn {A} (n : nat) (l : list A) (x : A) :
  In x (firstn n l) -> In x l.
Proof.
  revert l. induction n as [|n IH]; intros [|h t]; simpl; try tauto.
  intros [->|Hx]; [now left | right; now apply IH].
Qed.

Lemma in_skipn {A} (n : nat) (l : list A) (x : A) :
  In x (skipn n l) -> In x l.
Proof.
  revert l. induction n as [|n IH]; intros [|h t]; simpl; try tauto.
  intros Hx. right. now apply IH.
Qed.

Lemma in_slice {A} (a b : nat) (l : list A) (x : A) :
  In x (slice a b l) -> In x l.
Proof.
  unfold slice. intros Hx.
  apply in_firstn in Hx. now apply in_skipn in Hx.
Qed.

Lemma in_tf_block (lineage : list nat) (per lin_idx x : nat) :
  In x (tf_block lineage per lin_idx) -> In x lineage.
Proof. apply in_slice. Qed.

Lemma in_split_sizes {A} (sizes : list nat) (l sub : list A) (x : A) :
  In sub (split_sizes l sizes) -> In x sub -> In x l.
Proof.
  revert l. induction sizes as [|s ss IH]; intros l; simpl; [tauto|].
  intros [<-|Hsub] Hx.
  - eapply in_firstn; eassumption.
  - eapply in_skipn. eapply IH; eassumption.
Qed.

Lemma in_array_split {A} (l : list A) (n : nat) (splits : list (list A))
      (sub : list A) (x : A) :
  array_split l n = inr splits -> In sub splits -> In x sub -> In x l.
Proof.
  unfold array_split. destruct n; [discriminate|].
  intros E. injection E as <-. apply in_split_sizes.
Qed.

Lemma array_split_ok {A} (l : list A) (n : nat) :
  (0 < n)%nat -> exists splits, array_split l n = inr splits.
Proof.
  intros Hn. unfold array_split. destruct n; [lia|]. eauto.
Qed.

Lemma in_enumerate {A} (l : list A) (i : nat) (x : A) :
  In (i, x) (enumerate l) -> In x l.
Proof. unfold enumerate. apply in_combine_r. Qed.

Lemma length_set_nth {A} (i : nat) (v : A) (l : list A) :
  length (set_nth i v l) = length l.
Proof.
  revert i. induction l as [|h t IH]; intros [|i]; simpl; auto.
Qed.

Lemma assign_idx_ok (idxs : list nat) (v : R) (vec : list R) :
  Forall (fun i => (i < length vec)%nat) idxs ->
  exists vec', assign_idx idxs v vec = inr vec'
               /\ length vec' = length vec.
Proof.
  revert vec. induction idxs as [|i rest IH]; intros vec Hall; simpl.
  - eauto.
  - inversion Hall as [|? ? Hi Hrest]; subst.
    apply Nat.ltb_lt in Hi. rewrite Hi.
    destruct (IH (set_nth i v vec)) as (vec' & E & L).
    + now rewrite length_set_nth.
    + exists vec'. split; [exact E|]. now rewrite L, length_set_nth.
Qed.

Lemma assign_idx_ok_length (idxs : list nat) (v : R) (vec vec' : list R) :
  assign_idx idxs v vec = inr vec' -> length vec' = length vec.
Proof.
  revert vec. induction idxs as [|i rest IH]; intros vec E; simpl in E.
  - now injection E as <-.
  - destruct (i <? length vec)%nat; [|discriminate].
    rewrite (IH _ E). apply length_set_nth.
Qed.

(** ** The adjacency matrix and the edge list *)

Lemma mirror_lengths names rows cols data es :
  mirror names rows cols data es ->
  length rows = length data /\ length cols = length data.
Proof.
  induction 1 as [|? ? ? ? ? ? ? ? ? ? _ [IH1 IH2]]; simpl; [auto|].
  rewrite !length_app; simpl. lia.
Qed.

Lemma coo_entry_snoc data rows cols v r' c' r c :
  length rows = length data -> length cols = length data ->
  coo_entry (data ++ [v]) (rows ++ [r']) (cols ++ [c']) r c
  = coo_entry data rows cols r c
    + (if ((r' =? r) && (c' =? c))%nat then v else 0).
Proof.
  revert rows cols.
  induction data as [|d data IH]; intros [|x rows] [|y cols];
    simpl; try discriminate.
  - intros _ _. ring.
  - intros Hr Hc. rewrite IH by lia. ring.
Qed.

Lemma edge_sum_snoc es e s t :
  edge_sum (es ++ [e]) s t
  = edge_sum es s t + (if joins s t e then weight e else 0).
Proof.
  unfold edge_sum. rewrite filter_app, map_app, sumR_app. simpl.
  destruct (joins s t e); simpl; ring.
Qed.

Lemma nth_error_inj {A} (l : list A) (i j : nat) (x : A) :
  NoDup l -> nth_error l i = Some x -> nth_error l j = Some x -> i = j.
Proof.
  intros Hnd Hi Hj.
  apply (proj1 (NoDup_nth_error l) Hnd).
  - apply nth_error_Some. congruence.
  - congruence.
Qed.

(** Entry [(t, s)] of the sparse matrix is the accumulated weight of the
    edges from [s] to [t]. *)
Lemma coo_entry_edge_sum names rows cols data es s t sn tn :
  NoDup names -> mirror names rows cols data es ->
  nth_error names s = Some sn -> nth_error names t = Some tn ->
  coo_entry data rows cols t s = edge_sum es sn tn.
Proof.
  intros Hnd Hm Hs Ht.
  induction Hm as [|rows cols data es src dst w label s' t' Hm IH Hs' Ht'].
  - reflexivity.
  - destruct (mirror_lengths _ _ _ _ _ Hm) as [Lr Lc].
    rewrite coo_entry_snoc, edge_sum_snoc, IH by assumption.
    f_equal. unfold joins; simpl.
    destruct (Nat.eqb_spec dst t) as [->|Hd];
      destruct (Nat.eqb_spec src s) as [->|Hsr]; simpl.
    + replace s' with sn by congruence. replace t' with tn by congruence.
      now rewrite !String.eqb_refl.
    + replace t' with tn by congruence.
      destruct (String.eqb_spec s' sn) as [->|]; [|reflexivity].
      exfalso. apply Hsr. eapply nth_error_inj; eassumption.
    + destruct (String.eqb_spec t' tn) as [->|];
        [|now rewrite andb_false_r].
      exfalso. apply Hd. eapply nth_error_inj; eassumption.
    + destruct (String.eqb_spec t' tn) as [->|];
        [|now rewrite andb_false_r].
      exfalso. apply Hd. eapply nth_error_inj; eassumption.
Qed.

Lemma csr_matrix_entry data rows cols n r c :
  (r < n)%nat -> (c < n)%nat ->
  nth c (nth r (csr_matrix data rows cols n) []) 0
  = coo_entry data rows cols r c.
Proof.
  intros Hr Hc. unfold csr_matrix.
  rewrite (nth_indep _ [] (map (fun c0 => coo_entry data rows cols 0 c0)
                               (seq 0 n)))
    by (rewrite length_map, length_seq; exact Hr).
  rewrite (map_nth (fun r0 => map (fun c0 => coo_entry data rows cols r0 c0)
                                  (seq 0 n)) (seq 0 n) 0%nat r).
  rewrite seq_nth by exact Hr. simpl.
  rewrite (nth_indep _ 0 (coo_entry data rows cols r 0))
    by (rewrite length_map, length_seq; exact Hc).
  rewrite (map_nth (fun c0 => coo_entry data rows cols r c0) (seq 0 n) 0%nat c).
  now rewrite seq_nth by exact Hc.
Qed.
(** ** build_grn keeps its invariant *)

Lemma count_random_snoc es e :
  count_random (es ++ [e])
  = (count_random es + (if is_random e then 1 else 0))%nat.
Proof.
  unfold count_random. rewrite filter_app, length_app. simpl.
  now destruct (is_random e).
Qed.

Lemma binv_weaken {G} names (k k' : nat) (st : G * Builder) :
  (k <= k')%nat -> binv names k st -> binv names k' st.
Proof. unfold binv. intros Hk (Hm & Hc & Hr). repeat split; auto; lia. Qed.

Section BuildGrnProofs.
Context {G : Type} `{GeneratorLaws G}.
Variable names : list string.
Variable groups : Groups.
Variables n_lineages lineage_tfs_per : nat.
Hypothesis names_nodup : NoDup names.
Hypothesis groups_ok : groups_in_range (length names) groups.

Lemma in_prog i : In i (prog groups) -> (i < length names)%nat.
Proof.
  intros Hi. unfold groups_in_range in groups_ok.
  rewrite Forall_forall in groups_ok. apply groups_ok.
  rewrite !in_app_iff. tauto.
Qed.

Lemma in_lineage i : In i (lineage groups) -> (i < length names)%nat.
Proof.
  intros Hi. unfold groups_in_range in groups_ok.
  rewrite Forall_forall in groups_ok. apply groups_ok.
  rewrite !in_app_iff. tauto.
Qed.

Lemma in_ligand i : In i (ligand groups) -> (i < length names)%nat.
Proof.
  intros Hi. unfold groups_in_range in groups_ok.
  rewrite Forall_forall in groups_ok. apply groups_ok.
  rewrite !in_app_iff. tauto.
Qed.

Lemma in_receptor i : In i (receptor groups) -> (i < length names)%nat.
Proof.
  intros Hi. unfold groups_in_range in groups_ok.
  rewrite Forall_forall in groups_ok. apply groups_ok.
  rewrite !in_app_iff. tauto.
Qed.

Lemma in_target i : In i (target groups) -> (i < length names)%nat.
Proof.
  intros Hi. unfold groups_in_range in groups_ok.
  rewrite Forall_forall in groups_ok. apply groups_ok.
  rewrite !in_app_iff. tauto.
Qed.

Lemma in_block lin_block i :
  In i (block groups lineage_tfs_per lin_block) -> (i < length names)%nat.
Proof. intros Hi. apply in_lineage. eapply in_tf_block, Hi. Qed.

(** [add_edge] succeeds on genes of the catalog and appends one record
    to each list. *)
Lemma add_edge_spec k src dst w label :
  (src < length names)%nat -> (dst < length names)%nat ->
  (if String.eqb label "random"
   then src <> dst /\ -0.05 <= w <= 0.05 else True) ->
  hoare (binv (G := G) names k) (add_edge names src dst w label)
        (fun _ => binv (G := G) names (if String.eqb label "random" then S k else k)).
Proof.
  intros Hs Hd Hl [g b] (Hm & Hc & Hr). simpl in *.
  destruct (nth_error names src) as [s|] eqn:Es;
    [|apply nth_error_None in Es; lia].
  destruct (nth_error names dst) as [t|] eqn:Et;
    [|apply nth_error_None in Et; lia].
  eexists tt, _. split.
  - unfold add_edge. simpl. rewrite Es, Et. reflexivity.
  - unfold binv. simpl. repeat split.
    + now apply mirror_snoc.
    + rewrite count_random_snoc. unfold is_random. simpl.
      destruct (String.eqb label "random"); lia.
    + apply Forall_app. split; [assumption|].
      constructor; [|constructor].
      unfold random_ok, is_random. simpl. intros El.
      rewrite El in Hl. destruct Hl as [Hne Hw]. split; [|exact Hw].
      intros ->. apply Hne. eapply nth_error_inj; eassumption.
Qed.

Lemma add_edge_keeps k src dst w label :
  String.eqb label "random" = false ->
  (src < length names)%nat -> (dst < length names)%nat ->
  hoare (binv (G := G) names k) (add_edge names src dst w label) (fun _ => binv (G := G) names k).
Proof.
  intros El Hs Hd.
  pose proof (add_edge_spec k src dst w label Hs Hd) as Hspec.
  rewrite El in Hspec. now apply Hspec.
Qed.

Lemma draw_spec {A} k (op : G -> A * G) (P : A -> Prop) :
  (forall g, P (fst (op g))) ->
  hoare (binv (G := G) names k) (draw op) (fun a st => binv (G := G) names k st /\ P a).
Proof.
  intros HP [g b] Hinv. unfold draw. simpl.
  specialize (HP g). destruct (op g) as [a g'].
  exists a, (g', b). split; [reflexivity|]. split; [exact Hinv | exact HP].
Qed.

Lemma draw_keeps {A} k (op : G -> A * G) :
  hoare (binv (G := G) names k) (draw op) (fun _ => binv (G := G) names k).
Proof.
  eapply hoare_conseq.
  - apply (draw_spec k op (fun _ => True)). auto.
  - auto.
  - simpl. tauto.
Qed.

Lemma prog_edges_keeps :
  hoare (binv (G := G) names 0) (prog_edges names groups) (fun _ => binv (G := G) names 0).
Proof.
  unfold prog_edges.
  apply hoare_for_each. intros i Hi.
  eapply hoare_bind; [apply add_edge_keeps; auto using in_prog|].
  intros ?. apply hoare_for_each. intros j Hj.
  destruct (i =? j)%nat; [apply hoare_ret; auto|].
  eapply hoare_bind; [apply draw_keeps|]. intros r.
  apply add_edge_keeps; auto using in_prog.
Qed.

Lemma prog_to_lineage_edges_keeps :
  hoare (binv (G := G) names 0) (prog_to_lineage_edges names groups) (fun _ => binv (G := G) names 0).
Proof.
  unfold prog_to_lineage_edges.
  apply hoare_for_each. intros l Hl. apply hoare_for_each. intros p Hp.
  apply add_edge_keeps; auto using in_prog, in_lineage.
Qed.

Lemma nth_in_block lin_block i :
  (i < length (block groups lineage_tfs_per lin_block))%nat ->
  (nth i (block groups lineage_tfs_per lin_block) 0 < length names)%nat.
Proof. intros Hi. apply (in_block lin_block). now apply nth_In. Qed.

Lemma lineage_edges_keeps :
  hoare (binv (G := G) names 0) (lineage_edges names groups n_lineages lineage_tfs_per)
        (fun _ => binv (G := G) names 0).
Proof.
  unfold lineage_edges.
  apply hoare_for_each. intros b Hb.
  eapply hoare_bind.
  { apply hoare_for_each. intros tf Htf.
    apply add_edge_keeps; eauto using in_block. }
  intros ?. apply hoare_bind with (Q := fun _ => binv (G := G) names 0).
  { destruct (Nat.eqb_spec (length (block groups lineage_tfs_per b)) 2)
      as [L|L]; [|apply hoare_ret; auto].
    apply hoare_bind with (Q := fun _ => binv (G := G) names 0); [|intros ?];
      apply add_edge_keeps; try reflexivity; apply nth_in_block; lia. }
  intros ?. eapply hoare_bind.
  { apply hoare_for_each. intros tf Htf.
    apply hoare_for_each. intros ob Hob.
    destruct (ob =? b)%nat; [apply hoare_ret; auto|].
    apply hoare_for_each. intros otf Hotf.
    apply add_edge_keeps; eauto using in_block. }
  intros ?. apply hoare_for_each. intros tf Htf.
  apply hoare_for_each. intros p Hp.
  apply add_edge_keeps; eauto using in_block, in_prog.
Qed.

Lemma split_edges_keeps members w label :
  (0 < n_lineages)%nat ->
  (forall i, In i members -> (i < length names)%nat) ->
  String.eqb label "random" = false ->
  hoare (binv (G := G) names 0)
        (split_edges names groups n_lineages lineage_tfs_per
                     members w label)
        (fun _ => binv (G := G) names 0).
Proof.
  intros Hn Hmem Hl. unfold split_edges.
  destruct (array_split_ok members n_lineages Hn) as (splits & E).
  eapply hoare_bind.
  { apply (hoare_lift _ (fun a st => binv (G := G) names 0 st /\ a = splits) _ splits E).
    auto. }
  intros a. apply hoare_conseq
    with (P' := fun st => binv (G := G) names 0 st /\ a = splits)
         (Q' := fun _ => binv (G := G) names 0);
    [|auto|auto].
  intros st [Hinv ->]. revert st Hinv.
  change (hoare (binv (G := G) names 0)
    (for_each (enumerate splits) (fun '(lin_block, subset) =>
       for_each (block groups lineage_tfs_per lin_block) (fun tf =>
         for_each subset (fun tgt => add_edge names tf tgt w label))))
    (fun _ => binv (G := G) names 0)).
  apply hoare_for_each. intros [b sub] Hb.
  apply hoare_for_each. intros tf Htf.
  apply hoare_for_each. intros tgt Htgt.
  apply add_edge_keeps; eauto using in_block.
  apply Hmem. eapply in_array_split; eauto using in_enumerate.
Qed.

Lemma prog_to_receptor_edges_keeps :
  hoare (binv (G := G) names 0) (prog_to_receptor_edges names groups) (fun _ => binv (G := G) names 0).
Proof.
  unfold prog_to_receptor_edges.
  apply hoare_for_each. intros p Hp. apply hoare_for_each. intros r Hr.
  apply add_edge_keeps; auto using in_prog, in_receptor.
Qed.

Lemma structured_edges_keeps :
  (0 < n_lineages)%nat ->
  hoare (binv (G := G) names 0)
        (structured_edges names groups n_lineages lineage_tfs_per)
        (fun _ => binv (G := G) names 0).
Proof.
  intros Hl. unfold structured_edges.
  eapply hoare_bind; [apply prog_edges_keeps|]. intros ?.
  eapply hoare_bind; [apply prog_to_lineage_edges_keeps|]. intros ?.
  eapply hoare_bind; [apply lineage_edges_keeps|]. intros ?.
  eapply hoare_bind;
    [apply split_edges_keeps; auto using in_target|]. intros ?.
  eapply hoare_bind;
    [apply split_edges_keeps; auto using in_ligand|]. intros ?.
  apply prog_to_receptor_edges_keeps.
Qed.

(** One pass of the random-edge loop: a colliding pair leaves the lists
    alone, any other pair appends one record tagged [random]. *)
Lemma random_attempt (c : nat) (g : G) (b : Builder) :
  (0 < length names)%nat -> binv (G := G) names c (g, b) ->
  exists g' b',
    (src <- draw_gene (length names) ;;
     dst <- draw_gene (length names) ;;
     if (src =? dst)%nat then ret tt
     else w <- draw (uniform (-0.05) 0.05) ;;
          add_edge names src dst w "random") (g, b)
    = inr (tt, (g', b'))
    /\ binv (G := G) names (S c) (g', b')
    /\ forall k,
         (count_random (edge_list b') + accepted (length names) k g')%nat
         = (count_random (edge_list b)
            + accepted (length names) (S k) g)%nat.
Proof.
  intros Hn Hinv.
  pose proof (integers_range 0 (length names) g Hn) as Hsrc.
  unfold bind, draw_gene, draw. apply Nat.ltb_lt in Hn as Hb. rewrite Hb.
  simpl accepted. cbn [fst snd].
  destruct (integers 0 (length names) g) as [src g1].
  cbn [fst snd] in *.
  pose proof (integers_range 0 (length names) g1 Hn) as Hdst.
  destruct (integers 0 (length names) g1) as [dst g2].
  cbn [fst snd] in *.
  destruct (Nat.eqb_spec src dst) as [Heq|Hne].
  - exists g2, b. split; [reflexivity|]. split; [|reflexivity].
    apply (binv_weaken names c (S c) (g2, b)); [lia | exact Hinv].
  - cbv beta iota. cbn [fst snd].
    pose proof (uniform_range (-0.05) 0.05 g2 ltac:(lra)) as Hw.
    destruct (uniform (-0.05) 0.05 g2) as [w g3].
    cbn [fst snd] in *.
    destruct (add_edge_spec c src dst w "random") with (s := (g3, b))
      as ([] & [g' b'] & E & Hinv').
    + lia.
    + lia.
    + simpl. split; [exact Hne | lra].
    + exact Hinv.
    + pose proof E as E'. unfold add_edge in E'. cbn [fst snd] in E'.
      destruct (nth_error names src); [|discriminate].
      destruct (nth_error names dst); [|discriminate].
      injection E' as <- <-.
      eexists g3, _. split; [exact E|]. split; [exact Hinv'|].
      intros k. cbn [edge_list]. rewrite count_random_snoc.
      unfold is_random. simpl. lia.
Qed.

(** The random-edge loop adds as many records tagged [random] as there
    are attempts whose pair does not collide. *)
Lemma random_loop_spec (k a c : nat) (g : G) (b : Builder) :
  (0 < length names)%nat -> binv (G := G) names c (g, b) ->
  exists g' b',
    for_each (seq a k) (fun _ : nat =>
      src <- draw_gene (length names) ;;
      dst <- draw_gene (length names) ;;
      if (src =? dst)%nat then ret tt
      else w <- draw (uniform (-0.05) 0.05) ;;
           add_edge names src dst w "random") (g, b)
    = inr (tt, (g', b'))
    /\ binv (G := G) names (c + k) (g', b')
    /\ count_random (edge_list b')
       = (count_random (edge_list b) + accepted (length names) k g)%nat.
Proof.
  intros Hn. revert a c g b.
  induction k as [|k IH]; intros a c g b Hinv.
  - exists g, b. simpl. split; [reflexivity|]. split.
    + now rewrite Nat.add_0_r.
    + lia.
  - destruct (random_attempt c g b Hn Hinv) as (g1 & b1 & E1 & Hinv1 & Hc1).
    destruct (IH (S a) (S c) g1 b1 Hinv1) as (g2 & b2 & E2 & Hinv2 & Hc2).
    exists g2, b2. split; [|split].
    + simpl for_each. unfold bind at 1. rewrite E1. exact E2.
    + now rewrite Nat.add_succ_r.
    + rewrite Hc2. apply Hc1.
Qed.

Lemma accepted_le (k : nat) (g : G) :
  (accepted (length names) k g <= k)%nat.
Proof.
  revert g. induction k as [|k IH]; intros g; simpl; [lia|].
  destruct (integers 0 (length names) g) as [src g1].
  destruct (integers 0 (length names) g1) as [dst g2].
  destruct (src =? dst)%nat.
  - specialize (IH g2). lia.
  - destruct (uniform (-0.05) 0.05 g2) as [w g3]. specialize (IH g3). lia.
Qed.

Lemma by_group_ok hk lig rec tgt prg lin oth :
  exists v, by_group groups (length names) hk lig rec tgt prg lin oth
            = inr v /\ length v = length names.
Proof.
  unfold by_group. unfold groups_in_range in groups_ok.
  rewrite !Forall_app in groups_ok.
  destruct groups_ok as (Hp & Hl & Hli & Hr & Ht & Hh & Ho).
  assert (L0 : length (zeros (length names)) = length names)
    by apply repeat_length.
  destruct (assign_idx_ok (housekeeping groups) hk (zeros (length names)))
    as (v1 & -> & L1); [now rewrite L0|]. rewrite L0 in L1.
  destruct (assign_idx_ok (ligand groups) lig v1)
    as (v2 & -> & L2); [now rewrite L1|]. rewrite L1 in L2.
  destruct (assign_idx_ok (receptor groups) rec v2)
    as (v3 & -> & L3); [now rewrite L2|]. rewrite L2 in L3.
  destruct (assign_idx_ok (target groups) tgt v3)
    as (v4 & -> & L4); [now rewrite L3|]. rewrite L3 in L4.
  destruct (assign_idx_ok (prog groups) prg v4)
    as (v5 & -> & L5); [now rewrite L4|]. rewrite L4 in L5.
  destruct (assign_idx_ok (lineage groups) lin v5)
    as (v6 & -> & L6); [now rewrite L5|]. rewrite L5 in L6.
  destruct (assign_idx_ok (other groups) oth v6)
    as (v7 & -> & L7); [now rewrite L6|]. rewrite L6 in L7.
  eauto.
Qed.

(** [build_grn] returns; the number of its records tagged [random] is
    the number of accepted attempts, counted from the generator state
    [fst st0] that the structured rules leave behind. *)
Lemma run_build_grn_spec (rng : G) :
  (0 < n_lineages)%nat -> (0 < length names)%nat ->
  exists st0 grn rng',
    structured_edges names groups n_lineages lineage_tfs_per
                     (rng, empty_builder) = inr (tt, st0)
    /\ run_build_grn names groups n_lineages lineage_tfs_per rng
       = inr (grn, rng')
    /\ grn_spec names grn
    /\ count_random (edges grn) = accepted (length names) 200 (fst st0).
Proof.
  intros Hl Hn.
  destruct (structured_edges_keeps Hl (rng, empty_builder))
    as ([] & [g0 b0] & E0 & Hinv0).
  { unfold binv. simpl.
    split; [apply mirror_nil | split; [apply Nat.le_refl | constructor]]. }
  destruct (random_loop_spec 200 0 0 g0 b0 Hn Hinv0)
    as (g1 & b1 & E1 & (Hm & _ & Hr) & Hc).
  assert (C0 : count_random (edge_list b0) = 0%nat)
    by (destruct Hinv0 as (_ & Hle & _); simpl in Hle; lia).
  destruct (by_group_ok 0.6 0.2 0.2 0.05 0.05 0.05 0.1) as (vb & Eb & Lb).
  destruct (by_group_ok 0.1 0.2 0.2 0.2 0.3 0.3 0.2) as (vd & Ed & Ld).
  destruct (by_group_ok 0.05 0.06 0.06 0.08 0.1 0.1 0.08)
    as (vn & En & Ln).
  exists (g0, b0).
  eexists _, g1. split; [exact E0|]. split; [|split].
  - unfold run_build_grn, build_grn. unfold bind at 1. rewrite E0.
    unfold bind at 1. unfold random_edges, range. rewrite E1.
    unfold bind, get, lift, ret. rewrite Eb, Ed, En. reflexivity.
  - exists b1. cbn [edges W bias decay noise snd].
    cbn [snd] in Hm, Hr. repeat split; assumption.
  - cbn [edges fst snd]. rewrite Hc, C0. reflexivity.
Qed.
End BuildGrnProofs.
(** ** The catalog and the replayable generator *)

Lemma nodupb_sound (l : list string) : nodupb l = true -> NoDup l.
Proof.
  induction l as [|x t IH]; simpl; intros Hb; constructor.
  - apply andb_prop in Hb as [Hx _]. intros Hin.
    apply negb_true_iff in Hx.
    assert (Hex : existsb (String.eqb x) t = true)
      by (apply existsb_exists; exists x; split;
          [exact Hin | apply String.eqb_refl]).
    congruence.
  - apply andb_prop in Hb as [_ Ht]. now apply IH.
Qed.

Lemma main_gene_names_length : length main_gene_names = 200%nat.
Proof. reflexivity. Qed.

Lemma main_gene_names_nodup : NoDup main_gene_names.
Proof. apply nodupb_sound. vm_compute. reflexivity. Qed.

Lemma main_groups_in_range :
  groups_in_range (length main_gene_names) main_groups.
Proof.
  unfold groups_in_range. apply Forall_forall. intros i Hi.
  apply Nat.ltb_lt. revert i Hi. apply forallb_forall.
  vm_compute. reflexivity.
Qed.

Lemma unit_of_range (h : nat) : 0 <= unit_of h < 1.
Proof.
  unfold unit_of.
  assert (Hm : (h mod 1000 < 1000)%nat) by (apply Nat.mod_upper_bound; lia).
  apply lt_INR in Hm.
  replace (INR 1000) with 1000 in Hm
    by (rewrite INR_IZR_INZ; reflexivity).
  pose proof (pos_INR (h mod 1000)) as Hp.
  split.
  - apply Rmult_le_reg_r with (r := 1000); [lra|].
    unfold Rdiv. rewrite Rmult_assoc, Rinv_l by lra. lra.
  - apply Rmult_lt_reg_r with (r := 1000); [lra|].
    unfold Rdiv. rewrite Rmult_assoc, Rinv_l by lra. lra.
Qed.

Lemma length_pops (n : nat) (tape : list nat) :
  length (fst (pops n tape)) = n.
Proof.
  revert tape. induction n as [|n IH]; intros tape; simpl; [reflexivity|].
  destruct (pop tape) as [h t]. specialize (IH t).
  destruct (pops n t) as [hs t']. simpl in *. now rewrite IH.
Qed.

Lemma tape_laws : GeneratorLaws (list nat).
Proof.
  constructor.
  - intros lo hi g Hlt. simpl. destruct (pop g) as [h t]. simpl.
    assert ((h mod (hi - lo) < hi - lo)%nat)
      by (apply Nat.mod_upper_bound; lia).
    lia.
  - intros a b g Hlt. simpl. destruct (pop g) as [h t]. simpl.
    pose proof (unit_of_range h). nra.
  - intros alpha g. simpl.
    pose proof (length_pops (length alpha) g) as L.
    destruct (pops (length alpha) g) as [hs t]. simpl in *.
    now rewrite !length_map.
Qed.

(** ** C4 and C2: the edge list and the adjacency matrix *)

(** C4. On a catalog of distinct gene names whose groups lie in range,
    [build_grn] returns, and every entry of the adjacency matrix, stored
    at (target, source), equals the sum of the weights of all edges of the
    edge list from that source to that target: duplicated pairs
    accumulate. *)
Theorem adjacency_accumulates_duplicates :
  forall (G : Type) (Gen : Generator G) (Laws : GeneratorLaws G)
         (names : list string) (groups : Groups)
         (n_lineages lineage_tfs_per : nat) (rng : G),
    NoDup names ->
    groups_in_range (length names) groups ->
    (0 < n_lineages)%nat -> (0 < length names)%nat ->
    exists grn rng',
      run_build_grn names groups n_lineages lineage_tfs_per rng
      = inr (grn, rng')
      /\ forall s t, (s < length names)%nat -> (t < length names)%nat ->
           nth s (nth t (W grn) []) 0
           = edge_sum (edges grn) (nth s names EmptyString)
                      (nth t names EmptyString).
Proof.
  intros G Gen Laws names groups nl per rng Hnd Hg Hl Hn.
  destruct (run_build_grn_spec names groups nl per Hnd Hg rng Hl Hn)
    as (_ & grn & rng' & _ & E & (b & Hm & HW & _) & _).
  exists grn, rng'. split; [exact E|].
  intros s t Hs Ht. rewrite HW, csr_matrix_entry by assumption.
  apply (coo_entry_edge_sum names); try assumption.
  - now apply nth_error_nth'.
  - now apply nth_error_nth'.
Qed.

Lemma adjacency_accumulates_duplicates_witness :
  exists grn rng',
    run_build_grn main_gene_names main_groups main_n_lineages
                  main_lineage_tfs_per tape_duplicate = inr (grn, rng')
    /\ forall s t, (s < length main_gene_names)%nat ->
                   (t < length main_gene_names)%nat ->
         nth s (nth t (W grn) []) 0
         = edge_sum (edges grn) (nth s main_gene_names EmptyString)
                    (nth t main_gene_names EmptyString).
Proof.
  apply (adjacency_accumulates_duplicates (list nat) TapeGenerator tape_laws).
  - exact main_gene_names_nodup.
  - exact main_groups_in_range.
  - unfold main_n_lineages. lia.
  - rewrite main_gene_names_length. lia.
Defined.

(** C2, as the code has it. [build_grn] returns; it makes 200 attempts at
    a random edge, and the number of edges tagged [random] is the number
    of attempts whose drawn source and target differ (replayed from the
    generator state left by the structured rules), hence at most 200;
    each such edge joins two distinct genes and weighs between -0.05 and
    0.05. *)
Theorem random_edges_count_accepted_attempts :
  forall (G : Type) (Gen : Generator G) (Laws : GeneratorLaws G)
         (names : list string) (groups : Groups)
         (n_lineages lineage_tfs_per : nat) (rng : G),
    NoDup names ->
    groups_in_range (length names) groups ->
    (0 < n_lineages)%nat -> (0 < length names)%nat ->
    exists st0 grn rng',
      structured_edges names groups n_lineages lineage_tfs_per
                       (rng, empty_builder) = inr (tt, st0)
      /\ run_build_grn names groups n_lineages lineage_tfs_per rng
         = inr (grn, rng')
      /\ count_random (edges grn) = accepted (length names) 200 (fst st0)
      /\ (count_random (edges grn) <= 200)%nat
      /\ Forall (fun e => is_random e = true ->
                          source e <> target_ e
                          /\ -0.05 <= weight e <= 0.05) (edges grn).
Proof.
  intros G Gen Laws names groups nl per rng Hnd Hg Hl Hn.
  destruct (run_build_grn_spec names groups nl per Hnd Hg rng Hl Hn)
    as (st0 & grn & rng' & E0 & E & (b & _ & _ & Hr & _) & Hc).
  exists st0, grn, rng'. repeat split; try assumption.
  rewrite Hc. apply accepted_le.
Qed.

Lemma random_edges_count_accepted_attempts_witness :
  exists st0 grn rng',
    structured_edges main_gene_names main_groups main_n_lineages
                     main_lineage_tfs_per (tape_one_collision, empty_builder)
    = inr (tt, st0)
    /\ run_build_grn main_gene_names main_groups main_n_lineages
                     main_lineage_tfs_per tape_one_collision
       = inr (grn, rng')
    /\ count_random (edges grn)
       = accepted (length main_gene_names) 200 (fst st0)
    /\ (count_random (edges grn) <= 200)%nat
    /\ Forall (fun e => is_random e = true ->
                        source e <> target_ e
                        /\ -0.05 <= weight e <= 0.05) (edges grn).
Proof.
  apply (random_edges_count_accepted_attempts (list nat) TapeGenerator
           tape_laws).
  - exact main_gene_names_nodup.
  - exact main_groups_in_range.
  - unfold main_n_lineages. lia.
  - rewrite main_gene_names_length. lia.
Defined.

(** C2, as stated, fails: when one of the 200 iterations draws the same
    gene twice, the iteration is skipped and 199 random edges are added. *)
Lemma random_edges_not_always_200 :
  match run_build_grn main_gene_names main_groups main_n_lineages
                      main_lineage_tfs_per tape_one_collision with
  | inr (grn, _) => count_random (edges grn) = 199%nat
  | inl _ => False
  end.
Proof. lazy. reflexivity. Qed.

(** The scenario of the specification: a random edge of weight 0.03 that
    lands on the weight-0.2 edge from program TF 0 to receptor 36 yields
    the entry 0.23. *)
Example duplicate_edge_adds_up :
  match run_build_grn main_gene_names main_groups main_n_lineages
                      main_lineage_tfs_per tape_duplicate with
  | inr (grn, _) => nth 0 (nth 36 (W grn) []) 0 = 0.23
  | inl _ => False
  end.
Proof.
  lazy -[IZR INR Rplus Rmult Rminus Rdiv Ropp Rinv].
  replace (INR 800) with 800 by (rewrite INR_IZR_INZ; reflexivity).
  lra.
Qed.

(** ** C5: the regulatory input *)

Lemma nth_map_seq {A} (f : nat -> A) (n i : nat) (d : A) :
  (i < n)%nat -> nth i (map f (seq 0 n)) d = f i.
Proof.
  intros Hi.
  rewrite (nth_indep _ d (f 0%nat)) by (rewrite length_map, length_seq; exact Hi).
  rewrite (map_nth f (seq 0 n) 0%nat i). now rewrite seq_nth.
Qed.

Lemma nth_map_default {A B} (f : A -> B) (l : list A) (i : nat)
      (d : A) (d' : B) :
  (i < length l)%nat -> nth i (map f l) d' = f (nth i l d).
Proof.
  intros Hi. rewrite (nth_indep _ d' (f d)) by (now rewrite length_map).
  apply map_nth.
Qed.

Lemma zip_with_map_seq (f : nat -> R) (a : list R) (k : nat) :
  zip_with Rmult a (map f (seq k (length a)))
  = map (fun s => nth (s - k) a 0 * f s) (seq k (length a)).
Proof.
  revert k. induction a as [|x a IH]; intros k; simpl; [reflexivity|].
  rewrite Nat.sub_diag. f_equal.
  rewrite IH. apply map_ext_in. intros s Hs. apply in_seq in Hs.
  replace (s - k)%nat with (S (s - S k)) by lia. reflexivity.
Qed.

Lemma dot_map_seq (f : nat -> R) (a : list R) :
  dot a (map f (seq 0 (length a)))
  = sumR (map (fun s => nth s a 0 * f s) (seq 0 (length a))).
Proof.
  unfold dot. rewrite zip_with_map_seq. f_equal.
  apply map_ext. intros s. now rewrite Nat.sub_0_r.
Qed.

(** Column [g] of the transposed matrix is row [g] of the matrix. *)
Lemma col_transpose (n g : nat) (m : matrix) :
  col g (transpose n m) = map (fun s => nth s (nth g m []) 0) (seq 0 n).
Proof.
  unfold transpose, col. rewrite map_map. apply map_ext. intros s.
  destruct (Nat.lt_ge_cases g (length m)) as [Hg|Hg].
  - now rewrite (nth_map_default _ m g []).
  - rewrite (nth_overflow (map _ m)) by (now rewrite length_map).
    rewrite (nth_overflow m) by exact Hg. now destruct s.
Qed.

Lemma matmul_entry (n c g : nat) (a b : matrix) :
  (c < length a)%nat -> (g < n)%nat ->
  nth g (nth c (matmul n a b) []) 0 = dot (nth c a []) (col g b).
Proof.
  intros Hc Hg. unfold matmul.
  rewrite (nth_map_default _ a c []) by exact Hc.
  now rewrite nth_map_seq.
Qed.

Lemma regulatory_input_entry (grn : GRN) (k n : R) (x : matrix) (c g : nat) :
  (c < length x)%nat -> (g < length (bias grn))%nat ->
  length (nth c x []) = length (bias grn) ->
  nth g (nth c (regulatory_input grn k n x) []) 0
  = sumR (map (fun s => hill (nth s (nth c x []) 0) k n
                        * nth s (nth g (W grn) []) 0)
              (seq 0 (length (bias grn)))).
Proof.
  intros Hc Hg Hrow. unfold regulatory_input.
  rewrite matmul_entry; [|unfold map_mat; now rewrite length_map|exact Hg].
  rewrite col_transpose. unfold map_mat.
  rewrite (nth_map_default _ x c []) by exact Hc.
  set (row := nth c x []) in *.
  assert (L : length (map (fun v => hill v k n) row) = length (bias grn))
    by (now rewrite length_map).
  rewrite <- L at 1. rewrite dot_map_seq, L.
  f_equal. apply map_ext_in. intros s Hs. apply in_seq in Hs.
  f_equal. rewrite (nth_map_default _ row s 0); [reflexivity | lia].
Qed.

Lemma zip_with_nth {A B C} (f : A -> B -> C) (a : list A) (b : list B)
      (i : nat) (da : A) (db : B) (dc : C) :
  (i < length a)%nat -> (i < length b)%nat ->
  nth i (zip_with f a b) dc = f (nth i a da) (nth i b db).
Proof.
  revert b i. induction a as [|x a IH]; intros [|y b] [|i]; simpl;
    try lia; auto.
  intros Ha Hb. apply IH; lia.
Qed.

Lemma length_zip_with {A B C} (f : A -> B -> C) (a : list A) (b : list B) :
  length (zip_with f a b) = Nat.min (length a) (length b).
Proof.
  revert b. induction a as [|x a IH]; intros [|y b]; simpl; auto.
Qed.

(** C5. With the network that [build_grn] returns, the regulatory input
    [h @ W] of the step, at cell [c] and gene [g], is the sum over all
    source genes [s] of [hill(x)[c][s]] times the accumulated weight of the
    edges from [s] to [g]; the drift [f] adds [bias[g] - decay[g] * x[c][g]]
    to it. *)
Theorem regulatory_input_follows_edges :
  forall (G : Type) (Gen : Generator G) (Laws : GeneratorLaws G)
         (names : list string) (groups : Groups)
         (n_lineages lineage_tfs_per : nat) (rng : G),
    NoDup names ->
    groups_in_range (length names) groups ->
    (0 < n_lineages)%nat -> (0 < length names)%nat ->
    exists grn rng',
      run_build_grn names groups n_lineages lineage_tfs_per rng
      = inr (grn, rng')
      /\ forall (x : matrix) (hill_k hill_n : R) (c g : nat),
           (c < length x)%nat -> (g < length names)%nat ->
           length (nth c x []) = length names ->
           let incoming :=
             sumR (map (fun s =>
                          hill (nth s (nth c x []) 0) hill_k hill_n
                          * edge_sum (edges grn) (nth s names EmptyString)
                                     (nth g names EmptyString))
                       (seq 0 (length names))) in
           nth g (nth c (regulatory_input grn hill_k hill_n x) []) 0
           = incoming
           /\ nth g (nth c (drift grn hill_k hill_n x) []) 0
              = incoming + nth g (bias grn) 0
                - nth g (decay grn) 0 * nth g (nth c x []) 0.
Proof.
  intros G Gen Laws names groups nl per rng Hnd Hg Hl Hn.
  destruct (run_build_grn_spec names groups nl per Hnd Hg rng Hl Hn)
    as (_ & grn & rng' & _ & E & (b & Hm & HW & _ & Lb & Ld & _) & _).
  exists grn, rng'. split; [exact E|].
  intros x k n c g Hc Hgn Hrow incoming.
  assert (Hreg : nth g (nth c (regulatory_input grn k n x) []) 0 = incoming).
  { rewrite regulatory_input_entry by (rewrite ?Lb; assumption).
    rewrite Lb. subst incoming. f_equal.
    apply map_ext_in. intros s Hs. apply in_seq in Hs. f_equal.
    rewrite HW, csr_matrix_entry by lia.
    apply (coo_entry_edge_sum names); try assumption;
      apply nth_error_nth'; lia. }
  split; [exact Hreg|].
  assert (Lreg : length (regulatory_input grn k n x) = length x)
    by (unfold regulatory_input, matmul, map_mat; now rewrite !length_map).
  assert (Lrow : length (nth c (regulatory_input grn k n x) [])
                 = length names).
  { unfold regulatory_input, matmul.
    rewrite (nth_map_default _ _ c []) by (unfold map_mat; now rewrite length_map).
    now rewrite length_map, length_seq. }
  unfold drift, mat_zip, mat_row.
  rewrite (zip_with_nth _ _ _ c [] [] [])
    by (rewrite length_map; lia).
  rewrite (nth_map_default _ _ c []) by lia.
  rewrite (nth_map_default _ x c []) by exact Hc.
  rewrite (zip_with_nth _ _ _ g 0 0 0);
    [|rewrite length_zip_with; lia|rewrite length_zip_with; lia].
  rewrite (zip_with_nth _ _ _ g 0 0 0) by lia.
  rewrite (zip_with_nth _ _ _ g 0 0 0) by lia.
  rewrite Hreg. reflexivity.
Qed.

Lemma regulatory_input_follows_edges_witness :
  exists grn rng',
    run_build_grn main_gene_names main_groups main_n_lineages
                  main_lineage_tfs_per tape_duplicate = inr (grn, rng')
    /\ forall (x : matrix) (hill_k hill_n : R) (c g : nat),
         (c < length x)%nat -> (g < length main_gene_names)%nat ->
         length (nth c x []) = length main_gene_names ->
         let incoming :=
           sumR (map (fun s =>
                        hill (nth s (nth c x []) 0) hill_k hill_n
                        * edge_sum (edges grn)
                                   (nth s main_gene_names EmptyString)
                                   (nth g main_gene_names EmptyString))
                     (seq 0 (length main_gene_names))) in
         nth g (nth c (regulatory_input grn hill_k hill_n x) []) 0
         = incoming
         /\ nth g (nth c (drift grn hill_k hill_n x) []) 0
            = incoming + nth g (bias grn) 0
              - nth g (decay grn) 0 * nth g (nth c x []) 0.
Proof.
  apply (regulatory_input_follows_edges (list nat) TapeGenerator tape_laws).
  - exact main_gene_names_nodup.
  - exact main_groups_in_range.
  - unfold main_n_lineages. lia.
  - rewrite main_gene_names_length. lia.
Defined.

(** ** C3: the snapshots stay within bounds *)

Lemma post_ret {S A} (a : A) (Q : A -> Prop) : Q a -> post (@ret S A a) Q.
Proof. intros HQ s a' s' E. injection E as <- _. exact HQ. Qed.

Lemma post_bind {S A B} (m : M S A) (f : A -> M S B)
      (Q : A -> Prop) (R : B -> Prop) :
  post m Q -> (forall a, Q a -> post (f a) R) -> post (bind m f) R.
Proof.
  intros Hm Hf s b s' E. unfold bind in E.
  destruct (m s) as [e|[a s1]] eqn:E1; [discriminate|].
  eapply Hf; [eapply Hm|]; eassumption.
Qed.

Lemma post_lift {S A} (r : exn + A) (Q : A -> Prop) :
  (forall a, r = inr a -> Q a) -> post (@lift S A r) Q.
Proof.
  intros HQ s a s' E. unfold lift in E. destruct r as [e|a0]; [discriminate|].
  injection E as <- _. now apply HQ.
Qed.

Lemma post_any {S A} (m : M S A) : post m (fun _ => True).
Proof. intros s a s' _. exact I. Qed.

Lemma returns_ret {S A} (a : A) (Q : A -> Prop) : Q a -> returns (@ret S A a) Q.
Proof. intros HQ s. exists a, s. auto. Qed.

Lemma returns_bind {S A B} (m : M S A) (f : A -> M S B)
      (Q : A -> Prop) (R : B -> Prop) :
  returns m Q -> (forall a, Q a -> returns (f a) R) -> returns (bind m f) R.
Proof.
  intros Hm Hf s. destruct (Hm s) as (a & s1 & E1 & Ha).
  destruct (Hf a Ha s1) as (b & s2 & E2 & Hb).
  exists b, s2. split; [|exact Hb]. unfold bind. now rewrite E1.
Qed.

Lemma returns_lift {S A} (r : exn + A) (a : A) (Q : A -> Prop) :
  r = inr a -> Q a -> returns (@lift S A r) Q.
Proof. intros -> HQ s. exists a, s. auto. Qed.

Lemma Forall_zip_with {A B C} (f : A -> B -> C)
      (P : A -> Prop) (Q : B -> Prop) (R : C -> Prop)
      (a : list A) (b : list B) :
  (forall x y, P x -> Q y -> R (f x y)) ->
  Forall P a -> Forall Q b -> Forall R (zip_with f a b).
Proof.
  intros Hf Ha. revert b.
  induction Ha as [|x a Hx Ha IH]; intros b Hb; simpl; [constructor|].
  destruct Hb as [|y b Hy Hb]; constructor; auto.
Qed.

Lemma Forall_set_nth {A} (P : A -> Prop) (i : nat) (v : A) (l : list A) :
  P v -> Forall P l -> Forall P (set_nth i v l).
Proof.
  intros Hv Hl. revert i.
  induction Hl as [|h t Hh Ht IH]; intros [|i]; simpl; constructor; auto.
Qed.





Section SimulateProofs.
Context {G : Type} `{Generator G}.

Lemma post_fold_m {A B} (I : B -> Prop) (l : list A) (acc : B)
      (body : B -> A -> M G B) :
  I acc -> (forall acc a, I acc -> post (body acc a) I) ->
  post (fold_m l acc body) I.
Proof.
  intros Hacc Hb. revert acc Hacc.
  induction l as [|a l IH]; intros acc Hacc; simpl.
  - now apply post_ret.
  - eapply post_bind; [now apply Hb|]. intros acc' Hacc'. now apply IH.
Qed.

Lemma returns_fold_seq {B} (I : nat -> B -> Prop) (a n : nat) (acc : B)
      (body : B -> nat -> M G B) :
  I 0%nat acc ->
  (forall i acc, (i < n)%nat -> I i acc ->
                 returns (body acc (a + i)%nat) (I (S i))) ->
  returns (fold_m (seq a n) acc body) (I n).
Proof.
  revert a I acc. induction n as [|n IH]; intros a I acc Hacc Hb; simpl.
  - now apply returns_ret.
  - eapply returns_bind.
    + specialize (Hb 0%nat acc). rewrite Nat.add_0_r in Hb.
      apply Hb; [lia | exact Hacc].
    + intros acc' Hacc'.
      apply (IH (S a) (fun i => I (S i))); [exact Hacc'|].
      intros i acc1 Hi Hacc1. specialize (Hb (S i) acc1).
      rewrite Nat.add_succ_r in Hb. apply Hb; [lia | exact Hacc1].
Qed.

Lemma returns_sample {A} (op : G -> A * G) :
  returns (sample op) (fun _ => True).
Proof.
  intros g. unfold sample. destruct (op g) as [a g'] eqn:E.
  exists a, g'. auto.
Qed.

Variables (n_cells : nat) (timepoints : list R) (dt : R)
          (steps_per_tp : Z) (grn : GRN) (ligand_effects : matrix)
          (groups : Groups) (morphogen : list R)
          (x_max hill_k hill_n : R) (neighbor_mode : string)
          (neighbor_k : Z) (neighbor_mix : R).



End SimulateProofs.

Lemma groups_in_range_each (n : nat) (groups : Groups) :
  groups_in_range n groups ->
  let ok := Forall (fun i => (i < n)%nat) in
  ok (prog groups) /\ ok (lineage groups) /\ ok (ligand groups)
  /\ ok (receptor groups) /\ ok (target groups)
  /\ ok (housekeeping groups) /\ ok (other groups).
Proof.
  unfold groups_in_range. rewrite !Forall_app. tauto.
Qed.

Lemma set_cols_ok (n_genes : nat) (idxs : list nat) (vals x : matrix) :
  Forall (fun i => (i < n_genes)%nat) idxs ->
  exists x', set_cols n_genes idxs vals x = inr x'.
Proof.
  intros Hall. unfold set_cols.
  assert (E : forallb (fun i => (i <? n_genes)%nat) idxs = true).
  { apply forallb_forall. rewrite Forall_forall in Hall.
    intros i Hi. apply Nat.ltb_lt. now apply Hall. }
  rewrite E. eauto.
Qed.

(** The snapshot index stays one ahead of the number of completed
    blocks of [steps_per_tp] steps. *)
Lemma snapshot_index_step (spt n_tp idx i : Z) :
  (0 < spt)%Z -> (i + 1 <= (n_tp - 1) * spt)%Z ->
  ((idx - 1) * spt <= i < idx * spt)%Z ->
  if ((i + 1) mod spt =? 0)%Z
  then (idx < n_tp /\ idx * spt <= i + 1 < (idx + 1) * spt)%Z
  else ((idx - 1) * spt <= i + 1 < idx * spt)%Z.
Proof.
  intros Hspt Htot [Hlo Hhi].
  destruct (Z.eqb_spec ((i + 1) mod spt) 0) as [Hm|Hm].
  - apply Z.mod_divide in Hm; [|lia]. destruct Hm as [q Hq].
    assert (q = idx) by nia. subst q. split; nia.
  - split; [lia|].
    assert (i + 1 <> idx * spt)%Z; [|lia].
    intros Heq. apply Hm. rewrite Heq. apply Z.mod_mul. lia.
Qed.

Section SimulateTotal.
Context {G : Type} `{Generator G}.

Variables (n_cells : nat) (timepoints : list R) (dt : R)
          (steps_per_tp : Z) (grn : GRN) (ligand_effects : matrix)
          (groups : Groups) (morphogen : list R)
          (x_max hill_k hill_n : R) (neighbor_mode : string)
          (neighbor_k : Z) (neighbor_mix : R).

Lemma init_group_returns n_genes idxs loc scale x :
  Forall (fun i => (i < n_genes)%nat) idxs ->
  returns (init_group n_cells n_genes idxs loc scale x) (fun _ => True).
Proof.
  intros Hall. unfold init_group.
  eapply returns_bind; [apply returns_sample|]. intros vals _.
  destruct (set_cols_ok n_genes idxs vals x Hall) as (x' & E).
  now apply (returns_lift _ x').
Qed.

Lemma init_state_returns n_genes :
  groups_in_range n_genes groups ->
  returns (init_state n_cells n_genes groups x_max) (fun _ => True).
Proof.
  intros Hg. apply groups_in_range_each in Hg.
  destruct Hg as (Hp & Hl & Hli & Hr & Ht & Hh & Ho).
  unfold init_state.
  repeat (eapply returns_bind;
          [apply init_group_returns; assumption | intros ? _]).
  now apply returns_ret.
Qed.

Lemma sample_neighbors_returns :
  returns (sample_neighbors neighbor_mode neighbor_k n_cells)
          (fun _ => True).
Proof.
  unfold sample_neighbors.
  destruct (String.eqb neighbor_mode "random"); [|now apply returns_ret].
  destruct ((neighbor_k <=? 0)%Z || (n_cells <=? 1)%nat)%bool;
    [now apply returns_ret|].
  eapply returns_bind; [|intros ? _; now apply returns_ret].
  apply (returns_fold_seq (fun _ _ => True)); [exact I|].
  intros i nb _ _.
  eapply returns_bind; [apply returns_sample|].
  intros ? _. now apply returns_ret.
Qed.

Lemma step_x_returns neighbor_idx x :
  returns (step_x dt grn ligand_effects groups morphogen x_max
                  hill_k hill_n neighbor_idx neighbor_mix x)
          (fun _ => True).
Proof.
  unfold step_x.
  eapply returns_bind; [apply returns_sample|].
  intros ? _. now apply returns_ret.
Qed.

Lemma simulate_sample_returns :
  groups_in_range (length (bias grn)) groups -> timepoints <> [] ->
  returns (simulate_sample n_cells timepoints dt steps_per_tp grn
             ligand_effects groups morphogen x_max hill_k hill_n
             neighbor_mode neighbor_k neighbor_mix)
          (fun _ => True).
Proof.
  intros Hg Htp. unfold simulate_sample.
  assert (Hn : (0 < length timepoints)%nat)
    by (destruct timepoints; [contradiction | simpl; lia]).
  eapply returns_bind; [now apply init_state_returns|]. intros x _.
  eapply returns_bind.
  { unfold set_snapshot. apply Nat.ltb_lt in Hn as ->.
    eapply returns_lift with (Q := fun _ => True); [reflexivity | exact I]. }
  intros snaps _.
  eapply returns_bind; [apply sample_neighbors_returns|]. intros nb _.
  set (n_tp := Z.of_nat (length timepoints)).
  eapply returns_bind; [|intros ? _; now apply returns_ret].
  apply (returns_fold_seq
           (fun i lv =>
              (0 < steps_per_tp ->
               (Z.of_nat (lv_snapshot_idx lv) - 1) * steps_per_tp
               <= Z.of_nat i
               < Z.of_nat (lv_snapshot_idx lv) * steps_per_tp)%Z)).
  - cbn [lv_snapshot_idx]. lia.
  - intros i lv Hi Hinv. cbn [Nat.add].
    assert (Hspt : (0 < steps_per_tp)%Z) by (fold n_tp in Hi; nia).
    assert (Htot : (Z.of_nat i + 1 <= (n_tp - 1) * steps_per_tp)%Z)
      by (fold n_tp in Hi; lia).
    pose proof (snapshot_index_step steps_per_tp n_tp
                  (Z.of_nat (lv_snapshot_idx lv)) (Z.of_nat i)
                  Hspt Htot (Hinv Hspt)) as Hstep.
    eapply returns_bind; [apply step_x_returns|]. intros x' _.
    destruct ((Z.of_nat i + 1) mod steps_per_tp =? 0)%Z.
    + destruct Hstep as [Hidx Hnext].
      eapply returns_bind.
      { unfold set_snapshot.
        assert (E : (lv_snapshot_idx lv <? length timepoints)%nat = true)
          by (apply Nat.ltb_lt; unfold n_tp in Hidx; lia).
        rewrite E.
        eapply returns_lift with (Q := fun _ => True);
          [reflexivity | exact I]. }
      intros s _. apply returns_ret. cbn [lv_snapshot_idx]. intros _. lia.
    + apply returns_ret. cbn [lv_snapshot_idx]. intros _. lia.
Qed.
End SimulateTotal.


Lemma toy_groups_in_range :
  groups_in_range (length (bias toy_grn)) toy_groups.
Proof.
  unfold groups_in_range. simpl. repeat constructor.
Qed.


Lemma toy_conformant :
  conformant toy_grn toy_groups toy_ligand_effects [0; 0.3; 0; 0].
Proof.
  unfold conformant, has_shape. simpl.
  repeat split; try reflexivity; try exact toy_groups_in_range;
    repeat (constructor; try reflexivity; try lra).
Qed.


(** On the four-gene network, two cells and three timepoints, the run
    returns a tensor of two cells, three timepoints and four genes. *)
Example toy_run_shape :
  match toy_run "random" 1 with
  | inr (snapshots, _) =>
      map (map (@length R)) snapshots = [[4; 4; 4]; [4; 4; 4]]%nat
  | inl _ => False
  end.
Proof. lazy. reflexivity. Qed.

(** ** C9: the neighbor-mode fallback *)

Lemma global_ligand_mean_entry (lig_idx : list nat) (x : matrix) (j : nat) :
  (j < length lig_idx)%nat ->
  nth j (global_ligand_mean lig_idx x) 0
  = mean (map (fun row => Rmax (nth (nth j lig_idx 0%nat) row 0) 0) x).
Proof.
  intros Hj. unfold global_ligand_mean, mean_axis0.
  rewrite nth_map_seq by exact Hj. f_equal.
  unfold col, map_mat, take_cols. rewrite !map_map.
  apply map_ext. intros row.
  rewrite (nth_map_default _ _ j 0) by (now rewrite length_map).
  now rewrite (nth_map_default _ lig_idx j 0%nat).
Qed.

(** C9. When neighbor mode is requested with [neighbor_k <= 0] or with at
    most one cell, the neighbor table is [None]: drawing it raises nothing
    and leaves the generator untouched; ligand availability is then the
    population mean of [max(x[:, ligand_genes], 0)]; and the whole run is
    the run of the no-neighbor mode. *)
Theorem neighbor_fallback_is_mean_field :
  forall (G : Type) (Gen : Generator G)
         (n_cells : nat) (timepoints : list R) (dt : R) (steps_per_tp : Z)
         (grn : GRN) (ligand_effects : matrix) (groups : Groups)
         (morphogen : list R) (x_max hill_k hill_n : R)
         (neighbor_k : Z) (neighbor_mix : R) (rng : G),
    (neighbor_k <= 0)%Z \/ (n_cells <= 1)%nat ->
    sample_neighbors "random" neighbor_k n_cells rng = inr (None, rng)
    /\ (forall x : matrix,
           exists v,
             ligand_mean None neighbor_mix (ligand groups) x = Global v
             /\ length v = length (ligand groups)
             /\ forall j, (j < length (ligand groups))%nat ->
                  nth j v 0
                  = mean (map (fun row =>
                                 Rmax (nth (nth j (ligand groups) 0%nat)
                                           row 0) 0) x))
    /\ simulate_sample n_cells timepoints dt steps_per_tp grn ligand_effects
                       groups morphogen x_max hill_k hill_n
                       "random" neighbor_k neighbor_mix rng
       = simulate_sample n_cells timepoints dt steps_per_tp grn
                         ligand_effects groups morphogen x_max hill_k hill_n
                         "none" neighbor_k neighbor_mix rng.
Proof.
  intros G Gen n_cells timepoints dt spt grn le groups morphogen
         x_max k n nk mix rng Hdeg.
  assert (Hb : ((nk <=? 0)%Z || (n_cells <=? 1)%nat)%bool = true).
  { apply orb_true_iff. destruct Hdeg as [Hk|Hc].
    - left. now apply Z.leb_le.
    - right. now apply Nat.leb_le. }
  assert (Hnb : sample_neighbors (G := G) "random" nk n_cells
                = sample_neighbors "none" nk n_cells).
  { unfold sample_neighbors. simpl. now rewrite Hb. }
  split; [|split].
  - unfold sample_neighbors. simpl. rewrite Hb. reflexivity.
  - intros x. exists (global_ligand_mean (ligand groups) x).
    split; [reflexivity|]. split.
    + unfold global_ligand_mean, mean_axis0.
      now rewrite length_map, length_seq.
    + intros j Hj. now apply global_ligand_mean_entry.
  - unfold simulate_sample. now rewrite Hnb.
Qed.

Lemma neighbor_fallback_is_mean_field_witness :
  sample_neighbors "random" 0 2 [7; 250; 999; 4; 31; 600]%nat
  = inr (None, [7; 250; 999; 4; 31; 600]%nat)
  /\ (forall x : matrix,
         exists v,
           ligand_mean None 1 (ligand toy_groups) x = Global v
           /\ length v = length (ligand toy_groups)
           /\ forall j, (j < length (ligand toy_groups))%nat ->
                nth j v 0
                = mean (map (fun row =>
                               Rmax (nth (nth j (ligand toy_groups) 0%nat)
                                         row 0) 0) x))
  /\ toy_run "random" 0 = toy_run "none" 0.
Proof.
  apply (neighbor_fallback_is_mean_field (list nat) TapeGenerator 2
           [0; 2; 4] 1 2 toy_grn toy_ligand_effects toy_groups
           [0; 0.3; 0; 0] 6 1 2 0%Z 1 [7; 250; 999; 4; 31; 600]%nat).
  left. lia.
Defined.

(** ** C7 and C10: lineage labels *)

Lemma fold_max_spec (t : list R) (v : R) :
  let m := fold_left Rmax t v in
  In m (v :: t) /\ Forall (fun w => w <= m) (v :: t).
Proof.
  revert v. induction t as [|w t IH]; intros v; simpl.
  - split; [now left | repeat constructor; lra].
  - destruct (IH (Rmax v w)) as [Hin Hall].
    inversion Hall as [|? ? Hhd Htl]; subst.
    pose proof (Rmax_l v w) as Hl. pose proof (Rmax_r v w) as Hr.
    split.
    + destruct Hin as [Heq|Hin]; [|now right; right].
      rewrite <- Heq. unfold Rmax. destruct (Rle_dec v w); auto.
    + constructor; [lra|]. constructor; [lra | exact Htl].
Qed.

(** [max_list] of a nonempty row is an entry of the row and bounds every
    entry. *)
Lemma max_list_spec (l : list R) :
  l <> [] -> In (max_list l) l /\ Forall (fun w => w <= max_list l) l.
Proof.
  destruct l as [|v t]; [contradiction|]. intros _. apply fold_max_spec.
Qed.

(** [argmax_from] scans the rest of a row, holding the first position of
    the greatest value seen so far. *)
Lemma argmax_from_spec (rest pre : list R) (best_i : nat) (best_v : R) :
  (best_i < length pre)%nat ->
  nth best_i pre 0 = best_v ->
  (forall j, (j < length pre)%nat -> nth j pre 0 <= best_v) ->
  (forall j, (j < best_i)%nat -> nth j pre 0 < best_v) ->
  let full := pre ++ rest in
  let r := argmax_from rest (length pre) best_i best_v in
  (r < length full)%nat
  /\ (forall j, (j < length full)%nat -> nth j full 0 <= nth r full 0)
  /\ (forall j, (j < r)%nat -> nth j full 0 < nth r full 0).
Proof.
  revert pre best_i best_v.
  induction rest as [|v t IH]; intros pre bi bv Hbi Hnth Hle Hlt; simpl.
  - rewrite app_nil_r. rewrite Hnth. auto.
  - replace (pre ++ v :: t) with ((pre ++ [v]) ++ t)
      by (now rewrite <- app_assoc).
    replace (S (length pre)) with (length (pre ++ [v]))
      by (rewrite length_app; simpl; lia).
    destruct (Rlt_dec bv v) as [Hv|Hv].
    + apply IH.
      * rewrite length_app; simpl; lia.
      * now rewrite nth_middle.
      * intros j Hj. rewrite length_app in Hj; simpl in Hj.
        destruct (Nat.eq_dec j (length pre)) as [->|Hne].
        -- rewrite nth_middle. lra.
        -- rewrite app_nth1 by lia. specialize (Hle j ltac:(lia)). lra.
      * intros j Hj. rewrite app_nth1 by lia.
        specialize (Hle j Hj). lra.
    + apply IH.
      * rewrite length_app; simpl; lia.
      * now rewrite app_nth1.
      * intros j Hj. rewrite length_app in Hj; simpl in Hj.
        destruct (Nat.eq_dec j (length pre)) as [->|Hne].
        -- rewrite nth_middle. lra.
        -- rewrite app_nth1 by lia. apply Hle. lia.
      * intros j Hj. rewrite app_nth1 by lia. now apply Hlt.
Qed.

(** [argmax] of a nonempty row is the first position of its maximum. *)
Lemma argmax_spec (l : list R) :
  l <> [] ->
  (argmax l < length l)%nat
  /\ nth (argmax l) l 0 = max_list l
  /\ (forall j, (j < argmax l)%nat -> nth j l 0 < max_list l).
Proof.
  intros Hne. destruct (max_list_spec l Hne) as [Hin Hall].
  destruct l as [|v t]; [contradiction|].
  pose proof (argmax_from_spec t [v] 0 v) as Hspec. simpl in Hspec.
  destruct Hspec as (Hr & Hge & Hfirst); try lia; try reflexivity.
  { intros j Hj. replace j with 0%nat by lia. simpl. lra. }
  fold (argmax (v :: t)) in Hr, Hge, Hfirst.
  assert (Hval : nth (argmax (v :: t)) (v :: t) 0 = max_list (v :: t)).
  { apply Rle_antisym.
    - rewrite Forall_forall in Hall. apply Hall. now apply nth_In.
    - destruct (In_nth _ _ 0 Hin) as (j & Hj & <-). now apply Hge. }
  split; [exact Hr|]. split; [exact Hval|].
  intros j Hj. rewrite <- Hval. now apply Hfirst.
Qed.

Lemma length_lineage_scores {N : NumPy32} lineage_indices n_lineages per row :
  length (lineage_scores lineage_indices n_lineages per row) = n_lineages.
Proof. unfold lineage_scores, range. now rewrite length_map, length_seq. Qed.

Lemma lineage_scores_entry {N : NumPy32} lineage_indices n_lineages per row
      lin_idx :
  (lin_idx < n_lineages)%nat ->
  nth lin_idx (lineage_scores lineage_indices n_lineages per row) 0
  = mean32 (map (fun j => nth j row 0)
                (tf_block lineage_indices per lin_idx)).
Proof. intros Hl. unfold lineage_scores, range. now rewrite nth_map_seq. Qed.

(** with the TF columns in place [assign_lineage] returns the labels and
    the probabilities of the rows *)
Lemma assign_lineage_returns {N : NumPy32} (x : matrix)
      (lineage_indices : list nat) (n_lineages lineage_tfs_per : nat)
      (threshold : R) :
  (0 < n_lineages)%nat ->
  blocks_in_rows x lineage_indices n_lineages lineage_tfs_per ->
  let scores :=
    map (lineage_scores lineage_indices n_lineages lineage_tfs_per) x in
  assign_lineage x lineage_indices n_lineages lineage_tfs_per threshold
  = inr (map (fun s => label_of s threshold) scores, map softmax scores).
Proof.
  intros Hnl Hblocks scores. unfold assign_lineage.
  destruct n_lineages as [|nl']; [lia|]. set (nl := S nl') in *.
  assert (Hcols : forallb (fun lin_idx =>
                     columns_exist x (tf_block lineage_indices
                                               lineage_tfs_per lin_idx))
                          (range nl) = true).
  { apply forallb_forall. intros lin Hlin. apply in_seq in Hlin.
    destruct (Hblocks lin ltac:(lia)) as [_ Hrows].
    unfold columns_exist. apply forallb_forall. intros row Hrow.
    rewrite Forall_forall in Hrows. specialize (Hrows row Hrow).
    apply forallb_forall. intros j Hj. apply Nat.ltb_lt.
    rewrite Forall_forall in Hrows. now apply Hrows. }
  now rewrite Hcols.
Qed.

(** a TF index that no row has as a column raises [IndexError] *)
Lemma assign_lineage_index_error {N : NumPy32} (x : matrix)
      (lineage_indices : list nat) (n_lineages lineage_tfs_per : nat)
      (threshold : R) (lin_idx : nat) :
  (lin_idx < n_lineages)%nat ->
  columns_exist x (tf_block lineage_indices lineage_tfs_per lin_idx)
  = false ->
  assign_lineage x lineage_indices n_lineages lineage_tfs_per threshold
  = inl IndexError.
Proof.
  intros Hlin Hbad. unfold assign_lineage.
  destruct n_lineages as [|nl']; [lia|]. set (nl := S nl') in *.
  destruct (forallb _ (range nl)) eqn:E; [|reflexivity].
  rewrite forallb_forall in E. rewrite E in Hbad; [discriminate|].
  apply in_seq. lia.
Qed.

(** the float32 values of the thresholds used below *)
Lemma f32_one : f32 1 = 1.
Proof.
  unfold f32. rewrite (round_eval 23 (-126) 1 0 8388608).
  - simpl. lra.
  - apply Rabs_bounds_pos; simpl; lra.
  - lia.
  - simpl. lra.
Qed.

Lemma f32_above_one : f32 1.000000000931322574615478515625 = 1.
Proof.
  unfold f32. rewrite (round_eval 23 (-126) _ 0 8388608).
  - simpl. lra.
  - apply Rabs_bounds_pos; simpl; lra.
  - lia.
  - simpl. lra.
Qed.

Lemma f32_default_threshold : f32 1.2 = 10066330 / 8388608.
Proof.
  unfold f32. rewrite (round_eval 23 (-126) 1.2 0 10066330).
  - simpl. lra.
  - apply Rabs_bounds_pos; simpl; lra.
  - lia.
  - simpl. lra.
Qed.

(** a float32 score that is at least the threshold passes the float32
    comparison with it *)
Lemma float32_reaches (t s : R) : is_float32 s -> t <= s -> f32 t <= s.
Proof. intros Hs Hts. apply round_below_grid; [lia | exact Hs | exact Hts]. Qed.

(** the means of the instance [seq32] are float32 values *)
Lemma seq32_is_float32 (l : list R) : is_float32 (sequential_mean32 l).
Proof. unfold is_float32, sequential_mean32, f32. apply round_idem. lia. Qed.

(** C7, as the code has it.  With at least one lineage, each with a TF
    block that is not empty and lies among the columns of [x],
    [assign_lineage] returns one label per row; the label is at most
    [n_lineages], and it is 0 exactly when the greatest of the row's
    lineage scores (each the float32 mean of the row over one lineage's TF
    genes) is strictly below the threshold rounded to float32.  For a
    threshold that float32 does not round down (every float32 value, and
    the default 1.2) that is: exactly when the greatest float32 score is
    strictly below the threshold. *)
Theorem lineage_label_domain :
  forall (N : NumPy32) (x : matrix) (lineage_indices : list nat)
         (n_lineages lineage_tfs_per : nat) (threshold : R),
    x <> [] ->
    (0 < n_lineages)%nat ->
    blocks_in_rows x lineage_indices n_lineages lineage_tfs_per ->
    exists labels probs,
      assign_lineage x lineage_indices n_lineages lineage_tfs_per threshold
      = inr (labels, probs)
      /\ length labels = length x
      /\ forall r, (r < length x)%nat ->
           let scores := lineage_scores lineage_indices n_lineages
                                        lineage_tfs_per (nth r x []) in
           let label := nth r labels 0%nat in
           (forall lin_idx, (lin_idx < n_lineages)%nat ->
              nth lin_idx scores 0
              = mean32 (map (fun j => nth j (nth r x []) 0)
                            (tf_block lineage_indices lineage_tfs_per
                                      lin_idx)))
           /\ In (max_list scores) scores
           /\ Forall (fun s => s <= max_list scores) scores
           /\ (label <= n_lineages)%nat
           /\ (label = 0%nat <-> max_list scores < f32 threshold)
           /\ (threshold <= f32 threshold ->
               is_float32 (max_list scores) ->
               (label = 0%nat <-> max_list scores < threshold)).
Proof.
  intros N x lin nl per thr _ Hnl Hblocks.
  rewrite (assign_lineage_returns x lin nl per thr Hnl Hblocks).
  eexists _, _. split; [reflexivity|]. split; [now rewrite !length_map|].
  intros r Hr. cbv zeta.
  set (scores := lineage_scores lin nl per (nth r x [])).
  set (label := nth r _ 0%nat).
  assert (Hne : scores <> []).
  { intros E. pose proof (length_lineage_scores lin nl per (nth r x [])) as L.
    fold scores in L. rewrite E in L. simpl in L. lia. }
  assert (Hlabel : label = label_of scores thr).
  { subst label scores. rewrite map_map.
    now rewrite (nth_map_default _ x r []). }
  destruct (max_list_spec scores Hne) as [Hin Hall].
  destruct (argmax_spec scores Hne) as (Harg & _).
  assert (L : length scores = nl) by apply length_lineage_scores.
  assert (Hzero : label = 0%nat <-> max_list scores < f32 thr).
  { rewrite Hlabel. unfold label_of.
    destruct (Rlt_dec _ (f32 thr)) as [Hlt|Hge]; [tauto|].
    split; [lia | tauto]. }
  split; [intros l Hl; now apply lineage_scores_entry|].
  split; [exact Hin|]. split; [exact Hall|].
  split.
  { rewrite Hlabel. unfold label_of.
    destruct (Rlt_dec _ (f32 thr)); lia. }
  split; [exact Hzero|].
  intros Hup Hf32. rewrite Hzero. split.
  - intros Hlt. destruct (Rlt_dec (max_list scores) thr) as [H|H];
      [exact H|]. exfalso.
    assert (f32 thr <= max_list scores)
      by (apply float32_reaches; [exact Hf32 | lra]).
    lra.
  - intros Hlt. lra.
Qed.

Lemma toy_lineage_blocks :
  blocks_in_rows [[1.5; 1.5; 0.9; 0.9]; [1.0; 1.0; 1.1; 1.1]]
                 [0; 1; 2; 3]%nat 2 2.
Proof.
  intros [|[|k]] Hk; [| |lia];
    (split; [discriminate | repeat (constructor; try (simpl; lia))]).
Qed.

Lemma lineage_label_domain_witness :
  exists labels probs,
    assign_lineage [[1.5; 1.5; 0.9; 0.9]; [1.0; 1.0; 1.1; 1.1]]
                   [0; 1; 2; 3]%nat 2 2 1.2
    = inr (labels, probs)
    /\ length labels = 2%nat
    /\ forall r, (r < 2)%nat ->
         let scores :=
           lineage_scores [0; 1; 2; 3]%nat 2 2
             (nth r [[1.5; 1.5; 0.9; 0.9]; [1.0; 1.0; 1.1; 1.1]] []) in
         let label := nth r labels 0%nat in
         (forall lin_idx, (lin_idx < 2)%nat ->
            nth lin_idx scores 0
            = mean32 (map (fun j =>
                             nth j (nth r [[1.5; 1.5; 0.9; 0.9];
                                           [1.0; 1.0; 1.1; 1.1]] []) 0)
                          (tf_block [0; 1; 2; 3]%nat 2 lin_idx)))
         /\ In (max_list scores) scores
         /\ Forall (fun s => s <= max_list scores) scores
         /\ (label <= 2)%nat
         /\ (label = 0%nat <-> max_list scores < f32 1.2)
         /\ (1.2 <= f32 1.2 ->
             is_float32 (max_list scores) ->
             (label = 0%nat <-> max_list scores < 1.2)).
Proof.
  apply (lineage_label_domain seq32
           [[1.5; 1.5; 0.9; 0.9]; [1.0; 1.0; 1.1; 1.1]]
           [0; 1; 2; 3]%nat 2 2 1.2).
  - discriminate.
  - lia.
  - exact toy_lineage_blocks.
Defined.

(** C7, as stated, fails.  [max_scores < threshold] compares a float32
    array with a Python float, which NumPy casts to float32: with the
    threshold [1 + 2^-30], which float32 rounds to 1, the row whose one
    score is 1 gets label 1 although its greatest score lies strictly
    below the threshold. *)
Lemma threshold_is_compared_in_float32 :
  (exists probs,
      assign_lineage [[1]] [0%nat] 1 1 1.000000000931322574615478515625
      = inr ([1%nat], probs))
  /\ max_list (lineage_scores [0%nat] 1 1 [1]) = 1
  /\ 1 < 1.000000000931322574615478515625.
Proof.
  assert (Hs : lineage_scores [0%nat] 1 1 [1] = [1]).
  { unfold lineage_scores, range, tf_block, slice. simpl.
    unfold sequential_mean32. simpl.
    replace (0 + 1) with 1 by ring. rewrite f32_one.
    replace (1 / 1) with 1 by field. now rewrite f32_one. }
  split; [|split].
  - eexists. rewrite assign_lineage_returns.
    + cbn [map]. rewrite Hs. f_equal. f_equal. f_equal.
      unfold label_of. cbn [max_list fold_left argmax argmax_from].
      rewrite f32_above_one.
      destruct (Rlt_dec 1 1); [lra | reflexivity].
    + lia.
    + intros [|k] Hk; [|lia].
      split; [discriminate | repeat (constructor; try (simpl; lia))].
  - rewrite Hs. reflexivity.
  - lra.
Qed.

(** C10. Whenever the greatest score of a row reaches the threshold, the
    label is one more than the first lineage index that attains it: the
    score at that index is the maximum and every earlier score is
    strictly smaller, so ties go to the lowest index.  The scores are the
    stored float32 means, and a row reaches the threshold when NumPy's
    float32 comparison says so, as it does for every float32 maximum that
    is at least the threshold. *)
Theorem lineage_ties_lowest_index :
  forall (N : NumPy32) (x : matrix) (lineage_indices : list nat)
         (n_lineages lineage_tfs_per : nat) (threshold : R),
    x <> [] ->
    (0 < n_lineages)%nat ->
    blocks_in_rows x lineage_indices n_lineages lineage_tfs_per ->
    exists labels probs,
      assign_lineage x lineage_indices n_lineages lineage_tfs_per threshold
      = inr (labels, probs)
      /\ forall r, (r < length x)%nat ->
           let scores := lineage_scores lineage_indices n_lineages
                                        lineage_tfs_per (nth r x []) in
           let label := nth r labels 0%nat in
           f32 threshold <= max_list scores
           \/ (is_float32 (max_list scores)
               /\ threshold <= max_list scores) ->
           (1 <= label <= n_lineages)%nat
           /\ nth (label - 1) scores 0 = max_list scores
           /\ forall j, (j < label - 1)%nat ->
                nth j scores 0 < max_list scores.
Proof.
  intros N x lin nl per thr _ Hnl Hblocks.
  rewrite (assign_lineage_returns x lin nl per thr Hnl Hblocks).
  eexists _, _. split; [reflexivity|].
  intros r Hr. cbv zeta.
  set (scores := lineage_scores lin nl per (nth r x [])).
  set (label := nth r _ 0%nat). intros Hreach.
  assert (Hmax : f32 thr <= max_list scores).
  { destruct Hreach as [H|[Hf32 H]]; [exact H|].
    now apply float32_reaches. }
  assert (Hne : scores <> []).
  { intros E. pose proof (length_lineage_scores lin nl per (nth r x [])) as L.
    fold scores in L. rewrite E in L. simpl in L. lia. }
  assert (Hlabel : label = (argmax scores + 1)%nat).
  { subst label. rewrite map_map.
    rewrite (nth_map_default _ x r []) by exact Hr. fold scores.
    unfold label_of. destruct (Rlt_dec (max_list scores) (f32 thr)); [lra|].
    reflexivity. }
  destruct (argmax_spec scores Hne) as (Harg & Hval & Hfirst).
  assert (L : length scores = nl) by apply length_lineage_scores.
  rewrite Hlabel. replace (argmax scores + 1 - 1)%nat with (argmax scores)
    by lia.
  split; [lia|]. split; [exact Hval | exact Hfirst].
Qed.

Lemma tie_blocks :
  blocks_in_rows [[0.5; 0.5; 2; 2; 2; 2]] [0; 1; 2; 3; 4; 5]%nat 3 2.
Proof.
  intros [|[|[|k]]] Hk; [| | |lia];
    (split; [discriminate | repeat (constructor; try (simpl; lia))]).
Qed.

Lemma lineage_ties_lowest_index_witness :
  exists labels probs,
    assign_lineage [[0.5; 0.5; 2; 2; 2; 2]] [0; 1; 2; 3; 4; 5]%nat 3 2 1.2
    = inr (labels, probs)
    /\ forall r, (r < 1)%nat ->
         let scores :=
           lineage_scores [0; 1; 2; 3; 4; 5]%nat 3 2
                          (nth r [[0.5; 0.5; 2; 2; 2; 2]] []) in
         let label := nth r labels 0%nat in
         f32 1.2 <= max_list scores
         \/ (is_float32 (max_list scores) /\ 1.2 <= max_list scores) ->
         (1 <= label <= 3)%nat
         /\ nth (label - 1) scores 0 = max_list scores
         /\ forall j, (j < label - 1)%nat ->
              nth j scores 0 < max_list scores.
Proof.
  apply (lineage_ties_lowest_index seq32 [[0.5; 0.5; 2; 2; 2; 2]]
           [0; 1; 2; 3; 4; 5]%nat 3 2 1.2).
  - discriminate.
  - lia.
  - exact tie_blocks.
Defined.

(** A tie on the stored scores: the blocks [0.5, 0.5], [2, 2] and [2, 2]
    have the float32 means 0.5, 2 and 2, and the label is that of the
    first of the two lineages that share the maximum. *)
Example tie_goes_to_first_lineage :
  exists probs,
    assign_lineage [[0.5; 0.5; 2; 2; 2; 2]] [0; 1; 2; 3; 4; 5]%nat 3 2 1.2
    = inr ([2%nat], probs).
Proof.
  assert (H1 : f32 1 = 1) by exact f32_one.
  assert (Hh : f32 0.5 = 0.5).
  { unfold f32. rewrite (round_eval 23 (-126) _ (-1) 8388608).
    - simpl. lra.
    - apply Rabs_bounds_pos; simpl; lra.
    - lia.
    - simpl. lra. }
  assert (H2 : f32 2 = 2).
  { unfold f32. rewrite (round_eval 23 (-126) _ 1 8388608).
    - simpl. lra.
    - apply Rabs_bounds_pos; simpl; lra.
    - lia.
    - simpl. lra. }
  assert (H4 : f32 4 = 4).
  { unfold f32. rewrite (round_eval 23 (-126) _ 2 8388608).
    - simpl. lra.
    - apply Rabs_bounds_pos; simpl; lra.
    - lia.
    - simpl. lra. }
  assert (Hs : lineage_scores [0; 1; 2; 3; 4; 5]%nat 3 2
                              [0.5; 0.5; 2; 2; 2; 2] = [0.5; 2; 2]).
  { unfold lineage_scores, range, tf_block, slice. simpl.
    unfold sequential_mean32. simpl.
    replace (0 + 0.5) with 0.5 by lra. rewrite Hh.
    replace (0.5 + 0.5) with 1 by lra. rewrite H1.
    replace (1 / (1 + 1)) with 0.5 by lra. rewrite Hh.
    replace (0 + 2) with 2 by lra. rewrite H2.
    replace (2 + 2) with 4 by lra. rewrite H4.
    replace (4 / (1 + 1)) with 2 by lra. now rewrite H2. }
  eexists. rewrite assign_lineage_returns; [|lia|exact tie_blocks].
  cbn [map]. rewrite Hs. f_equal. f_equal. f_equal.
  unfold label_of. cbn [max_list fold_left].
  rewrite f32_default_threshold.
  unfold Rmax. repeat (destruct (Rle_dec _ _); try lra).
  destruct (Rlt_dec _ _); [lra|].
  unfold argmax, argmax_from.
  repeat (destruct (Rlt_dec _ _); try lra).
  reflexivity.
Qed.

(** the label scenarios of the specification, and a tie *)
Example lineage_label_scenarios :
  label_of [1.5; 0.9] 1.2 = 1%nat
  /\ label_of [1.0; 1.1] 1.2 = 0%nat
  /\ label_of [2; 2.5; 2.5] 1.2 = 2%nat.
Proof.
  unfold label_of, max_list, argmax. rewrite f32_default_threshold.
  simpl. unfold Rmax.
  repeat split;
    repeat (match goal with
            | |- context [Rle_dec ?a ?b] => destruct (Rle_dec a b)
            | |- context [Rlt_dec ?a ?b] => destruct (Rlt_dec a b)
            end; simpl; try lra);
    reflexivity.
Qed.

(** ** C1: the morphogen vector *)

Lemma nth_set_nth {A} (i g : nat) (v d : A) (l : list A) :
  (i < length l)%nat ->
  nth g (set_nth i v l) d = if (g =? i)%nat then v else nth g l d.
Proof.
  revert i g. induction l as [|h t IH]; intros [|i] [|g]; simpl; try lia; auto.
  intros Hi. apply IH. lia.
Qed.

Lemma assign_idx_nth (idxs : list nat) (v : R) (vec vec' : list R) (g : nat) :
  assign_idx idxs v vec = inr vec' ->
  (In g idxs -> nth g vec' 0 = v)
  /\ (~ In g idxs -> nth g vec' 0 = nth g vec 0).
Proof.
  revert vec. induction idxs as [|i rest IH]; intros vec E; simpl in *.
  - injection E as <-. tauto.
  - destruct (Nat.ltb_spec i (length vec)) as [Hi|Hi]; [|discriminate].
    destruct (IH _ E) as [Hin Hout].
    split.
    + intros [->|Hg]; [|now apply Hin].
      destruct (in_dec Nat.eq_dec g rest) as [Hr|Hr]; [now apply Hin|].
      rewrite (Hout Hr), nth_set_nth by exact Hi.
      now rewrite Nat.eqb_refl.
    + intros Hg. rewrite Hout by tauto.
      rewrite nth_set_nth by exact Hi.
      destruct (Nat.eqb_spec g i) as [->|]; [tauto | reflexivity].
Qed.

Lemma in_slice_index {A} (a b : nat) (l : list A) (x : A) :
  In x (slice a b l) ->
  exists i, (a <= i < b)%nat /\ nth_error l i = Some x.
Proof.
  unfold slice. intros Hx. apply In_nth_error in Hx as [j Hj].
  rewrite nth_error_firstn in Hj.
  destruct (Nat.ltb_spec j (b - a)) as [Hlt|]; [|discriminate].
  rewrite nth_error_skipn in Hj. exists (a + j)%nat. split; [lia | exact Hj].
Qed.

(** The TF blocks of two different lineages share no gene. *)
Lemma tf_blocks_disjoint (lineage : list nat) (per l l' g : nat) :
  NoDup lineage -> l <> l' ->
  In g (tf_block lineage per l) -> ~ In g (tf_block lineage per l').
Proof.
  unfold tf_block. intros Hnd Hne Hl Hl'.
  apply in_slice_index in Hl as (i & Hi & Ei).
  apply in_slice_index in Hl' as (i' & Hi' & Ei').
  assert (i = i') by (eapply nth_error_inj; eassumption). subst i'.
  apply Hne. nia.
Qed.

Lemma fill_morphogen_spec (lineage : list nat) (per : nat) (scale : R)
      (lineage_bias : list R) (lin_idxs : list nat) (m0 m : list R) :
  NoDup lineage -> NoDup lin_idxs ->
  fill_morphogen lineage per scale lineage_bias lin_idxs m0 = inr m ->
  length m = length m0
  /\ forall g,
       (forall l, In l lin_idxs -> In g (tf_block lineage per l) ->
                  nth g m 0 = scale * nth l lineage_bias 0)
       /\ ((forall l, In l lin_idxs -> ~ In g (tf_block lineage per l)) ->
           nth g m 0 = nth g m0 0).
Proof.
  intros Hnd. revert m0.
  induction lin_idxs as [|l0 rest IH]; intros m0 Hnd' E; simpl in E.
  - injection E as <-. split; [reflexivity|]. intros g. split; [|auto].
    intros l [].
  - destruct (nth_error lineage_bias l0) as [b|] eqn:Eb; [|discriminate].
    destruct (assign_idx (tf_block lineage per l0) (scale * b) m0)
      as [e|m1] eqn:E1; [discriminate|].
    inversion Hnd' as [|? ? Hnotin Hrest]; subst.
    destruct (IH m1 Hrest E) as [Hlen Hm].
    pose proof (assign_idx_ok_length _ _ _ _ E1) as Hlen1.
    split; [congruence|]. intros g.
    destruct (Hm g) as [Hin Hout].
    destruct (assign_idx_nth _ _ _ _ g E1) as [Hin1 Hout1].
    split.
    + intros l [<-|Hl] Hg; [|now apply Hin].
      rewrite Hout.
      * rewrite (Hin1 Hg). f_equal. symmetry.
        now apply nth_error_nth.
      * intros l' Hl'. apply (tf_blocks_disjoint lineage per l0 l' g);
          [exact Hnd | congruence | exact Hg].
    + intros Hnone. rewrite Hout by (intros l Hl; apply Hnone; now right).
      apply Hout1. apply Hnone. now left.
Qed.

Lemma fill_morphogen_ok (lineage : list nat) (per : nat) (scale : R)
      (lineage_bias : list R) (lin_idxs : list nat) (m0 : list R) :
  Forall (fun i => (i < length m0)%nat) lineage ->
  Forall (fun l => (l < length lineage_bias)%nat) lin_idxs ->
  exists m,
    fill_morphogen lineage per scale lineage_bias lin_idxs m0 = inr m.
Proof.
  intros Hlin. revert m0 Hlin.
  induction lin_idxs as [|l0 rest IH]; intros m0 Hlin Hidx; simpl; [eauto|].
  inversion Hidx as [|? ? Hl0 Hrest]; subst.
  destruct (nth_error lineage_bias l0) as [b|] eqn:Eb;
    [|apply nth_error_None in Eb; lia].
  destruct (assign_idx_ok (tf_block lineage per l0) (scale * b) m0)
    as (m1 & E1 & L1).
  { rewrite Forall_forall in *. intros i Hi.
    apply Hlin. eapply in_tf_block, Hi. }
  rewrite E1. apply IH; [|exact Hrest]. now rewrite L1.
Qed.

Lemma in_some_block_dec (lineage : list nat) (per g : nat)
      (lin_idxs : list nat) :
  (exists l, In l lin_idxs /\ In g (tf_block lineage per l))
  \/ (forall l, In l lin_idxs -> ~ In g (tf_block lineage per l)).
Proof.
  induction lin_idxs as [|l0 rest [(l & Hl & Hg)|Hnone]].
  - right. intros l [].
  - left. exists l. split; [now right | exact Hg].
  - destruct (in_dec Nat.eq_dec g (tf_block lineage per l0)) as [Hg|Hg].
    + left. exists l0. split; [now left | exact Hg].
    + right. intros l [<-|Hl]; [exact Hg | now apply Hnone].
Qed.

(** What the morphogen loop computes from a drawn [lineage_bias]. *)
Lemma make_morphogen_spec (n_genes : nat) (groups : Groups)
      (n_lineages per : nat) (scale : R) (lineage_bias : list R) :
  NoDup (lineage groups) ->
  Forall (fun i => (i < n_genes)%nat) (lineage groups) ->
  length lineage_bias = n_lineages ->
  exists m,
    make_morphogen n_genes groups n_lineages per scale lineage_bias = inr m
    /\ length m = n_genes
    /\ (forall g, nth g m 0 <> 0 -> In g (lineage groups))
    /\ (forall l g, (l < n_lineages)%nat ->
                    In g (tf_block (lineage groups) per l) ->
                    nth g m 0 = scale * nth l lineage_bias 0).
Proof.
  intros Hnd Hlin Hlen. unfold make_morphogen.
  assert (L0 : length (zeros n_genes) = n_genes) by apply repeat_length.
  destruct (fill_morphogen_ok (lineage groups) per scale lineage_bias
              (range n_lineages) (zeros n_genes)) as (m & E).
  { now rewrite L0. }
  { apply Forall_forall. intros l Hl. apply in_seq in Hl. lia. }
  destruct (fill_morphogen_spec _ _ _ _ _ _ _ Hnd (seq_NoDup n_lineages 0) E)
    as [Lm Hm].
  exists m. split; [exact E|]. split; [congruence|]. split.
  - intros g Hg.
    destruct (in_some_block_dec (lineage groups) per g (range n_lineages))
      as [(l & _ & Hin)|Hnone].
    + eapply in_tf_block, Hin.
    + exfalso. apply Hg. rewrite (proj2 (Hm g) Hnone).
      unfold zeros. destruct (Nat.lt_ge_cases g n_genes).
      * now apply nth_repeat_lt.
      * apply nth_overflow. now rewrite repeat_length.
  - intros l g Hl Hg. apply (proj1 (Hm g)); [|exact Hg].
    apply in_seq. lia.
Qed.

(** C1, as the code has it. For every sample the morphogen vector is
    returned with one entry per gene; it is nonzero only on lineage-TF
    genes, and on the TF block of each lineage [l] it equals
    [morphogen_scale * lineage_bias[l]], for every lineage of the sample's
    Dirichlet draw. *)
Theorem morphogen_on_every_lineage_block :
  forall (G : Type) (Gen : Generator G) (Laws : GeneratorLaws G)
         (n_genes : nat) (groups : Groups) (n_lineages lineage_tfs_per : nat)
         (morphogen_scale : R) (rng : G),
    NoDup (lineage groups) ->
    Forall (fun i => (i < n_genes)%nat) (lineage groups) ->
    exists morphogen rng',
      sample_morphogen n_genes groups n_lineages lineage_tfs_per
                       morphogen_scale rng = inr (morphogen, rng')
      /\ length morphogen = n_genes
      /\ (forall g, nth g morphogen 0 <> 0 -> In g (lineage groups))
      /\ (forall l g,
             (l < n_lineages)%nat ->
             In g (tf_block (lineage groups) lineage_tfs_per l) ->
             nth g morphogen 0
             = morphogen_scale
               * nth l (fst (dirichlet (repeat 1 n_lineages) rng)) 0).
Proof.
  intros G Gen Laws n_genes groups nl per scale rng Hnd Hlin.
  pose proof (dirichlet_length (repeat 1 nl) rng) as Hlen.
  rewrite repeat_length in Hlen.
  destruct (make_morphogen_spec n_genes groups nl per scale
              (fst (dirichlet (repeat 1 nl) rng)) Hnd Hlin Hlen)
    as (m & E & Hm).
  exists m, (snd (dirichlet (repeat 1 nl) rng)). split; [|exact Hm].
  unfold sample_morphogen, bind, sample, lift.
  destruct (dirichlet (repeat 1 nl) rng) as [lb rng']. simpl in *.
  now rewrite E.
Qed.

Lemma main_lineage_nodup : NoDup (lineage main_groups).
Proof.
  apply (NoDup_map_inv (fun i => nth i main_gene_names EmptyString)).
  apply nodupb_sound. vm_compute. reflexivity.
Qed.

Lemma main_lineage_in_range :
  Forall (fun i => (i < 200)%nat) (lineage main_groups).
Proof.
  pose proof main_groups_in_range as Hg.
  apply groups_in_range_each in Hg. now rewrite main_gene_names_length in Hg.
Qed.

Lemma morphogen_on_every_lineage_block_witness :
  exists morphogen rng',
    sample_morphogen 200 main_groups main_n_lineages main_lineage_tfs_per
                     0.6 (@nil nat) = inr (morphogen, rng')
    /\ length morphogen = 200%nat
    /\ (forall g, nth g morphogen 0 <> 0 -> In g (lineage main_groups))
    /\ (forall l g,
           (l < main_n_lineages)%nat ->
           In g (tf_block (lineage main_groups) main_lineage_tfs_per l) ->
           nth g morphogen 0
           = 0.6 * nth l (fst (dirichlet (repeat 1 main_n_lineages)
                                         (@nil nat))) 0).
Proof.
  apply (morphogen_on_every_lineage_block (list nat) TapeGenerator tape_laws).
  - exact main_lineage_nodup.
  - exact main_lineage_in_range.
Defined.

(** C1, as stated, fails: on a draw that weighs the six lineages equally
    the morphogen is 0.1 on gene 4 (lineage 0) and on gene 6 (lineage 1),
    so no single lineage block holds all its nonzero entries. *)
Lemma morphogen_not_on_one_lineage :
  match sample_morphogen 200 main_groups main_n_lineages
                         main_lineage_tfs_per 0.6 (@nil nat) with
  | inr (morphogen, _) =>
      nth 4 morphogen 0 = 0.1 /\ nth 6 morphogen 0 = 0.1
      /\ ~ exists l,
             forall g, nth g morphogen 0 <> 0 ->
                       In g (tf_block (lineage main_groups)
                                      main_lineage_tfs_per l)
  | inl _ => False
  end.
Proof.
  destruct (make_morphogen_spec 200 main_groups main_n_lineages
              main_lineage_tfs_per 0.6
              (fst (dirichlet (repeat 1 main_n_lineages) (@nil nat)))
              main_lineage_nodup main_lineage_in_range)
    as (m & E & _ & _ & Hval).
  { apply (dirichlet_length (GeneratorLaws := tape_laws)). }
  unfold sample_morphogen, bind, sample, lift.
  change (dirichlet (repeat 1 main_n_lineages) (@nil nat))
    with (fst (dirichlet (repeat 1 main_n_lineages) (@nil nat)), @nil nat).
  cbv beta iota. rewrite E.
  assert (H4 : nth 4 m 0 = 0.1).
  { rewrite (Hval 0%nat 4%nat); [|unfold main_n_lineages; lia|now left].
    simpl. lra. }
  assert (H6 : nth 6 m 0 = 0.1).
  { rewrite (Hval 1%nat 6%nat); [|unfold main_n_lineages; lia|now left].
    simpl. lra. }
  split; [exact H4|]. split; [exact H6|].
  intros [l Hl].
  assert (In4 : In 4%nat (tf_block (lineage main_groups)
                                   main_lineage_tfs_per l))
    by (apply Hl; rewrite H4; lra).
  assert (In6 : In 6%nat (tf_block (lineage main_groups)
                                   main_lineage_tfs_per l))
    by (apply Hl; rewrite H6; lra).
  apply in_slice_index in In4 as (i & Hi & Ei).
  apply in_slice_index in In6 as (j & Hj & Ej).
  assert (i = 0%nat)
    by (eapply nth_error_inj; [exact main_lineage_nodup | exact Ei |
                               reflexivity]).
  assert (j = 2%nat)
    by (eapply nth_error_inj; [exact main_lineage_nodup | exact Ej |
                               reflexivity]).
  unfold main_lineage_tfs_per in *. lia.
Qed.

(** ** C8: the step-size check *)

Lemma Int_part_IZR (z : Z) : Int_part (IZR z) = z.
Proof. symmetry. apply Int_part_spec. lra. Qed.

Lemma int_IZR (z : Z) : int (IZR z) = z.
Proof.
  unfold int. destruct (Rle_dec 0 (IZR z)) as [_|_].
  - apply Int_part_IZR.
  - rewrite <- opp_IZR, Int_part_IZR. lia.
Qed.

Lemma int_floor (r : R) (z : Z) :
  0 <= r -> IZR z <= r < IZR z + 1 -> int r = z.
Proof.
  intros Hr Hz. unfold int. destruct (Rle_dec 0 r) as [_|N]; [|lra].
  symmetry. apply Int_part_spec. lra.
Qed.

(** the double nearest to [1e-6] *)
Lemma f64_tolerance :
  f64 1e-6 = 4722366482869645 / 4722366482869645213696.
Proof.
  unfold f64. rewrite (round_eval 52 (-1022) 1e-6 (-20) 4722366482869645).
  - simpl. lra.
  - apply Rabs_bounds_pos; simpl; lra.
  - lia.
  - simpl. lra.
Qed.

(** the test on parsed arguments [h] and [d] that are not zero *)
Lemma check_steps_eval (hours dt : R) (z : Z) :
  f64 hours <> 0 -> f64 dt <> 0 ->
  int (f64 (f64 hours / f64 dt)) = z ->
  check_steps hours dt
  = if Rlt_dec (f64 1e-6)
               (Rabs (f64 (f64 (IZR z * f64 dt) - f64 hours)))
    then inl (ValueError "hours-per-timepoint must be divisible by dt.")
    else inr z.
Proof.
  intros Hh Hd Hint. unfold check_steps.
  destruct (Req_dec_T (f64 hours) 0); [contradiction|].
  destruct (Req_dec_T (f64 dt) 0); [contradiction|].
  now rewrite Hint.
Qed.

(** C8, as the code has it.  Let [h] and [d] be the doubles that the
    arguments are read as, the arguments and the quotient [h / d] being
    inside the double range.  A
    zero [h] or a zero [d] raises [ZeroDivisionError].  Otherwise the run
    raises the configuration error exactly when
    [|int(h / d) * d - h|], every operation rounded to the nearest double,
    exceeds the double [1e-6], and proceeds with
    [steps_per_tp = int(h / d)] when it does not; an [h] that is exactly
    [m * d] for an integer [m] below [2^53] in size proceeds, with [m]
    steps. *)
Theorem check_steps_tolerance :
  forall hours_per_timepoint dt : R,
    let h := f64 hours_per_timepoint in
    let d := f64 dt in
    let steps := int (f64 (h / d)) in
    let off := Rabs (f64 (f64 (IZR steps * d) - h)) in
    Rabs hours_per_timepoint <= 1e300 ->
    Rabs dt <= 1e300 ->
    Rabs (h / d) <= 1e300 ->
    (h = 0 \/ d = 0 ->
     check_steps hours_per_timepoint dt = inl ZeroDivisionError)
    /\ (h <> 0 -> d <> 0 -> f64 1e-6 < off ->
        check_steps hours_per_timepoint dt
        = inl (ValueError "hours-per-timepoint must be divisible by dt."))
    /\ (h <> 0 -> d <> 0 -> off <= f64 1e-6 ->
        check_steps hours_per_timepoint dt = inr steps)
    /\ (forall m : Z,
          h <> 0 -> d <> 0 -> (Z.abs m < 2 ^ 53)%Z -> h = IZR m * d ->
          check_steps hours_per_timepoint dt = inr m).
Proof.
  intros hours dt h d steps off _ _ _.
  assert (Hlt : h <> 0 -> d <> 0 -> f64 1e-6 < off ->
                check_steps hours dt
                = inl (ValueError
                         "hours-per-timepoint must be divisible by dt.")).
  { intros Hh Hd Hoff. rewrite (check_steps_eval hours dt steps Hh Hd eq_refl).
    fold h d off. destruct (Rlt_dec (f64 1e-6) off); [reflexivity | lra]. }
  assert (Hle : h <> 0 -> d <> 0 -> off <= f64 1e-6 ->
                check_steps hours dt = inr steps).
  { intros Hh Hd Hoff. rewrite (check_steps_eval hours dt steps Hh Hd eq_refl).
    fold h d off. destruct (Rlt_dec (f64 1e-6) off); [lra | reflexivity]. }
  split.
  { intros Hz. unfold check_steps. fold h d.
    destruct (Req_dec_T h 0); [reflexivity|].
    destruct (Req_dec_T d 0); [reflexivity|]. tauto. }
  split; [exact Hlt|]. split; [exact Hle|].
  intros m Hh Hd Hm Hz.
  assert (Hsteps : steps = m).
  { subst steps. rewrite Hz.
    replace (IZR m * d / d) with (IZR m) by (field; exact Hd).
    rewrite f64_int by exact Hm. apply int_IZR. }
  rewrite <- Hsteps. apply Hle; [exact Hh | exact Hd |].
  subst off. rewrite Hsteps, <- Hz.
  replace (f64 h) with h by (unfold h, f64; now rewrite round_idem).
  rewrite Rminus_diag. unfold f64 at 1. rewrite round_0, Rabs_R0.
  rewrite f64_tolerance. lra.
Qed.

Lemma f64_two : f64 2 = 2.
Proof. apply (f64_int 2). lia. Qed.

Lemma f64_one : f64 1 = 1.
Proof. apply (f64_int 1). lia. Qed.

Lemma check_steps_tolerance_witness :
  let h := f64 2 in
  let d := f64 1 in
  let steps := int (f64 (h / d)) in
  let off := Rabs (f64 (f64 (IZR steps * d) - h)) in
  Rabs 2 <= 1e300
  /\ Rabs 1 <= 1e300
  /\ Rabs (h / d) <= 1e300
  /\ (h = 0 \/ d = 0 -> check_steps 2 1 = inl ZeroDivisionError)
  /\ (h <> 0 -> d <> 0 -> f64 1e-6 < off ->
      check_steps 2 1
      = inl (ValueError "hours-per-timepoint must be divisible by dt."))
  /\ (h <> 0 -> d <> 0 -> off <= f64 1e-6 -> check_steps 2 1 = inr steps)
  /\ (forall m : Z,
        h <> 0 -> d <> 0 -> (Z.abs m < 2 ^ 53)%Z -> h = IZR m * d ->
        check_steps 2 1 = inr m).
Proof.
  assert (Hh : Rabs 2 <= 1e300) by (rewrite Rabs_pos_eq; lra).
  assert (Hd : Rabs 1 <= 1e300) by (rewrite Rabs_pos_eq; lra).
  assert (H : Rabs (f64 2 / f64 1) <= 1e300).
  { rewrite f64_two, f64_one, Rabs_pos_eq; lra. }
  split; [exact Hh|]. split; [exact Hd|]. split; [exact H|].
  exact (check_steps_tolerance 2 1 Hh Hd H).
Defined.

(** the double [2 + 2^-21] is read as itself *)
Lemma f64_near_two :
  f64 2.000000476837158203125 = 2.000000476837158203125.
Proof.
  unfold f64.
  rewrite (round_eval 52 (-1022) _ 1 4503600701112320).
  - simpl. lra.
  - apply Rabs_bounds_pos; simpl; lra.
  - lia.
  - simpl. lra.
Qed.

(** C8, as stated, fails: the double [2 + 2^-21 = 2.000000476837158...]
    hours per timepoint is no integer multiple of [dt = 1], yet the
    check passes, with two steps. *)
Lemma near_multiple_is_accepted :
  check_steps 2.000000476837158203125 1 = inr 2%Z
  /\ ~ exists z : Z, 2.000000476837158203125 = IZR z * 1.
Proof.
  split.
  - rewrite (check_steps_eval _ _ 2%Z); rewrite ?f64_near_two, ?f64_one.
    + replace (2 * 1) with 2 by ring. rewrite f64_two.
      assert (E : f64 (2 - 2.000000476837158203125)
                  = 2 - 2.000000476837158203125).
      { unfold f64.
        rewrite (round_eval 52 (-1022) _ (-21) (-4503599627370496)).
        - simpl. lra.
        - apply Rabs_bounds_neg; simpl; lra.
        - lia.
        - simpl. lra. }
      rewrite E, f64_tolerance.
      destruct (Rlt_dec _ _) as [Hlt|_]; [|reflexivity].
      exfalso. revert Hlt. unfold Rabs.
      destruct (Rcase_abs (2 - 2.000000476837158203125)); lra.
    + lra.
    + lra.
    + replace (2.000000476837158203125 / 1)
        with 2.000000476837158203125 by field.
      rewrite f64_near_two. apply int_floor; lra.
  - intros [z Hz].
    destruct (Z_le_gt_dec z 2) as [Hle|Hgt].
    + apply IZR_le in Hle. lra.
    + assert (Hge : (3 <= z)%Z) by lia. apply IZR_le in Hge. lra.
Qed.

Lemma f64_three_tenths :
  f64 0.3 = 5404319552844595 / 18014398509481984.
Proof.
  unfold f64. rewrite (round_eval 52 (-1022) 0.3 (-2) 5404319552844595).
  - simpl. lra.
  - apply Rabs_bounds_pos; simpl; lra.
  - lia.
  - simpl. lra.
Qed.

Lemma f64_one_tenth :
  f64 0.1 = 7205759403792794 / 72057594037927936.
Proof.
  unfold f64. rewrite (round_eval 52 (-1022) 0.1 (-4) 7205759403792794).
  - simpl. lra.
  - apply Rabs_bounds_pos; simpl; lra.
  - lia.
  - simpl. lra.
Qed.

(** The decimal values 0.3 and 0.1 are rejected: read as doubles their
    quotient is [2.9999999999999996], which [int] truncates to 2, and
    [2 * 0.1] misses [0.3] by a tenth. *)
Example decimal_multiple_is_rejected :
  check_steps 0.3 0.1
  = inl (ValueError "hours-per-timepoint must be divisible by dt.").
Proof.
  assert (Hq : f64 (f64 0.3 / f64 0.1)
               = 6755399441055743 / 2251799813685248).
  { rewrite f64_three_tenths, f64_one_tenth. unfold f64.
    rewrite (round_eval 52 (-1022) _ 1 6755399441055743).
    - simpl. lra.
    - apply Rabs_bounds_pos; simpl; lra.
    - lia.
    - simpl. lra. }
  rewrite (check_steps_eval _ _ 2%Z).
  - rewrite f64_three_tenths, f64_one_tenth.
    assert (Ep : f64 (2 * (7205759403792794 / 72057594037927936))
                 = 7205759403792794 / 36028797018963968).
    { unfold f64. rewrite (round_eval 52 (-1022) _ (-3) 7205759403792794).
      - simpl. lra.
      - apply Rabs_bounds_pos; simpl; lra.
      - lia.
      - simpl. lra. }
    rewrite Ep.
    assert (Ed : f64 (7205759403792794 / 36028797018963968
                      - 5404319552844595 / 18014398509481984)
                 = - (7205759403792792 / 72057594037927936)).
    { unfold f64.
      rewrite (round_eval 52 (-1022) _ (-4) (-7205759403792792)).
      - simpl. lra.
      - apply Rabs_bounds_neg; simpl; lra.
      - lia.
      - simpl. lra. }
    rewrite Ed, f64_tolerance, Rabs_Ropp, Rabs_pos_eq by lra.
    destruct (Rlt_dec _ _) as [_|N]; [reflexivity|]. exfalso. apply N. lra.
  - rewrite f64_three_tenths. lra.
  - rewrite f64_one_tenth. lra.
  - rewrite Hq. apply int_floor; lra.
Qed.

(** exact multiples pass: 2 hours at [dt = 0.5] gives 4 steps; a step
    size that misses by more than the tolerance is rejected; zero hours
    stop at [np.arange] *)
Example check_steps_scenarios :
  check_steps 2 0.5 = inr 4%Z
  /\ check_steps 2 0.75
     = inl (ValueError "hours-per-timepoint must be divisible by dt.")
  /\ check_steps 0 1 = inl ZeroDivisionError.
Proof.
  assert (Hhalf : f64 0.5 = 0.5).
  { unfold f64. rewrite (round_eval 52 (-1022) _ (-1) 4503599627370496).
    - simpl. lra.
    - apply Rabs_bounds_pos; simpl; lra.
    - lia.
    - simpl. lra. }
  assert (H34 : f64 0.75 = 0.75).
  { unfold f64. rewrite (round_eval 52 (-1022) _ (-1) 6755399441055744).
    - simpl. lra.
    - apply Rabs_bounds_pos; simpl; lra.
    - lia.
    - simpl. lra. }
  assert (H4 : f64 4 = 4) by (apply (f64_int 4); lia).
  assert (H0 : f64 0 = 0) by apply round_0.
  split; [|split].
  - rewrite (check_steps_eval _ _ 4%Z); rewrite ?f64_two, ?Hhalf; try lra.
    + replace (4 * 0.5) with 2 by lra. rewrite f64_two.
      replace (2 - 2) with 0 by lra. rewrite H0, Rabs_R0, f64_tolerance.
      destruct (Rlt_dec _ _) as [Hlt|_]; [lra | reflexivity].
    + replace (2 / 0.5) with 4 by lra. rewrite H4. apply (int_IZR 4).
  - rewrite (check_steps_eval _ _ 2%Z); rewrite ?f64_two, ?H34; try lra.
    + assert (E15 : f64 (2 * 0.75) = 1.5).
      { unfold f64. rewrite (round_eval 52 (-1022) _ 0 6755399441055744).
        - simpl. lra.
        - apply Rabs_bounds_pos; simpl; lra.
        - lia.
        - simpl. lra. }
      rewrite E15. replace (1.5 - 2) with (- 0.5) by lra.
      assert (Em : f64 (- 0.5) = - 0.5).
      { unfold f64. rewrite (round_eval 52 (-1022) _ (-1) (-4503599627370496)).
        - simpl. lra.
        - apply Rabs_bounds_neg; simpl; lra.
        - lia.
        - simpl. lra. }
      rewrite Em, f64_tolerance.
      replace (Rabs (- 0.5)) with 0.5
        by (unfold Rabs; destruct (Rcase_abs (- 0.5)); lra).
      destruct (Rlt_dec _ _) as [_|N]; [reflexivity|]. exfalso. apply N. lra.
    + assert (Eq : f64 (2 / 0.75) = 6004799503160661 / 2251799813685248).
      { unfold f64. rewrite (round_eval 52 (-1022) _ 1 6004799503160661).
        - simpl. lra.
        - apply Rabs_bounds_pos; simpl; lra.
        - lia.
        - simpl. lra. }
      rewrite Eq. apply int_floor; lra.
  - unfold check_steps. rewrite H0.
    destruct (Req_dec_T 0 0); [reflexivity | contradiction].
Qed.

(** ** C6: the Hill function *)

Lemma saturate_lt (c p q : R) :
  0 < c -> 0 <= p < q -> p / (c + p) < q / (c + q).
Proof.
  intros Hc [Hp Hpq].
  apply Rmult_lt_reg_r with (r := (c + p) * (c + q)).
  - apply Rmult_lt_0_compat; lra.
  - field_simplify; try lra. nra.
Qed.

Lemma hill_nonpos (x k n : R) : 0 < n -> x <= 0 -> hill x k n = 0.
Proof.
  intros Hn Hx. unfold hill.
  rewrite Rmax_right by assumption.
  rewrite power_zero_base by lra. unfold Rdiv. ring.
Qed.

Lemma hill_increasing (k n x1 x2 : R) :
  0 <= k -> 0 < n -> 0 <= x1 < x2 -> hill x1 k n < hill x2 k n.
Proof.
  intros Hk Hn [H1 H12]. unfold hill.
  rewrite !Rmax_left by lra.
  pose proof (power_nonneg k n Hk Hn) as Hc.
  pose proof (power_nonneg x1 n H1 Hn) as Hp.
  pose proof (power_lt x1 x2 n Hn (conj H1 H12)) as Hq.
  replace (power k n + power x1 n + 1e-8)
    with ((power k n + 1e-8) + power x1 n) by ring.
  replace (power k n + power x2 n + 1e-8)
    with ((power k n + 1e-8) + power x2 n) by ring.
  apply saturate_lt; lra.
Qed.

Lemma hill_range (x k n : R) : 0 <= k -> 0 < n -> 0 <= hill x k n < 1.
Proof.
  intros Hk Hn. unfold hill.
  pose proof (power_nonneg k n Hk Hn) as Hc.
  assert (Hp : 0 <= power (Rmax x 0) n)
    by (apply power_nonneg; [apply Rmax_r | assumption]).
  set (p := power (Rmax x 0) n) in *. set (c := power k n) in *.
  assert (Hd : 0 < c + p + 1e-8) by lra.
  split.
  - apply Rmult_le_reg_r with (r := c + p + 1e-8); [assumption|].
    unfold Rdiv. rewrite Rmult_assoc, Rinv_l by lra. lra.
  - apply Rmult_lt_reg_r with (r := c + p + 1e-8); [assumption|].
    unfold Rdiv. rewrite Rmult_assoc, Rinv_l by lra. lra.
Qed.

Lemma hill_half (k n : R) :
  0 < k -> hill k k n = power k n / (2 * power k n + 1e-8).
Proof.
  intros Hk. unfold hill. rewrite Rmax_left by lra.
  f_equal. ring.
Qed.

Lemma hill_half_close (k n : R) :
  0 < k -> 1 / 4 <= power k n -> Rabs (hill k k n - 1 / 2) <= 1e-8.
Proof.
  intros Hk Hc. rewrite hill_half by assumption.
  set (c := power k n) in *.
  assert (Hd : 0 < 2 * c + 1e-8) by lra.
  replace (c / (2 * c + 1e-8) - 1 / 2)
    with (- (1e-8 / (2 * (2 * c + 1e-8)))) by (field; lra).
  rewrite Rabs_Ropp, Rabs_pos_eq.
  - apply Rmult_le_reg_r with (r := 2 * (2 * c + 1e-8)); [lra|].
    unfold Rdiv. rewrite Rmult_assoc, Rinv_l by lra. nra.
  - apply Rmult_le_reg_r with (r := 2 * (2 * c + 1e-8)); [lra|].
    unfold Rdiv. rewrite Rmult_assoc, Rinv_l by lra. lra.
Qed.

Lemma hill_monotone (k n x1 x2 : R) :
  0 <= k -> 0 < n -> x1 <= x2 -> hill x1 k n <= hill x2 k n.
Proof.
  intros Hk Hn H12.
  destruct (Rle_dec x1 0) as [H1|H1].
  - rewrite (hill_nonpos x1) by assumption.
    now apply hill_range.
  - destruct H12 as [H12| ->]; [|lra].
    left. apply hill_increasing; lra.
Qed.

(** C6, as the code has it. For [k > 0] and [n > 0], with [k ** n] and
    the powers of the arguments at most [1e30] (inside the range of
    doubles and of float32): [hill(0,k,n) = 0];
    [hill(k,k,n) = k^n / (2 k^n + 1e-8)], which is within 1e-8 of 0.5
    whenever [k^n >= 1/4]; the output is 0 on every nonpositive argument
    and lies in [[0, 1]]; and, the arithmetic read over the reals, the
    output does not decrease when the first argument grows.  (Over the
    reals the increase on positive arguments is strict and 1 is not
    reached; the doubles follow the reals up to rounding in the last
    place, where [hill(6,1,30)] and [hill(7,1,30)] are both 1.0.) *)
Theorem hill_properties :
  forall k n : R,
    0 < k -> 0 < n -> power k n <= 1e30 ->
    hill 0 k n = 0
    /\ hill k k n = power k n / (2 * power k n + 1e-8)
    /\ (1 / 4 <= power k n -> Rabs (hill k k n - 1 / 2) <= 1e-8)
    /\ (forall x1 x2,
          x1 <= x2 -> power (Rmax x2 0) n <= 1e30 ->
          hill x1 k n <= hill x2 k n)
    /\ (forall x, x <= 0 -> hill x k n = 0)
    /\ (forall x, power (Rmax x 0) n <= 1e30 -> 0 <= hill x k n <= 1).
Proof.
  intros k n Hk Hn _.
  split; [apply hill_nonpos; lra|].
  split; [now apply hill_half|].
  split; [now apply hill_half_close|].
  split; [intros x1 x2 Hx _; apply hill_monotone; lra|].
  split; [intros x Hx; now apply hill_nonpos|].
  intros x _. pose proof (hill_range x k n ltac:(lra) Hn). lra.
Qed.

Lemma hill_properties_witness :
  0 < 1 /\ 0 < 2 /\ power 1 2 <= 1e30
  /\ hill 0 1 2 = 0
  /\ hill 1 1 2 = power 1 2 / (2 * power 1 2 + 1e-8)
  /\ (1 / 4 <= power 1 2 -> Rabs (hill 1 1 2 - 1 / 2) <= 1e-8)
  /\ (forall x1 x2,
        x1 <= x2 -> power (Rmax x2 0) 2 <= 1e30 ->
        hill x1 1 2 <= hill x2 1 2)
  /\ (forall x, x <= 0 -> hill x 1 2 = 0)
  /\ (forall x, power (Rmax x 0) 2 <= 1e30 -> 0 <= hill x 1 2 <= 1).
Proof.
  assert (H1 : 0 < 1) by lra. assert (H2 : 0 < 2) by lra.
  assert (H3 : power 1 2 <= 1e30)
    by (rewrite power_sq by lra; lra).
  split; [exact H1|]. split; [exact H2|]. split; [exact H3|].
  exact (hill_properties 1 2 H1 H2 H3).
Defined.

(** C6, as stated, fails twice for [k, n > 0]: the output is flat, not
    increasing, below zero ([hill(-2,1,2) = hill(-1,1,2) = 0]); and for a
    small half-saturation constant [hill(k,k,n)] is far from 0.5
    ([hill(1e-4, 1e-4, 2) = 1/3]). *)
Lemma hill_flat_below_zero_and_low_at_small_k :
  (-2 < -1 /\ ~ hill (-2) 1 2 < hill (-1) 1 2)
  /\ hill (1 / 10000) (1 / 10000) 2 = 1 / 3
  /\ ~ Rabs (hill (1 / 10000) (1 / 10000) 2 - 1 / 2) <= 1e-8.
Proof.
  assert (H3 : hill (1 / 10000) (1 / 10000) 2 = 1 / 3).
  { rewrite hill_half by lra. rewrite power_sq by lra. field. }
  split; [|split; [exact H3|]].
  - split; [lra|]. rewrite !hill_nonpos by lra. lra.
  - rewrite H3. unfold Rabs. destruct (Rcase_abs (1 / 3 - 1 / 2)); lra.
Qed.

(** the Hill values of the specification's scenario, up to the 1e-8 of
    the denominator *)
Example hill_scenarios :
  hill 0 1 2 = 0
  /\ hill 1 1 2 = 1 / (2 + 1e-8)
  /\ hill 2 1 2 = 4 / (5 + 1e-8).
Proof.
  split; [apply hill_nonpos; lra|]. split.
  - rewrite hill_half by lra. rewrite power_sq by lra. field.
  - unfold hill. rewrite Rmax_left by lra. rewrite !power_sq by lra. field.
Qed.


(** In double arithmetic the bound 1 is reached: with [x ** n = 2^60] and
    [k ** n = 1] the sum [k_pow + x_pow + 1e-8] rounds to [2^60], and the
    quotient is exactly 1.  This is why the range above is closed and the
    monotonicity is not strict. *)
Example hill_saturates_in_doubles :
  let x_pow := 1152921504606846976 in
  let k_pow := 1 in
  f64 (x_pow / f64 (f64 (k_pow + x_pow) + f64 1e-8)) = 1.
Proof.
  cbv zeta.
  assert (E1 : f64 (1 + 1152921504606846976) = 1152921504606846976).
  { unfold f64. rewrite (round_eval 52 (-1022) _ 60 4503599627370496).
    - simpl. lra.
    - apply Rabs_bounds_pos; simpl; lra.
    - lia.
    - simpl. lra. }
  assert (E2 : f64 1e-8 = 6044629098073146 / 604462909807314587353088).
  { unfold f64. rewrite (round_eval 52 (-1022) _ (-27) 6044629098073146).
    - simpl. lra.
    - apply Rabs_bounds_pos; simpl; lra.
    - lia.
    - simpl. lra. }
  assert (E3 : f64 (1152921504606846976
                    + 6044629098073146 / 604462909807314587353088)
               = 1152921504606846976).
  { unfold f64. rewrite (round_eval 52 (-1022) _ 60 4503599627370496).
    - simpl. lra.
    - apply Rabs_bounds_pos; simpl; lra.
    - lia.
    - simpl. lra. }
  rewrite E1, E2, E3.
  replace (1152921504606846976 / 1152921504606846976) with 1 by field.
  apply (f64_int 1). lia.
Qed.

(** ** Further properties: the gene catalog *)

Lemma seq_shift_map (start count : nat) :
  map (fun i => (start + i - 1)%nat) (seq 1 count) = seq start count.
Proof.
  rewrite <- (map_id (seq start count)).
  replace (seq start count) with (map (fun i => (start + i - 1)%nat)
                                      (seq 1 count)); [now rewrite map_id|].
  revert start. induction count as [|c IH]; intros start; [reflexivity|].
  rewrite !seq_S, !map_app, IH. simpl. f_equal. f_equal. lia.
Qed.

(** X1. [add_group] keeps the names it is given, appends [count] new ones
    and returns exactly their positions: the [i]-th returned index looks
    up the name [prefix ++ str (i + 1)], and the returned indices are the
    [count] consecutive positions that follow the old names. *)
Theorem add_group_returns_new_positions :
  forall (prefix : string) (count : nat) (names : list string),
    let names' := fst (add_group prefix count names) in
    let idxs := snd (add_group prefix count names) in
    idxs = seq (length names) count
    /\ length names' = (length names + count)%nat
    /\ firstn (length names) names' = names
    /\ forall i, (i < count)%nat ->
         nth_error names' (nth i idxs 0%nat)
         = Some (prefix ++ str (i + 1))%string.
Proof.
  intros prefix count names. unfold add_group. cbn [fst snd].
  rewrite seq_shift_map.
  split; [reflexivity|]. split.
  { now rewrite length_app, length_map, length_seq. }
  split.
  { rewrite firstn_app, Nat.sub_diag, firstn_all. simpl.
    now rewrite app_nil_r. }
  intros i Hi. rewrite seq_nth by exact Hi.
  rewrite nth_error_app2 by lia.
  replace (length names + i - length names)%nat with i by lia.
  rewrite nth_error_map, nth_error_nth' with (d := 0%nat)
    by (now rewrite length_seq).
  rewrite seq_nth by exact Hi. simpl. do 3 f_equal. lia.
Qed.

Lemma add_group_returns_new_positions_witness :
  let names' := fst (add_group "LIG_" 2 ["TF_1"%string]) in
  let idxs := snd (add_group "LIG_" 2 ["TF_1"%string]) in
  idxs = seq (length ["TF_1"%string]) 2
  /\ length names' = (length ["TF_1"%string] + 2)%nat
  /\ firstn (length ["TF_1"%string]) names' = ["TF_1"%string]
  /\ forall i, (i < 2)%nat ->
       nth_error names' (nth i idxs 0%nat)
       = Some ("LIG_" ++ str (i + 1))%string.
Proof.
  exact (add_group_returns_new_positions "LIG_" 2 ["TF_1"%string]).
Defined.

(** X2. The catalog of [build_gene_names] holds 200 pairwise distinct
    names, and its seven groups, taken in the order program, lineage,
    ligand, receptor, target, housekeeping, other, are the consecutive
    index ranges that make up [0 .. 199]: the groups are disjoint and
    cover every gene. *)
Theorem gene_groups_partition_catalog :
  length main_gene_names = 200%nat
  /\ NoDup main_gene_names
  /\ prog main_groups ++ lineage main_groups ++ ligand main_groups
     ++ receptor main_groups ++ target main_groups
     ++ housekeeping main_groups ++ other main_groups
     = seq 0 200.
Proof.
  split; [reflexivity|]. split; [exact main_gene_names_nodup|].
  vm_compute. reflexivity.
Qed.

(** ** Further properties: np.array_split as used by build_grn *)

Lemma firstn_plus {A} (a b : nat) (l : list A) :
  firstn (a + b) l = firstn a l ++ firstn b (skipn a l).
Proof.
  revert l. induction a as [|a IH]; intros [|h t]; simpl;
    rewrite ?firstn_nil; try reflexivity.
  now rewrite IH.
Qed.

Lemma split_sizes_concat {A} (sizes : list nat) (l : list A) :
  concat (split_sizes l sizes) = firstn (list_sum sizes) l.
Proof.
  revert l. induction sizes as [|s ss IH]; intros l; simpl; [reflexivity|].
  now rewrite IH, firstn_plus.
Qed.

Lemma split_sizes_lengths {A} (sizes : list nat) (l : list A) :
  (list_sum sizes <= length l)%nat ->
  map (@length A) (split_sizes l sizes) = sizes.
Proof.
  revert l. induction sizes as [|s ss IH]; intros l Hl; simpl in *;
    [reflexivity|].
  rewrite length_firstn, Nat.min_l by lia. f_equal.
  apply IH. rewrite length_skipn. lia.
Qed.

Lemma list_sum_repeat (v n : nat) : list_sum (repeat v n) = (v * n)%nat.
Proof. induction n as [|n IH]; simpl; lia. Qed.

(** X3. [np.array_split(l, n)] with [n > 0], which deals the target and
    the ligand genes to the lineages, returns [n] consecutive sections
    that concatenate back to [l]; section [i] holds [len // n + 1] items
    when [i < len % n] and [len // n] items otherwise. *)
Theorem array_split_partitions :
  forall (A : Type) (l : list A) (n : nat),
    (0 < n)%nat ->
    exists splits,
      array_split l n = inr splits
      /\ concat splits = l
      /\ length splits = n
      /\ forall i, (i < n)%nat ->
           length (nth i splits [])
           = (length l / n + (if i <? length l mod n then 1 else 0))%nat.
Proof.
  intros A l n Hn. unfold array_split. destruct n as [|n']; [lia|].
  set (n := S n') in *. set (q := (length l / n)%nat).
  set (r := (length l mod n)%nat).
  assert (Hr : (r < n)%nat) by (apply Nat.mod_upper_bound; lia).
  assert (Hdiv : length l = (n * q + r)%nat)
    by (apply Nat.div_mod_eq).
  assert (Hsum : list_sum (repeat (S q) r ++ repeat q (n - r)) = length l).
  { rewrite list_sum_app, !list_sum_repeat. nia. }
  eexists. split; [reflexivity|].
  pose proof (split_sizes_lengths (repeat (S q) r ++ repeat q (n - r)) l
                ltac:(lia)) as Hlen.
  split; [|split].
  - rewrite split_sizes_concat, Hsum. apply firstn_all.
  - rewrite <- (length_map (@length A)), Hlen.
    rewrite length_app, !repeat_length. lia.
  - intros i Hi.
    assert (Li : (i < length (split_sizes l
                               (repeat (S q) r ++ repeat q (n - r))))%nat).
    { rewrite <- (length_map (@length A)), Hlen.
      rewrite length_app, !repeat_length. lia. }
    rewrite <- (nth_map_default (@length A) _ i [] 0%nat) by exact Li.
    rewrite Hlen.
    destruct (Nat.ltb_spec i r) as [Hir|Hir].
    + rewrite app_nth1 by (now rewrite repeat_length).
      rewrite nth_repeat_lt by exact Hir. lia.
    + rewrite app_nth2 by (rewrite repeat_length; lia).
      rewrite repeat_length, nth_repeat_lt by lia. lia.
Qed.

Lemma array_split_partitions_witness :
  exists splits,
    array_split (target main_groups) 6 = inr splits
    /\ concat splits = target main_groups
    /\ length splits = 6%nat
    /\ forall i, (i < 6)%nat ->
         length (nth i splits [])
         = (length (target main_groups) / 6
            + (if i <? length (target main_groups) mod 6 then 1 else 0))%nat.
Proof.
  apply (array_split_partitions nat (target main_groups) 6). lia.
Defined.

(** ** Further properties: build_ligand_receptor_effects *)

Lemma mem_In (g : nat) (l : list nat) : mem g l = true <-> In g l.
Proof.
  unfold mem. rewrite existsb_exists. split.
  - intros (x & Hx & E). apply Nat.eqb_eq in E. now subst.
  - intros Hg. exists g. split; [exact Hg | apply Nat.eqb_refl].
Qed.

Lemma has_shape_row (r c g : nat) (m : matrix) :
  has_shape r c m -> (g < r)%nat -> length (nth g m []) = c.
Proof.
  intros [L Hrows] Hg. rewrite Forall_forall in Hrows.
  apply Hrows, nth_In. lia.
Qed.

Lemma set_entry_spec (n_rows n_cols r c : nat) (v : R) (m : matrix) :
  has_shape n_rows n_cols m -> (r < n_rows)%nat -> (c < n_cols)%nat ->
  exists m',
    set_entry n_rows n_cols r c v m = inr m'
    /\ has_shape n_rows n_cols m'
    /\ forall g q, entry m' g q
                   = if ((g =? r) && (q =? c))%nat%bool then v
                     else entry m g q.
Proof.
  intros Hs Hr Hc. unfold set_entry.
  apply Nat.ltb_lt in Hr as Er. apply Nat.ltb_lt in Hc as Ec.
  rewrite Er, Ec. simpl. eexists. split; [reflexivity|].
  pose proof (has_shape_row _ _ r _ Hs Hr) as Lrow.
  destruct Hs as [L Hrows]. split; [split|].
  - now rewrite length_set_nth.
  - apply Forall_set_nth; [|exact Hrows]. now rewrite length_set_nth.
  - intros g q. unfold entry.
    rewrite nth_set_nth by lia.
    destruct (Nat.eqb_spec g r) as [->|]; [|reflexivity]. simpl.
    rewrite nth_set_nth by lia. reflexivity.
Qed.

Lemma mark_pair_spec (n_rows n_cols : nat) (tfs : list nat) (p : nat)
      (B : matrix) :
  has_shape n_rows n_cols B -> (p < n_cols)%nat ->
  Forall (fun tf => (tf < n_rows)%nat) tfs ->
  exists B',
    mark_pair n_rows n_cols tfs p B = inr B'
    /\ has_shape n_rows n_cols B'
    /\ forall g q, entry B' g q
                   = if (mem g tfs && (q =? p)%nat)%bool then 0.6
                     else entry B g q.
Proof.
  intros Hs Hp Hall. revert B Hs.
  induction Hall as [|tf rest Htf Hrest IH]; intros B Hs; simpl.
  - exists B. repeat split; try apply Hs. 
  - destruct (set_entry_spec n_rows n_cols tf p 0.6 B Hs Htf Hp)
      as (B1 & E1 & Hs1 & H1).
    rewrite E1. destruct (IH B1 Hs1) as (B2 & E2 & Hs2 & H2).
    exists B2. split; [exact E2|]. split; [exact Hs2|].
    intros g q. rewrite H2, H1. unfold mem. simpl.
    destruct (Nat.eqb_spec g tf), (Nat.eqb_spec q p),
      (existsb (Nat.eqb g) rest); reflexivity.
Qed.

Lemma mark_pair_fails (n_rows n_cols : nat) (tfs : list nat) (p : nat)
      (B : matrix) :
  ~ Forall (fun tf => (tf < n_rows)%nat) tfs ->
  mark_pair n_rows n_cols tfs p B = inl IndexError.
Proof.
  revert B. induction tfs as [|tf rest IH]; intros B Hbad; simpl.
  - exfalso. apply Hbad. constructor.
  - unfold set_entry.
    destruct (Nat.ltb_spec tf n_rows) as [Htf|Htf]; [|reflexivity].
    destruct (p <? n_cols)%nat; [|reflexivity]. simpl.
    apply IH. intros Hrest. apply Hbad. now constructor.
Qed.

(** which pairs of the list reach entry [(g, q)] *)
Lemma mark_pairs_spec (n_rows n_cols : nat) (lineage : list nat) (per : nat)
      (pairs : list (nat * nat)) (B : matrix) :
  has_shape n_rows n_cols B ->
  Forall (fun pl => (fst pl < n_cols)%nat
                    /\ Forall (fun tf => (tf < n_rows)%nat)
                              (tf_block lineage per (snd pl))) pairs ->
  exists B',
    mark_pairs n_rows n_cols lineage per pairs B = inr B'
    /\ has_shape n_rows n_cols B'
    /\ forall g q,
         entry B' g q
         = if existsb (fun pl => (mem g (tf_block lineage per (snd pl))
                                  && (q =? fst pl)%nat)%bool) pairs
           then 0.6 else entry B g q.
Proof.
  intros Hs Hall. revert B Hs.
  induction Hall as [|[p lin] rest [Hp Htf] Hrest IH]; intros B Hs; simpl.
  - exists B. repeat split; try apply Hs.
  - simpl in Hp, Htf.
    destruct (mark_pair_spec n_rows n_cols _ p B Hs Hp Htf)
      as (B1 & E1 & Hs1 & H1).
    rewrite E1. destruct (IH B1 Hs1) as (B2 & E2 & Hs2 & H2).
    exists B2. split; [exact E2|]. split; [exact Hs2|].
    intros g q. rewrite H2, H1.
    destruct (mem g (tf_block lineage per lin) && (q =? p)%nat)%bool,
      (existsb _ rest); reflexivity.
Qed.

Lemma mark_pair_error (n_rows n_cols : nat) (tfs : list nat) (p : nat)
      (B : matrix) (e : exn) :
  mark_pair n_rows n_cols tfs p B = inl e -> e = IndexError.
Proof.
  revert B. induction tfs as [|tf rest IH]; intros B; simpl; [discriminate|].
  unfold set_entry. destruct ((tf <? n_rows)%nat && (p <? n_cols)%nat)%bool.
  - apply IH.
  - now intros [= <-].
Qed.

Lemma mark_pairs_fails (n_rows n_cols : nat) (lineage : list nat) (per : nat)
      (pairs : list (nat * nat)) (B : matrix) :
  Exists (fun pl => ~ Forall (fun tf => (tf < n_rows)%nat)
                             (tf_block lineage per (snd pl))) pairs ->
  mark_pairs n_rows n_cols lineage per pairs B = inl IndexError.
Proof.
  intros Hex. revert B.
  induction Hex as [[p lin] rest Hbad|[p lin] rest Hex IH]; intros B; simpl.
  - now rewrite mark_pair_fails.
  - destruct (mark_pair n_rows n_cols (tf_block lineage per lin) p B)
      as [e|B1] eqn:E1.
    + now rewrite (mark_pair_error _ _ _ _ _ _ E1).
    + apply IH.
Qed.

Lemma existsb_enumerate_map (f : nat -> nat) (P : nat -> nat -> bool)
      (a k q : nat) :
  (forall p lin, P p lin = true -> p = q) ->
  existsb (fun pl => P (fst pl) (snd pl))
          (combine (seq a k) (map f (seq a k)))
  = ((a <=? q) && (q <? a + k) && P q (f q))%nat%bool.
Proof.
  intros HP. revert a. induction k as [|k IH]; intros a;
    cbn [seq map combine existsb fst snd].
  - destruct (Nat.leb_spec a q), (Nat.ltb_spec q (a + 0)); cbn [andb];
      try lia; reflexivity.
  - rewrite IH. destruct (Nat.eq_dec a q) as [->|Hne].
    + rewrite Nat.leb_refl.
      destruct (Nat.leb_spec (S q) q); [lia|].
      destruct (Nat.ltb_spec q (q + S k)); [|lia].
      cbn [andb]. now rewrite orb_false_r.
    + destruct (P a (f a)) eqn:Ea; [apply HP in Ea; contradiction|].
      cbn [orb].
      destruct (Nat.leb_spec (S a) q), (Nat.leb_spec a q),
        (Nat.ltb_spec q (S a + k)), (Nat.ltb_spec q (a + S k));
        cbn [andb]; try lia; reflexivity.
Qed.

(** the effect matrix that [build_ligand_receptor_effects] returns *)
Lemma build_effects_entries (names : list string) (groups : Groups)
      (nl per : nat) :
  let n_pairs := Nat.min (length (ligand groups))
                         (length (receptor groups)) in
  let tfs_of p := tf_block (lineage groups) per (np_mod p nl) in
  (forall p, (p < n_pairs)%nat ->
             Forall (fun tf => (tf < length names)%nat) (tfs_of p)) ->
  exists B,
    build_ligand_receptor_effects names groups nl per
    = inr (B, map (fun idx => {| pair_id := idx;
                                 ligand_ := nth idx (ligand groups) 0%nat;
                                 receptor_ := nth idx (receptor groups)
                                                  0%nat |})
                  (range n_pairs))
    /\ has_shape (length names) n_pairs B
    /\ forall g p, (p < n_pairs)%nat ->
         entry B g p = if mem g (tfs_of p) then 0.6 else 0.
Proof.
  intros n_pairs tfs_of Hok.
  unfold build_ligand_receptor_effects. fold n_pairs.
  unfold enumerate. unfold range at 1 2. rewrite length_map, length_seq.
  assert (Hs0 : has_shape (length names) n_pairs
                          (repeat (zeros n_pairs) (length names))).
  { split; [apply repeat_length|].
    apply Forall_forall. intros row ->%repeat_spec. apply repeat_length. }
  destruct (mark_pairs_spec (length names) n_pairs (lineage groups) per
              (combine (seq 0 n_pairs)
                       (map (fun p => np_mod p nl) (seq 0 n_pairs)))
              _ Hs0) as (B & E & Hs & HB).
  { apply Forall_forall. intros [p lin] Hin.
    pose proof (in_combine_l _ _ _ _ Hin) as Hp. apply in_seq in Hp.
    assert (lin = np_mod p nl).
    { clear -Hin. revert Hin. generalize 0%nat.
      induction n_pairs as [|k IH]; intros a; simpl; [tauto|].
      intros [E|Hin]; [now injection E as <- <-|]. now apply (IH (S a)). }
    subst lin. simpl. split; [lia|]. apply Hok. lia. }
  rewrite E. exists B. split; [reflexivity|]. split; [exact Hs|].
  intros g p Hp. rewrite HB.
  rewrite (existsb_enumerate_map (fun p => np_mod p nl)
             (fun p' lin => (mem g (tf_block (lineage groups) per lin)
                             && (p =? p')%nat)%bool) 0 n_pairs p).
  - destruct (Nat.ltb_spec p (0 + n_pairs)); [|lia].
    rewrite Nat.eqb_refl, andb_true_r. simpl.
    fold (tfs_of p). destruct (mem g (tfs_of p)); [reflexivity|].
    unfold entry. destruct (Nat.lt_ge_cases g (length names)).
    + rewrite (nth_indep _ [] (zeros n_pairs))
        by (now rewrite repeat_length).
      rewrite nth_repeat_lt by assumption. unfold zeros.
      now rewrite nth_repeat_lt.
    + rewrite (nth_overflow (repeat _ _)) by (now rewrite repeat_length).
      now destruct p.
  - intros p' lin Hb. apply andb_prop in Hb as [_ Hb].
    apply Nat.eqb_eq in Hb. now subst.
Qed.

(** X4. When the TF block of every lineage that some pair is assigned to
    lies among the gene indices, [build_ligand_receptor_effects] returns:
    pair [p] couples ligand [p] with receptor [p], for every [p] below
    [min(#ligands, #receptors)]; the effect matrix has one row per gene
    and one column per pair; and its entry [(g, p)] is 0.6 when [g] is a
    TF of lineage [p % n_lineages] and 0 otherwise. *)
Theorem ligand_receptor_effects_by_lineage :
  forall (names : list string) (groups : Groups)
         (n_lineages lineage_tfs_per : nat),
    let n_pairs := Nat.min (length (ligand groups))
                           (length (receptor groups)) in
    let tfs_of p :=
      tf_block (lineage groups) lineage_tfs_per (np_mod p n_lineages) in
    (forall p, (p < n_pairs)%nat ->
               Forall (fun tf => (tf < length names)%nat) (tfs_of p)) ->
    exists B pair_map,
      build_ligand_receptor_effects names groups n_lineages lineage_tfs_per
      = inr (B, pair_map)
      /\ has_shape (length names) n_pairs B
      /\ (forall g p, (p < n_pairs)%nat ->
            entry B g p = if mem g (tfs_of p) then 0.6 else 0)
      /\ length pair_map = n_pairs
      /\ forall p, (p < n_pairs)%nat ->
           nth_error pair_map p
           = Some {| pair_id := p;
                     ligand_ := nth p (ligand groups) 0%nat;
                     receptor_ := nth p (receptor groups) 0%nat |}.
Proof.
  intros names groups nl per n_pairs tfs_of Hok.
  destruct (build_effects_entries names groups nl per Hok)
    as (B & E & Hs & HB).
  eexists B, _. split; [exact E|]. split; [exact Hs|].
  split; [exact HB|]. split.
  - unfold range. now rewrite length_map, length_seq.
  - intros p Hp. unfold range. rewrite nth_error_map.
    rewrite (nth_error_nth' _ 0%nat) by (now rewrite length_seq).
    now rewrite seq_nth.
Qed.

Lemma ligand_receptor_effects_by_lineage_witness :
  let n_pairs := Nat.min (length (ligand main_groups))
                         (length (receptor main_groups)) in
  let tfs_of p :=
    tf_block (lineage main_groups) main_lineage_tfs_per
             (np_mod p main_n_lineages) in
  exists B pair_map,
    build_ligand_receptor_effects main_gene_names main_groups
                                  main_n_lineages main_lineage_tfs_per
    = inr (B, pair_map)
    /\ has_shape (length main_gene_names) n_pairs B
    /\ (forall g p, (p < n_pairs)%nat ->
          entry B g p = if mem g (tfs_of p) then 0.6 else 0)
    /\ length pair_map = n_pairs
    /\ forall p, (p < n_pairs)%nat ->
         nth_error pair_map p
         = Some {| pair_id := p;
                   ligand_ := nth p (ligand main_groups) 0%nat;
                   receptor_ := nth p (receptor main_groups) 0%nat |}.
Proof.
  apply (ligand_receptor_effects_by_lineage main_gene_names main_groups
           main_n_lineages main_lineage_tfs_per).
  intros p _. apply Forall_forall. intros tf Htf.
  apply in_tf_block in Htf.
  pose proof main_lineage_in_range as Hr. rewrite Forall_forall in Hr.
  rewrite main_gene_names_length. now apply Hr.
Defined.

(** X5. If some pair is assigned to a lineage whose TF block holds an
    index that is not a gene, [build_ligand_receptor_effects] raises
    [IndexError]. *)
Theorem ligand_receptor_effects_index_error :
  forall (names : list string) (groups : Groups)
         (n_lineages lineage_tfs_per p : nat),
    (p < Nat.min (length (ligand groups)) (length (receptor groups)))%nat ->
    ~ Forall (fun tf => (tf < length names)%nat)
             (tf_block (lineage groups) lineage_tfs_per
                       (np_mod p n_lineages)) ->
    build_ligand_receptor_effects names groups n_lineages lineage_tfs_per
    = inl IndexError.
Proof.
  intros names groups nl per p Hp Hbad.
  unfold build_ligand_receptor_effects, enumerate, range.
  rewrite length_map, length_seq.
  set (n_pairs := Nat.min _ _) in *.
  rewrite mark_pairs_fails; [reflexivity|].
  apply Exists_exists. exists (p, np_mod p nl). split; [|exact Hbad].
    clear Hbad. replace p with (0 + p)%nat at 1 2 by lia.
    revert Hp. generalize 0%nat. generalize p. clear p.
    induction n_pairs as [|k IH]; intros p a Hp; [lia|]. simpl.
    destruct p as [|p]; [left; now rewrite Nat.add_0_r|].
  right. replace (a + S p)%nat with (S a + p)%nat by lia.
  apply IH. lia.
Qed.

Lemma ligand_receptor_effects_index_error_witness :
  build_ligand_receptor_effects
    ["a"; "b"]%string
    {| prog := []; lineage := [0; 5]%nat; ligand := [1%nat];
       receptor := [1%nat]; target := []; housekeeping := [];
       other := [] |} 1 2
  = inl IndexError.
Proof.
  apply (ligand_receptor_effects_index_error _ _ 1 2 0).
  - simpl. lia.
  - simpl. intros Hall. inversion Hall as [|? ? _ Hrest]; subst.
    inversion Hrest as [|? ? H5 _]; subst. simpl in H5. lia.
Defined.

Lemma sumR_zero {A} (f : A -> R) (l : list A) :
  (forall a, In a l -> f a = 0) -> sumR (map f l) = 0.
Proof.
  induction l as [|a l IH]; intros Hf; simpl; [reflexivity|].
  rewrite Hf by (now left). rewrite IH; [lra|].
  intros b Hb. apply Hf. now right.
Qed.

(** X6. With the effect matrix of [build_ligand_receptor_effects], the
    signalling term [signal.dot(ligand_effects.T)] of the update gives gene
    [g] of cell [c] 0.6 times the signal of every pair assigned to a
    lineage that has [g] among its TFs, and nothing else: a gene outside
    the lineage group receives exactly 0. *)
Theorem signal_feeds_only_lineage_tfs :
  forall (names : list string) (groups : Groups)
         (n_lineages lineage_tfs_per : nat),
    let n_pairs := Nat.min (length (ligand groups))
                           (length (receptor groups)) in
    let tfs_of p :=
      tf_block (lineage groups) lineage_tfs_per (np_mod p n_lineages) in
    (0 < length names)%nat ->
    (forall p, (p < n_pairs)%nat ->
               Forall (fun tf => (tf < length names)%nat) (tfs_of p)) ->
    exists B pair_map,
      build_ligand_receptor_effects names groups n_lineages lineage_tfs_per
      = inr (B, pair_map)
      /\ forall (signal : matrix) (c g : nat),
           (c < length signal)%nat -> (g < length names)%nat ->
           length (nth c signal []) = n_pairs ->
           entry (g_signal_of (length names) signal B) c g
           = sumR (map (fun p => if mem g (tfs_of p)
                                 then 0.6 * entry signal c p else 0)
                       (seq 0 n_pairs))
           /\ (~ In g (lineage groups) ->
               entry (g_signal_of (length names) signal B) c g = 0).
Proof.
  intros names groups nl per n_pairs tfs_of Hn Hok.
  destruct (build_effects_entries names groups nl per Hok)
    as (B & E & Hs & HB).
  eexists B, _. split; [exact E|].
  intros signal c g Hc Hg Hrow.
  assert (Hcols : length (hd [] B) = n_pairs).
  { destruct Hs as [L Hrows]. destruct B as [|row B']; simpl in *; [lia|].
    now inversion Hrows. }
  assert (Hentry :
            entry (g_signal_of (length names) signal B) c g
            = sumR (map (fun p => if mem g (tfs_of p)
                                  then 0.6 * entry signal c p else 0)
                        (seq 0 n_pairs))).
  { unfold entry at 1. unfold g_signal_of.
    rewrite matmul_entry by assumption.
    rewrite Hcols, col_transpose. rewrite <- Hrow at 1.
    rewrite dot_map_seq, Hrow. f_equal.
    apply map_ext_in. intros p Hp. apply in_seq in Hp.
    fold (entry B g p). rewrite HB by lia. unfold entry.
    subst tfs_of. cbv beta.
    destruct (mem g (tf_block (lineage groups) per (np_mod p nl))); lra. }
  split; [exact Hentry|].
  intros Hout. rewrite Hentry. apply sumR_zero. intros p _.
  destruct (mem g (tfs_of p)) eqn:Em; [|reflexivity].
  exfalso. apply Hout. apply mem_In in Em. eapply in_tf_block, Em.
Qed.

Lemma signal_feeds_only_lineage_tfs_witness :
  let n_pairs := Nat.min (length (ligand main_groups))
                         (length (receptor main_groups)) in
  let tfs_of p :=
    tf_block (lineage main_groups) main_lineage_tfs_per
             (np_mod p main_n_lineages) in
  exists B pair_map,
    build_ligand_receptor_effects main_gene_names main_groups
                                  main_n_lineages main_lineage_tfs_per
    = inr (B, pair_map)
    /\ forall (signal : matrix) (c g : nat),
         (c < length signal)%nat -> (g < length main_gene_names)%nat ->
         length (nth c signal []) = n_pairs ->
         entry (g_signal_of (length main_gene_names) signal B) c g
         = sumR (map (fun p => if mem g (tfs_of p)
                               then 0.6 * entry signal c p else 0)
                     (seq 0 n_pairs))
         /\ (~ In g (lineage main_groups) ->
             entry (g_signal_of (length main_gene_names) signal B) c g = 0).
Proof.
  apply (signal_feeds_only_lineage_tfs main_gene_names main_groups
           main_n_lineages main_lineage_tfs_per).
  - rewrite main_gene_names_length. lia.
  - intros p _. apply Forall_forall. intros tf Htf.
    apply in_tf_block in Htf.
    pose proof main_lineage_in_range as Hr. rewrite Forall_forall in Hr.
    rewrite main_gene_names_length. now apply Hr.
Defined.

(** [deriv] adds exactly this term to the drift and the morphogen. *)
Lemma deriv_terms (grn : GRN) (ligand_effects : matrix) (groups : Groups)
      (morphogen : list R) (hill_k hill_n : R)
      (neighbor_idx : option (list (list nat))) (neighbor_mix : R)
      (x : matrix) :
  deriv grn ligand_effects groups morphogen hill_k hill_n neighbor_idx
        neighbor_mix x
  = mat_row Rplus
      (mat_zip Rplus (drift grn hill_k hill_n x)
         (g_signal_of (length (bias grn))
            (signal_of (map_mat (fun v => hill v hill_k hill_n)
                                (take_cols (receptor groups) x))
                       (ligand_mean neighbor_idx neighbor_mix
                                    (ligand groups) x))
            ligand_effects))
      morphogen.
Proof. reflexivity. Qed.

(** ** Further properties: the fate probabilities of assign_lineage *)

Lemma sumR_scale (c : R) (l : list R) :
  sumR (map (fun e => e / c) l) = sumR l / c.
Proof.
  induction l as [|a l IH]; simpl; [unfold Rdiv; ring|].
  rewrite IH. unfold Rdiv. ring.
Qed.

Lemma sumR_pos (l : list R) :
  l <> [] -> Forall (fun v => 0 < v) l -> 0 < sumR l.
Proof.
  intros Hne Hall. destruct Hall as [|a l Ha Hl]; [contradiction|]. simpl.
  clear Hne. induction Hl as [|b l Hb Hl IH]; simpl in *; lra.
Qed.

Lemma sumR_ge_member (l : list R) (v : R) :
  Forall (fun w => 0 < w) l -> In v l -> v <= sumR l.
Proof.
  intros Hall. induction Hall as [|a l Ha Hl IH]; simpl; [tauto|].
  intros [->|Hin].
  - destruct l as [|b l']; [simpl; lra|].
    pose proof (sumR_pos (b :: l') ltac:(discriminate) Hl). lra.
  - specialize (IH Hin). lra.
Qed.

(** what [softmax] returns on a nonempty row of scores *)
Lemma softmax_spec (scores : list R) :
  scores <> [] ->
  length (softmax scores) = length scores
  /\ sumR (softmax scores) = 1
  /\ Forall (fun v => 0 < v <= 1) (softmax scores)
  /\ forall i j, (i < length scores)%nat -> (j < length scores)%nat ->
       nth i scores 0 <= nth j scores 0 ->
       nth i (softmax scores) 0 <= nth j (softmax scores) 0.
Proof.
  intros Hne. unfold softmax.
  set (exps := map (fun s => exp (s - max_list scores)) scores).
  assert (Hpos : Forall (fun v => 0 < v) exps).
  { apply Forall_map, Forall_forall. intros s _. apply exp_pos. }
  assert (Hne' : exps <> [])
    by (destruct scores; [contradiction | discriminate]).
  pose proof (sumR_pos exps Hne' Hpos) as HS.
  assert (Lexps : length exps = length scores) by apply length_map.
  split; [now rewrite length_map|]. split; [|split].
  - rewrite sumR_scale. field. lra.
  - apply Forall_map, Forall_forall. intros e He.
    rewrite Forall_forall in Hpos. pose proof (Hpos e He) as Hpe.
    assert (Hle : e <= sumR exps)
      by (apply sumR_ge_member; [now apply Forall_forall | exact He]).
    split.
    + now apply Rdiv_lt_0_compat.
    + apply Rmult_le_reg_r with (r := sumR exps); [exact HS|].
      unfold Rdiv. rewrite Rmult_assoc, Rinv_l by lra. lra.
  - intros i j Hi Hj Hij.
    rewrite !(nth_map_default _ exps _ 0) by lia.
    subst exps. rewrite !(nth_map_default _ scores _ 0) by assumption.
    apply Rmult_le_compat_r; [left; now apply Rinv_0_lt_compat|].
    destruct Hij as [Hlt|Heq].
    + left. apply exp_increasing. lra.
    + rewrite Heq. lra.
Qed.

(** X7. With at least one lineage, each with a TF block that is not empty
    and lies among the columns of [x], [assign_lineage] returns one
    probability row per row of [x]; every row has one entry per lineage,
    each entry lies in [(0, 1]], and the row sums to 1, whatever the
    threshold and the hard label. *)
Theorem fate_probabilities_sum_to_one :
  forall (N : NumPy32) (x : matrix) (lineage_indices : list nat)
         (n_lineages lineage_tfs_per : nat) (threshold : R),
    (0 < n_lineages)%nat ->
    blocks_in_rows x lineage_indices n_lineages lineage_tfs_per ->
    exists labels probs,
      assign_lineage x lineage_indices n_lineages lineage_tfs_per threshold
      = inr (labels, probs)
      /\ length probs = length x
      /\ forall r, (r < length x)%nat ->
           length (nth r probs []) = n_lineages
           /\ sumR (nth r probs []) = 1
           /\ Forall (fun v => 0 < v <= 1) (nth r probs []).
Proof.
  intros N x lin nl per thr Hnl Hblocks.
  rewrite (assign_lineage_returns x lin nl per thr Hnl Hblocks).
  eexists _, _. split; [reflexivity|]. split; [now rewrite !length_map|].
  intros r Hr. rewrite map_map.
  rewrite (nth_map_default _ x r []) by exact Hr.
  set (scores := lineage_scores lin nl per (nth r x [])).
  assert (L : length scores = nl) by apply length_lineage_scores.
  assert (Hne : scores <> []) by (intros E; rewrite E in L; simpl in L; lia).
  destruct (softmax_spec scores Hne) as (Hlen & Hsum & Hrange & _).
  split; [congruence|]. split; assumption.
Qed.

Lemma fate_probabilities_sum_to_one_witness :
  exists labels probs,
    assign_lineage [[1.5; 1.5; 0.9; 0.9]; [1.0; 1.0; 1.1; 1.1]]
                   [0; 1; 2; 3]%nat 2 2 1.2
    = inr (labels, probs)
    /\ length probs = 2%nat
    /\ forall r, (r < 2)%nat ->
         length (nth r probs []) = 2%nat
         /\ sumR (nth r probs []) = 1
         /\ Forall (fun v => 0 < v <= 1) (nth r probs []).
Proof.
  apply (fate_probabilities_sum_to_one seq32
           [[1.5; 1.5; 0.9; 0.9]; [1.0; 1.0; 1.1; 1.1]]
           [0; 1; 2; 3]%nat 2 2 1.2).
  - lia.
  - exact toy_lineage_blocks.
Defined.

(** X8. With at least one lineage, each with a TF block that is not empty
    and lies among the columns of [x], the fate probabilities follow the
    scores: a lineage with a higher (or equal) score never has a smaller
    probability, so whenever a row is labelled with a lineage
    ([label >= 1]) that lineage holds the greatest probability of the
    row. *)
Theorem fate_probability_peaks_at_label :
  forall (N : NumPy32) (x : matrix) (lineage_indices : list nat)
         (n_lineages lineage_tfs_per : nat) (threshold : R),
    (0 < n_lineages)%nat ->
    blocks_in_rows x lineage_indices n_lineages lineage_tfs_per ->
    exists labels probs,
      assign_lineage x lineage_indices n_lineages lineage_tfs_per threshold
      = inr (labels, probs)
      /\ forall r, (r < length x)%nat ->
           let scores := lineage_scores lineage_indices n_lineages
                                        lineage_tfs_per (nth r x []) in
           let p := nth r probs [] in
           let label := nth r labels 0%nat in
           (forall i j, (i < n_lineages)%nat -> (j < n_lineages)%nat ->
              nth i scores 0 <= nth j scores 0 -> nth i p 0 <= nth j p 0)
           /\ ((1 <= label)%nat ->
               forall j, (j < n_lineages)%nat ->
                 nth j p 0 <= nth (label - 1) p 0).
Proof.
  intros N x lin nl per thr Hnl Hblocks.
  rewrite (assign_lineage_returns x lin nl per thr Hnl Hblocks).
  eexists _, _. split; [reflexivity|].
  intros r Hr. cbv zeta. rewrite !map_map.
  rewrite !(nth_map_default _ x r []) by exact Hr.
  set (scores := lineage_scores lin nl per (nth r x [])).
  assert (L : length scores = nl) by apply length_lineage_scores.
  assert (Hne : scores <> []) by (intros E; rewrite E in L; simpl in L; lia).
  destruct (softmax_spec scores Hne) as (_ & _ & _ & Hmono).
  rewrite L in Hmono. split; [exact Hmono|].
  intros Hlabel j Hj.
  destruct (argmax_spec scores Hne) as (Harg & Hval & _).
  destruct (max_list_spec scores Hne) as [_ Hall].
  unfold label_of in *.
  destruct (Rlt_dec (max_list scores) (f32 thr)); [lia|].
  replace (argmax scores + 1 - 1)%nat with (argmax scores) by lia.
  apply Hmono; [exact Hj | lia|].
  rewrite Hval. rewrite Forall_forall in Hall. apply Hall, nth_In. lia.
Qed.

Lemma fate_probability_peaks_at_label_witness :
  exists labels probs,
    assign_lineage [[1.5; 1.5; 0.9; 0.9]; [1.0; 1.0; 1.1; 1.1]]
                   [0; 1; 2; 3]%nat 2 2 1.2
    = inr (labels, probs)
    /\ forall r, (r < 2)%nat ->
         let scores :=
           lineage_scores [0; 1; 2; 3]%nat 2 2
             (nth r [[1.5; 1.5; 0.9; 0.9]; [1.0; 1.0; 1.1; 1.1]] []) in
         let p := nth r probs [] in
         let label := nth r labels 0%nat in
         (forall i j, (i < 2)%nat -> (j < 2)%nat ->
            nth i scores 0 <= nth j scores 0 -> nth i p 0 <= nth j p 0)
         /\ ((1 <= label)%nat ->
             forall j, (j < 2)%nat -> nth j p 0 <= nth (label - 1) p 0).
Proof.
  apply (fate_probability_peaks_at_label seq32
           [[1.5; 1.5; 0.9; 0.9]; [1.0; 1.0; 1.1; 1.1]]
           [0; 1; 2; 3]%nat 2 2 1.2).
  - lia.
  - exact toy_lineage_blocks.
Defined.

(** ** Further properties: latent_to_counts *)

(** X9. The count mean [mu = log1p(exp(x))] is not negative, is at least
    the latent value and does not decrease when the latent value grows.
    (Over the reals the three are strict; in double arithmetic the bounds
    are reached, [log1p(exp(40.0))] being [40.0].) *)
Theorem softplus_positive_increasing :
  forall v : R,
    0 <= softplus v
    /\ v <= softplus v
    /\ forall w, v <= w -> softplus v <= softplus w.
Proof.
  intros v. unfold softplus. pose proof (exp_pos v) as Hv.
  split; [|split].
  - left. rewrite <- ln_1. apply ln_increasing; lra.
  - left. rewrite <- (ln_exp v) at 1. apply ln_increasing; lra.
  - intros w [Hw| ->]; [|lra]. pose proof (exp_increasing v w Hw).
    left. apply ln_increasing; lra.
Qed.

Lemma softplus_positive_increasing_witness :
  0 <= softplus 0
  /\ 0 <= softplus 0
  /\ forall w, 0 <= w -> softplus 0 <= softplus w.
Proof. exact (softplus_positive_increasing 0). Defined.

Lemma exp_div_pos (a b : R) : 0 < 1 + exp (a / b).
Proof. pose proof (exp_pos (a / b)). lra. Qed.

(** X10. For a positive [dropout_scale] the dropout probability lies
    between 0 and 1, is exactly 1/2 where the mean equals [dropout_mid],
    and does not rise as the mean grows.  (Over the reals the bounds and
    the fall are strict; in double arithmetic the values 0 and 1 are
    reached.) *)
Theorem drop_prob_decreasing :
  forall dropout_mid dropout_scale : R,
    0 < dropout_scale ->
    drop_prob dropout_mid dropout_scale dropout_mid = 1 / 2
    /\ (forall mu, 0 <= drop_prob dropout_mid dropout_scale mu <= 1)
    /\ (forall mu1 mu2, mu1 <= mu2 ->
          drop_prob dropout_mid dropout_scale mu2
          <= drop_prob dropout_mid dropout_scale mu1).
Proof.
  intros mid sc Hsc. unfold drop_prob. split; [|split].
  - rewrite Rminus_diag. unfold Rdiv at 2. rewrite Rmult_0_l, exp_0. lra.
  - intros mu. pose proof (exp_pos ((mu - mid) / sc)) as He.
    split.
    + left. apply Rdiv_lt_0_compat; lra.
    + left.
      apply Rmult_lt_reg_r with (r := 1 + exp ((mu - mid) / sc)); [lra|].
      unfold Rdiv at 1. rewrite Rmult_assoc, Rinv_l by lra. lra.
  - intros mu1 mu2 [Hmu| ->]; [|lra].
    pose proof (exp_pos ((mu1 - mid) / sc)) as H1.
    assert (Hlt : exp ((mu1 - mid) / sc) < exp ((mu2 - mid) / sc)).
    { apply exp_increasing. unfold Rdiv.
      apply Rmult_lt_compat_r; [now apply Rinv_0_lt_compat | lra]. }
    left. unfold Rdiv at 1 3. rewrite !Rmult_1_l.
    apply Rinv_lt_contravar; [|lra].
    apply Rmult_lt_0_compat; lra.
Qed.

Lemma drop_prob_decreasing_witness :
  0 < 0.6
  /\ drop_prob 1 0.6 1 = 1 / 2
  /\ (forall mu, 0 <= drop_prob 1 0.6 mu <= 1)
  /\ (forall mu1 mu2, mu1 <= mu2 ->
        drop_prob 1 0.6 mu2 <= drop_prob 1 0.6 mu1).
Proof.
  assert (H : 0 < 0.6) by lra.
  split; [exact H|]. exact (drop_prob_decreasing 1 0.6 H).
Defined.

Lemma to_int32_small (z : Z) :
  (0 <= z < 2147483648)%Z -> to_int32 z = z.
Proof.
  intros Hz. unfold to_int32. rewrite Z.mod_small by lia. lia.
Qed.

Lemma nth_zip_zip {A B C} (f : A -> B -> C) (a : list (list A))
      (b : list (list B)) (i j : nat) (da : A) (db : B) (dc : C) :
  (i < length (zip_with (zip_with f) a b))%nat ->
  (j < length (nth i (zip_with (zip_with f) a b) []))%nat ->
  nth j (nth i (zip_with (zip_with f) a b) []) dc
  = f (nth j (nth i a []) da) (nth j (nth i b []) db)
  /\ (i < length a)%nat /\ (i < length b)%nat
  /\ (j < length (nth i a []))%nat /\ (j < length (nth i b []))%nat.
Proof.
  intros Hi. rewrite length_zip_with in Hi.
  rewrite (zip_with_nth _ a b i [] [] []) by lia.
  intros Hj. rewrite length_zip_with in Hj.
  rewrite (zip_with_nth _ _ _ j da db dc) by lia.
  repeat split; lia.
Qed.

(** X11. For positive dispersions, one per column of [x], a nonzero
    [dropout_scale], latent values whose exponential is a finite double
    and drawn rates that [rng.poisson] accepts: in the matrix that
    [latent_to_counts] returns, a count is 0 wherever the uniform draw
    falls below the dropout probability of the cell's mean, and is the
    Poisson draw cast to 32 bits (wrapped modulo [2^32]) everywhere else.
    At an entry whose Poisson draw fits 32 bits the count is not negative
    and does not exceed the draw. *)
Theorem counts_zeroed_by_dropout :
  forall (G : Type) (Gen : CountGenerator G) (x : matrix)
         (dispersion : list R) (dropout_mid dropout_scale : R) (rng : G),
    let mu := map_mat softplus x in
    let r1 := gamma dispersion (mat_row Rdiv mu dispersion) rng in
    let r2 := poisson (fst r1) (snd r1) in
    let r3 := random_array (length mu) (length (hd [] mu)) (snd r2) in
    let counts :=
      fst (latent_to_counts x dispersion dropout_mid dropout_scale rng) in
    Forall (fun d => 0 < d) dispersion ->
    Forall (fun row => length row = length dispersion) x ->
    Forall (Forall (within 700)) x ->
    dropout_scale <> 0 ->
    poisson_accepts (fst r1) ->
    snd (latent_to_counts x dispersion dropout_mid dropout_scale rng)
    = snd r3
    /\ forall i j,
         (i < length counts)%nat -> (j < length (nth i counts []))%nat ->
         let c := nth j (nth i counts []) 0%Z in
         let draw := nth j (nth i (fst r2) []) 0%Z in
         (entry (fst r3) i j
          < drop_prob dropout_mid dropout_scale (entry mu i j) -> c = 0%Z)
         /\ (~ entry (fst r3) i j
               < drop_prob dropout_mid dropout_scale (entry mu i j) ->
             c = to_int32 draw)
         /\ ((0 <= draw < 2147483648)%Z -> (0 <= c <= draw)%Z).
Proof.
  intros G Gen x disp mid sc rng. cbv zeta. intros _ _ _ _ _.
  unfold latent_to_counts. set (mu := map_mat softplus x).
  destruct (gamma disp (mat_row Rdiv mu disp) rng) as [lam g1].
  cbn [fst snd].
  destruct (poisson lam g1) as [draws g2] eqn:E2. cbn [fst snd].
  destruct (random_array (length mu) (length (hd [] mu)) g2) as [u g3].
  cbn [fst snd].
  split; [reflexivity|].
  intros i j Hi Hj. unfold zero_where in *.
  destruct (nth_zip_zip _ _ _ i j false 0%Z 0%Z Hi Hj)
    as (Hc & Him & Hic & Hjm & Hjc).
  rewrite Hc. clear Hc.
  unfold less_than in *.
  destruct (nth_zip_zip _ _ _ i j 0 0 false Him Hjm)
    as (Hm & Hiu & Hip & Hju & Hjp).
  rewrite Hm. clear Hm.
  rewrite length_map in Hic.
  rewrite (nth_map_default _ draws i []) in Hjc |- * by exact Hic.
  rewrite length_map in Hjc.
  rewrite (nth_map_default _ _ j 0%Z) by exact Hjc.
  unfold map_mat in Hip, Hjp |- *. rewrite length_map in Hip.
  rewrite (nth_map_default _ mu i []) in Hjp |- * by exact Hip.
  rewrite length_map in Hjp.
  rewrite (nth_map_default _ _ j 0) by exact Hjp.
  unfold entry.
  destruct (Rlt_dec (nth j (nth i u []) 0)
                    (drop_prob mid sc (nth j (nth i mu []) 0))) as [Hlt|Hge].
  - split; [reflexivity|]. split; [tauto|]. intros Hdraw. lia.
  - split; [tauto|]. split; [reflexivity|].
    intros Hdraw. rewrite to_int32_small by exact Hdraw. lia.
Qed.

(** the count mean lies between 0 and the exponential of the latent
    value *)
Lemma softplus_below_exp (v : R) : 0 <= softplus v <= exp v.
Proof.
  unfold softplus. pose proof (exp_pos v) as Hv. split.
  - left. rewrite <- ln_1. apply ln_increasing; lra.
  - left. rewrite <- (ln_exp (exp v)) at 2. apply ln_increasing; [lra|].
    apply exp_ineq1; lra.
Qed.

Lemma counts_zeroed_by_dropout_witness :
  let x := [[0; 1]] in
  let rng := [3; 120; 700; 900]%nat in
  let mu := map_mat softplus x in
  let r1 := gamma [2; 2] (mat_row Rdiv mu [2; 2]) rng in
  let r2 := poisson (fst r1) (snd r1) in
  let r3 := random_array (length mu) (length (hd [] mu)) (snd r2) in
  let counts := fst (latent_to_counts x [2; 2] 1 0.6 rng) in
  poisson_accepts (fst r1)
  /\ snd (latent_to_counts x [2; 2] 1 0.6 rng) = snd r3
  /\ forall i j,
       (i < length counts)%nat -> (j < length (nth i counts []))%nat ->
       let c := nth j (nth i counts []) 0%Z in
       let draw := nth j (nth i (fst r2) []) 0%Z in
       (entry (fst r3) i j < drop_prob 1 0.6 (entry mu i j) -> c = 0%Z)
       /\ (~ entry (fst r3) i j < drop_prob 1 0.6 (entry mu i j) ->
           c = to_int32 draw)
       /\ ((0 <= draw < 2147483648)%Z -> (0 <= c <= draw)%Z).
Proof.
  assert (Hd : Forall (fun d => 0 < d) [2; 2])
    by (repeat constructor; lra).
  assert (Hx : Forall (fun row : list R => length row = length [2; 2])
                      [[0; 1]])
    by (repeat constructor).
  assert (Hb : Forall (Forall (within 700)) [[0; 1]])
    by (repeat constructor; lra).
  assert (Hs : 0.6 <> 0) by lra.
  assert (Hl : poisson_accepts
                 (fst (gamma [2; 2]
                             (mat_row Rdiv (map_mat softplus [[0; 1]])
                                      [2; 2])
                             [3; 120; 700; 900]%nat))).
  { cbn [gamma TapeCountGenerator fst mat_row map_mat map zip_with].
    pose proof (softplus_below_exp 0) as [L0 U0]. rewrite exp_0 in U0.
    pose proof (softplus_below_exp 1) as [L1 U1].
    pose proof exp_le_3 as H3. unfold poisson_accepts.
    repeat (apply Forall_cons || apply Forall_nil); lra. }
  split; [exact Hl|].
  exact (counts_zeroed_by_dropout (list nat) TapeCountGenerator [[0; 1]]
           [2; 2] 1 0.6 [3; 120; 700; 900]%nat Hd Hx Hb Hs Hl).
Defined.

(** ** Further properties: main *)

Lemma sumZ_app (a b : list Z) : sumZ (a ++ b) = (sumZ a + sumZ b)%Z.
Proof.
  unfold sumZ. induction a as [|x a IH]; cbn [app fold_right]; lia.
Qed.

Lemma sumZ_indicator (base r : Z) (n : nat) :
  (0 <= r <= Z.of_nat n)%Z ->
  sumZ (map (fun i => (base + (if (Z.of_nat i <? r)%Z then 1 else 0))%Z)
            (seq 0 n))
  = (Z.of_nat n * base + r)%Z.
Proof.
  revert r. induction n as [|n IH]; intros r Hr.
  - cbn [seq map sumZ fold_right]. lia.
  - rewrite seq_S, map_app, sumZ_app. cbn [map Nat.add].
    unfold sumZ at 2. cbn [fold_right]. rewrite Nat2Z.inj_succ in *.
    destruct (Z.ltb_spec (Z.of_nat n) r) as [Hlt|Hge].
    + assert (Er : r = Z.succ (Z.of_nat n)) by lia. subst r.
      rewrite (map_ext_in _
                 (fun i => (base + (if (Z.of_nat i <? Z.of_nat n)%Z
                                    then 1 else 0))%Z)).
      * rewrite IH by lia. lia.
      * intros i Hi. apply in_seq in Hi.
        destruct (Z.ltb_spec (Z.of_nat i) (Z.succ (Z.of_nat n))),
          (Z.ltb_spec (Z.of_nat i) (Z.of_nat n)); lia.
    + rewrite IH by lia. lia.
Qed.

(** X12. For a positive number of samples and of timepoints and a
    nonnegative cell budget, [traj_per_sample] has one entry per sample,
    each entry is [base_traj] or [base_traj + 1] and is not negative, the
    entries add up to [total_cells // n_timepoints], and the generated
    total [actual_total_cells] never exceeds the requested [total_cells]
    and misses it by less than [n_timepoints]. *)
Theorem trajectories_fill_the_budget :
  forall total_cells n_samples n_timepoints : Z,
    (0 <= total_cells)%Z -> (0 < n_samples)%Z -> (0 < n_timepoints)%Z ->
    exists traj_per_sample actual_total_cells,
      split_trajectories total_cells n_samples n_timepoints
      = inr (traj_per_sample, actual_total_cells)
      /\ length traj_per_sample = Z.to_nat n_samples
      /\ Forall (fun t =>
                   (0 <= t)%Z
                   /\ (t = total_cells / n_timepoints / n_samples
                       \/ t = total_cells / n_timepoints / n_samples + 1)%Z)
                traj_per_sample
      /\ sumZ traj_per_sample = (total_cells / n_timepoints)%Z
      /\ (actual_total_cells <= total_cells
          < actual_total_cells + n_timepoints)%Z.
Proof.
  intros total ns ntp Htot Hns Hntp. unfold split_trajectories.
  destruct (Z.eqb_spec ntp 0); [lia|]. destruct (Z.eqb_spec ns 0); [lia|].
  set (tt := (total / ntp)%Z). set (base := (tt / ns)%Z).
  set (rem := (tt mod ns)%Z).
  assert (Htt : (0 <= tt)%Z) by (apply Z.div_pos; lia).
  assert (Hbase : (0 <= base)%Z) by (apply Z.div_pos; lia).
  assert (Hrem : (0 <= rem < ns)%Z) by (apply Z.mod_pos_bound; lia).
  assert (Hdm : tt = (ns * base + rem)%Z) by (apply Z.div_mod; lia).
  assert (Hsum : sumZ (map (fun i => (base + (if (Z.of_nat i <? rem)%Z
                                             then 1 else 0))%Z)
                           (range (Z.to_nat ns))) = tt).
  { unfold range. rewrite sumZ_indicator by lia. lia. }
  eexists _, _. split; [reflexivity|].
  split; [unfold range; now rewrite length_map, length_seq|].
  split; [|split].
  - apply Forall_map, Forall_forall. intros i _.
    destruct (Z.of_nat i <? rem)%Z; lia.
  - exact Hsum.
  - rewrite Hsum. subst tt.
    pose proof (Z.div_mod total ntp ltac:(lia)) as Hd.
    pose proof (Z.mod_pos_bound total ntp ltac:(lia)) as Hm. nia.
Qed.

Lemma trajectories_fill_the_budget_witness :
  exists traj_per_sample actual_total_cells,
    split_trajectories 500000 30 12
    = inr (traj_per_sample, actual_total_cells)
    /\ length traj_per_sample = Z.to_nat 30
    /\ Forall (fun t =>
                 (0 <= t)%Z
                 /\ (t = 500000 / 12 / 30 \/ t = 500000 / 12 / 30 + 1)%Z)
              traj_per_sample
    /\ sumZ traj_per_sample = (500000 / 12)%Z
    /\ (actual_total_cells <= 500000 < actual_total_cells + 12)%Z.
Proof.
  apply (trajectories_fill_the_budget 500000 30 12); lia.
Defined.

Lemma str_inj (a b : nat) : str a = str b -> a = b.
Proof.
  unfold str. intros E.
  apply (f_equal NilEmpty.uint_of_string) in E.
  rewrite !NilEmpty.usu in E. injection E as E.
  apply (f_equal Nat.of_uint) in E.
  now rewrite !DecimalNat.Unsigned.of_to in E.
Qed.

(** X13. The cell-type string determines the lineage label: two labels
    with the same cell type are equal, and the type is ["progenitor"]
    exactly for label 0. *)
Theorem cell_type_determines_label :
  forall a b : nat,
    (cell_type a = cell_type b -> a = b)
    /\ (cell_type a = "progenitor"%string <-> a = 0%nat).
Proof.
  intros a b. unfold cell_type. split.
  - destruct (Nat.eqb_spec a 0) as [->|Ha], (Nat.eqb_spec b 0) as [->|Hb];
      simpl; try discriminate; [reflexivity|].
    intros E. injection E as E. now apply str_inj.
  - destruct (Nat.eqb_spec a 0) as [->|Ha]; simpl; [tauto|].
    split; [discriminate | contradiction].
Qed.

(** ** Further properties: the transition graph of main *)

Lemma cell_type_determines_label_witness :
  (cell_type 1 = cell_type 2 -> 1%nat = 2%nat)
  /\ (cell_type 1 = "progenitor"%string <-> 1%nat = 0%nat).
Proof. exact (cell_type_determines_label 1 2). Defined.

Lemma in_enumerate_iff {A} (l : list A) (i : nat) (a : A) :
  In (i, a) (enumerate l) <-> nth_error l i = Some a.
Proof.
  unfold enumerate.
  assert (Hgen : forall k, In (i, a) (combine (seq k (length l)) l)
                           <-> (k <= i)%nat /\ nth_error l (i - k) = Some a).
  { induction l as [|x l IH]; intros k; simpl.
    - split; [tauto|]. intros [_ E]. now destruct (i - k)%nat.
    - rewrite IH. split.
      + intros [E|[Hk E]].
        * injection E as <- <-. rewrite Nat.sub_diag. auto.
        * split; [lia|]. replace (i - k)%nat with (S (i - S k)) by lia.
          exact E.
      + intros [Hk E]. destruct (Nat.eq_dec k i) as [->|Hne].
        * rewrite Nat.sub_diag in E. injection E as ->. now left.
        * right. split; [lia|].
          replace (i - k)%nat with (S (i - S k)) in E by lia. exact E. }
  rewrite Hgen, Nat.sub_0_r. split; [tauto | intros; split; [lia|assumption]].
Qed.

Lemma where_spec {A} (mask : A -> bool) (l : list A) (i : nat) :
  In i (where_ mask l)
  <-> exists a, nth_error l i = Some a /\ mask a = true.
Proof.
  unfold where_. rewrite in_map_iff. split.
  - intros ([j a] & <- & Hin). apply filter_In in Hin as [Hin Hm].
    exists a. split; [now apply in_enumerate_iff | exact Hm].
  - intros (a & E & Hm). exists (i, a). split; [reflexivity|].
    apply filter_In. split; [now apply in_enumerate_iff | exact Hm].
Qed.

Lemma length_where {A} (mask : A -> bool) (l : list A) :
  length (where_ mask l) = length (filter mask l).
Proof.
  unfold where_, enumerate. rewrite length_map. generalize 0%nat.
  induction l as [|x l IH]; intros k; simpl; [reflexivity|].
  destruct (mask x); simpl; now rewrite IH.
Qed.

Lemma nth_error_tile (n_cells n_tp i : nat) :
  (0 < n_tp)%nat ->
  nth_error (time_index n_cells n_tp) i
  = if (i <? n_cells * n_tp)%nat then Some (i mod n_tp)%nat else None.
Proof.
  intros Hn. unfold time_index, range. revert i.
  induction n_cells as [|c IH]; intros i; simpl.
  - now destruct i.
  - rewrite nth_error_app, length_seq.
    destruct (Nat.ltb_spec i n_tp) as [Hi|Hi].
    + destruct (Nat.ltb_spec i (n_tp + c * n_tp)); [|lia].
      rewrite Nat.mod_small by exact Hi.
      rewrite (nth_error_nth' _ 0%nat) by (now rewrite length_seq).
      now rewrite seq_nth.
    + rewrite IH.
      destruct (Nat.ltb_spec (i - n_tp) (c * n_tp)),
        (Nat.ltb_spec i (n_tp + c * n_tp)); try lia; [|reflexivity].
      f_equal. replace i with ((i - n_tp) + 1 * n_tp)%nat at 2 by lia.
      now rewrite Nat.Div0.mod_add.
Qed.

Lemma length_filter_tile (mask : nat -> bool) (l : list nat) (k : nat) :
  length (filter mask (concat (repeat l k)))
  = (k * length (filter mask l))%nat.
Proof.
  induction k as [|k IH]; simpl; [reflexivity|].
  now rewrite filter_app, length_app, IH.
Qed.

Lemma length_filter_before_last (n_tp : nat) :
  length (filter (fun t => (Z.of_nat t <? Z.of_nat n_tp - 1)%Z)
                 (seq 0 n_tp))
  = (n_tp - 1)%nat.
Proof.
  assert (Hgen : forall m, (m <= n_tp)%nat ->
            length (filter (fun t => (Z.of_nat t <? Z.of_nat n_tp - 1)%Z)
                           (seq 0 m))
            = Nat.min m (n_tp - 1)).
  { induction m as [|m IH]; intros Hm; [reflexivity|].
    rewrite seq_S, filter_app, length_app, IH by lia. cbn [Nat.add filter].
    destruct (Z.ltb_spec (Z.of_nat m) (Z.of_nat n_tp - 1));
      cbn [length]; lia. }
  rewrite Hgen by lia. lia.
Qed.

Lemma in_combine_map {A B} (f : A -> B) (l : list A) (a : A) (b : B) :
  In (a, b) (combine l (map f l)) <-> In a l /\ b = f a.
Proof.
  induction l as [|x l IH]; simpl; [tauto|]. rewrite IH. split.
  - intros [E|[Hin ->]]; [injection E as <- <-; auto | auto].
  - intros [[->|Hin] ->]; [now left | right; auto].
Qed.

Lemma nth_concat_rows {A} (snapshots : list (list A)) (n_tp c tp : nat)
      (d : A) :
  Forall (fun tps => length tps = n_tp) snapshots ->
  (c < length snapshots)%nat -> (tp < n_tp)%nat ->
  nth (c * n_tp + tp) (concat snapshots) d = nth tp (nth c snapshots []) d.
Proof.
  intros Hall. revert c.
  induction Hall as [|tps rest Htps Hrest IH]; intros c Hc Htp; simpl in *;
    [lia|].
  destruct c as [|c].
  - simpl. now rewrite app_nth1 by lia.
  - rewrite app_nth2 by (rewrite Htps; simpl; lia).
    rewrite Htps. replace (S c * n_tp + tp - n_tp)%nat
      with (c * n_tp + tp)%nat by (simpl; lia).
    apply IH; lia.
Qed.

(** X14. The transition graph of a sample links consecutive timepoints of
    one trajectory and nothing else: its pairs are exactly the
    [(offset + c * n_timepoints + t, offset + c * n_timepoints + t + 1)]
    with [c] a cell of the sample and [t + 1] a timepoint, there are
    [n_cells * (n_timepoints - 1)] of them, and in the flattened snapshot
    matrix these two rows are the snapshots of cell [c] at timepoints [t]
    and [t + 1]. *)
Theorem transitions_stay_in_trajectory :
  forall (offset n_cells n_timepoints : nat),
    (forall s t,
        In (s, t) (transition_pairs offset n_cells n_timepoints)
        <-> exists c tp,
              (c < n_cells)%nat /\ (tp + 1 < n_timepoints)%nat
              /\ s = (offset + (c * n_timepoints + tp))%nat
              /\ t = (offset + (c * n_timepoints + (tp + 1)))%nat)
    /\ length (transition_pairs offset n_cells n_timepoints)
       = (n_cells * (n_timepoints - 1))%nat
    /\ forall (snapshots : tensor) (c tp : nat),
         length snapshots = n_cells ->
         Forall (fun tps => length tps = n_timepoints) snapshots ->
         (c < n_cells)%nat -> (tp < n_timepoints)%nat ->
         nth (c * n_timepoints + tp) (reshape_flat snapshots) []
         = nth tp (nth c snapshots []) [].
Proof.
  intros offset n_cells n_tp. split; [|split].
  - intros s t. unfold transition_pairs.
    rewrite in_combine_map, in_map_iff. split.
    + intros [(i & <- & Hi) ->]. apply where_spec in Hi as (a & E & Hm).
      destruct (Nat.eq_dec n_tp 0) as [->|Hn].
      { unfold time_index, range in E. simpl in E.
        assert (Hnil : concat (repeat (@nil nat) n_cells) = [])
          by (induction n_cells; simpl; auto).
        rewrite Hnil in E. now destruct i. }
      rewrite nth_error_tile in E by lia.
      destruct (Nat.ltb_spec i (n_cells * n_tp)) as [Hlt|]; [|discriminate].
      injection E as <-. apply Z.ltb_lt in Hm.
      exists (i / n_tp)%nat, (i mod n_tp)%nat.
      pose proof (Nat.div_mod_eq i n_tp) as Hd.
      assert ((i / n_tp < n_cells)%nat)
        by (apply Nat.Div0.div_lt_upper_bound; lia).
      repeat split; lia.
    + intros (c & tp & Hc & Htp & -> & ->). split; [|lia].
      exists (c * n_tp + tp)%nat. split; [reflexivity|].
      apply where_spec. exists tp. split.
      * rewrite nth_error_tile by lia.
        destruct (Nat.ltb_spec (c * n_tp + tp) (n_cells * n_tp)); [|nia].
        f_equal. rewrite Nat.add_comm, Nat.Div0.mod_add.
        apply Nat.mod_small. lia.
      * apply Z.ltb_lt. lia.
  - unfold transition_pairs.
    rewrite length_combine, !length_map, Nat.min_id, length_where.
    unfold time_index. rewrite length_filter_tile.
    unfold range. now rewrite length_filter_before_last.
  - intros snaps c tp L Hall Hc Htp. unfold reshape_flat.
    apply nth_concat_rows; [exact Hall | lia | exact Htp].
Qed.

Lemma transitions_stay_in_trajectory_witness :
  (forall s t,
      In (s, t) (transition_pairs 24 2 3)
      <-> exists c tp,
            (c < 2)%nat /\ (tp + 1 < 3)%nat
            /\ s = (24 + (c * 3 + tp))%nat
            /\ t = (24 + (c * 3 + (tp + 1)))%nat)
  /\ length (transition_pairs 24 2 3) = (2 * (3 - 1))%nat
  /\ forall (snapshots : tensor) (c tp : nat),
       length snapshots = 2%nat ->
       Forall (fun tps => length tps = 3%nat) snapshots ->
       (c < 2)%nat -> (tp < 3)%nat ->
       nth (c * 3 + tp) (reshape_flat snapshots) []
       = nth tp (nth c snapshots []) [].
Proof. exact (transitions_stay_in_trajectory 24 2 3). Defined.

(** ** Further properties: simulate_sample *)

Lemma returns_sample_with {G A} (op : G -> A * G) (Q : A -> Prop) :
  (forall g, Q (fst (op g))) -> returns (sample op) Q.
Proof.
  intros HQ g. unfold sample. specialize (HQ g).
  destruct (op g) as [a g']. exists a, g'. auto.
Qed.

Lemma NoDup_map_injective {A B} (f : A -> B) (l : list A) :
  (forall a b, f a = f b -> a = b) -> NoDup l -> NoDup (map f l).
Proof.
  intros Hinj Hnd. induction Hnd as [|x l Hx Hnd IH]; simpl; constructor.
  - rewrite in_map_iff. intros (y & E & Hy). apply Hinj in E. now subst.
  - exact IH.
Qed.

(** X15. In neighbor mode with a positive [neighbor_k] and at least two
    cells, and a generator that samples without replacement, the neighbor
    table has one row per cell; row [i] holds
    [min(neighbor_k, n_cells - 1)] distinct cells of the sample, and never
    cell [i] itself. *)
Theorem neighbors_are_distinct_other_cells :
  forall (G : Type) (Gen : Generator G) (neighbor_k : Z) (n_cells : nat)
         (rng : G),
    choice_without_replacement G ->
    (0 < neighbor_k)%Z -> (1 < n_cells)%nat ->
    exists neighbor_idx rng',
      sample_neighbors "random" neighbor_k n_cells rng
      = inr (Some neighbor_idx, rng')
      /\ length neighbor_idx = n_cells
      /\ forall i, (i < n_cells)%nat ->
           let row := nth i neighbor_idx [] in
           length row
           = Z.to_nat (Z.min neighbor_k (Z.of_nat n_cells - 1))
           /\ NoDup row
           /\ Forall (fun c => (c < n_cells)%nat /\ c <> i) row.
Proof.
  intros G Gen nk n rng Hlaw Hk Hn.
  unfold sample_neighbors.
  replace ("random" =? "random")%string with true by reflexivity.
  destruct (Z.leb_spec nk 0) as [|_]; [lia|].
  destruct (Nat.leb_spec n 1) as [|_]; [lia|]. cbn [orb].
  set (k := Z.to_nat (Z.min nk (Z.of_nat n - 1))).
  assert (Hkn : (k <= n - 1)%nat) by (subst k; lia).
  set (good := fun (i : nat) (row : list nat) =>
                 length row = k /\ NoDup row
                 /\ Forall (fun c => (c < n)%nat /\ c <> i) row).
  pose proof (returns_fold_seq
                (fun i nb => length nb = i
                             /\ forall j, (j < i)%nat ->
                                          good j (nth j nb []))
                0 n [] (fun nb i =>
                  choices <- sample (choice (n - 1) k) ;;
                  ret (nb ++ [map (fun c => if (i <=? c)%nat
                                            then (c + 1)%nat else c)
                                  choices]))) as Hfold.
  destruct (Hfold ltac:(split; [reflexivity | intros j Hj; lia])) with
      (s := rng) as (nb & rng' & E & Hlen & Hrows).
  { intros i nb Hi [Hlen Hrows]. cbn [Nat.add].
    eapply returns_bind.
    - apply (returns_sample_with (choice (n - 1) k)
               (fun l => length l = k /\ NoDup l
                         /\ Forall (fun c => (c < n - 1)%nat) l)).
      intros g. now apply Hlaw.
    - intros l (Ll & Hnd & Hlt). apply returns_ret.
      split; [rewrite length_app; simpl; lia|].
      intros j Hj. destruct (Nat.eq_dec j i) as [->|Hne].
      + rewrite <- Hlen, nth_middle. unfold good.
        split; [now rewrite length_map|]. split.
        * apply NoDup_map_injective; [|exact Hnd].
          intros a b. destruct (Nat.leb_spec (length nb) a),
            (Nat.leb_spec (length nb) b); lia.
        * apply Forall_map. rewrite Forall_forall in *.
          intros c Hc. specialize (Hlt c Hc).
          destruct (Nat.leb_spec (length nb) c); lia.
      + rewrite app_nth1 by lia. apply Hrows. lia. }
  exists nb, rng'. split; [|split; [exact Hlen | exact Hrows]].
  unfold range. unfold bind at 1. cbv zeta. rewrite E. reflexivity.
Qed.

Lemma tape_choice_law : choice_without_replacement (list nat).
Proof.
  intros n k g Hk. simpl. destruct (pop g) as [h t]. simpl.
  split; [now rewrite length_map, length_seq|]. split.
  - destruct (Nat.eq_dec k 0) as [->|Hk0]; [constructor|].
    assert (Hseq : forall i j, (i < k)%nat -> (j < k)%nat ->
                     ((h + i) mod n = (h + j) mod n)%nat -> i = j).
    { intros i j Hi Hj E.
      assert (Hmod : forall a b, (a <= b)%nat -> (b - a < n)%nat ->
                       (a mod n = b mod n)%nat -> a = b).
      { intros a b Hab Hd Em.
        pose proof (Nat.div_mod_eq a n). pose proof (Nat.div_mod_eq b n).
        assert (Hq : (a / n <= b / n)%nat)
          by (apply Nat.Div0.div_le_mono; lia).
        assert ((b / n - a / n) * n < n)%nat by nia.
        assert (b / n = a / n)%nat by nia. nia. }
      destruct (Nat.le_ge_cases i j).
      - assert (h + i = h + j)%nat by (apply Hmod; [lia | lia | exact E]).
        lia.
      - assert (h + j = h + i)%nat
          by (apply Hmod; [lia | lia | now symmetry]).
        lia. }
    assert (Hgen : forall a m, (a + m <= k)%nat ->
              NoDup (map (fun i => ((h + i) mod n)%nat) (seq a m))).
    { intros a m. revert a. induction m as [|m IH]; intros a Ham; simpl;
        constructor.
      - rewrite in_map_iff. intros (j & E & Hj). apply in_seq in Hj.
        apply Hseq in E; lia.
      - apply IH. lia. }
    apply Hgen. lia.
  - apply Forall_map, Forall_forall. intros i Hi. apply in_seq in Hi.
    apply Nat.mod_upper_bound. lia.
Qed.

Lemma neighbors_are_distinct_other_cells_witness :
  exists neighbor_idx rng',
    sample_neighbors "random" 2 4 [7; 250; 999; 4; 31; 600]%nat
    = inr (Some neighbor_idx, rng')
    /\ length neighbor_idx = 4%nat
    /\ forall i, (i < 4)%nat ->
         let row := nth i neighbor_idx [] in
         length row = Z.to_nat (Z.min 2 (Z.of_nat 4 - 1))
         /\ NoDup row
         /\ Forall (fun c => (c < 4)%nat /\ c <> i) row.
Proof.
  apply (neighbors_are_distinct_other_cells (list nat) TapeGenerator 2 4
           [7; 250; 999; 4; 31; 600]%nat tape_choice_law); lia.
Defined.

Lemma nth_set_nth_other {A} (i g : nat) (v d : A) (l : list A) :
  g <> i -> nth g (set_nth i v l) d = nth g l d.
Proof.
  revert i g. induction l as [|h t IH]; intros [|i] [|g] Hne; simpl;
    try reflexivity; try lia.
  apply IH. lia.
Qed.

Lemma int_below_one (r : R) : Rabs r < 1 -> int r = 0%Z.
Proof.
  intros Hr. unfold int. apply Rabs_def2 in Hr as [Hhi Hlo].
  destruct (Rle_dec 0 r) as [Hpos|Hneg].
  - symmetry. apply Int_part_spec. simpl. lra.
  - assert (E : Int_part (- r) = 0%Z)
      by (symmetry; apply Int_part_spec; simpl; lra).
    rewrite E. reflexivity.
Qed.

(** X16. Let [h] and [d] be the doubles that the two arguments are read
    as.  An [h] that is not zero and at most [2^-21] (about 4.8e-7) in
    size, with a [d] of size at least [2^-19] (and inside the double
    range), passes the step-size check with zero steps per timepoint. *)
Theorem check_steps_accepts_zero_steps :
  forall hours_per_timepoint dt : R,
    let h := f64 hours_per_timepoint in
    let d := f64 dt in
    h <> 0 -> Rabs h <= / 2097152 -> / 524288 <= Rabs d ->
    Rabs dt <= 1e300 ->
    check_steps hours_per_timepoint dt = inr 0%Z.
Proof.
  intros hours dt h d Hh Hsmall Hbig _.
  assert (Hd : d <> 0).
  { intros E. rewrite E, Rabs_R0 in Hbig. lra. }
  assert (Hquot : Rabs (h / d) <= powerRZ 2 (-2)).
  { unfold Rdiv. rewrite Rabs_mult, Rabs_inv.
    pose proof (Rabs_pos_lt d Hd) as Hpos.
    apply Rmult_le_reg_r with (r := Rabs d); [exact Hpos|].
    rewrite Rmult_assoc, Rinv_l by lra. simpl. lra. }
  assert (Hint : int (f64 (h / d)) = 0%Z).
  { apply int_below_one.
    apply Rle_lt_trans with (powerRZ 2 (-2)); [|simpl; lra].
    apply round_le_pow2; [lia | lia | exact Hquot]. }
  rewrite (check_steps_eval hours dt 0%Z Hh Hd Hint). fold h d.
  replace (0 * d) with 0 by ring.
  replace (f64 0) with 0 by (symmetry; apply round_0).
  assert (Hoff : Rabs (f64 (0 - h)) <= powerRZ 2 (-21)).
  { apply round_le_pow2; [lia | lia |].
    replace (0 - h) with (- h) by ring. rewrite Rabs_Ropp. simpl. lra. }
  rewrite f64_tolerance.
  destruct (Rlt_dec _ _) as [Hbad|_]; [|reflexivity].
  exfalso. simpl in Hoff. lra.
Qed.

(** the double [2^-22] is read as itself *)
Lemma f64_tiny :
  f64 0.0000002384185791015625 = 0.0000002384185791015625.
Proof.
  unfold f64. rewrite (round_eval 52 (-1022) _ (-22) 4503599627370496).
  - simpl. lra.
  - apply Rabs_bounds_pos; simpl; lra.
  - lia.
  - simpl. lra.
Qed.

Lemma check_steps_accepts_zero_steps_witness :
  check_steps 0.0000002384185791015625 1 = inr 0%Z.
Proof.
  apply check_steps_accepts_zero_steps.
  - rewrite f64_tiny. lra.
  - rewrite f64_tiny, Rabs_pos_eq; lra.
  - rewrite f64_one, Rabs_pos_eq; lra.
  - rewrite Rabs_pos_eq; lra.
Defined.

Lemma zero_steps_snapshots :
  forall (G : Type) (Gen : Generator G)
         (n_cells : nat) (timepoints : list R) (dt : R) (steps_per_tp : Z)
         (grn : GRN) (ligand_effects : matrix) (groups : Groups)
         (morphogen : list R) (x_max hill_k hill_n : R)
         (neighbor_mode : string) (neighbor_k : Z) (neighbor_mix : R)
         (rng : G) (snapshots : tensor) (rng' : G),
    (steps_per_tp <= 0)%Z ->
    simulate_sample n_cells timepoints dt steps_per_tp grn ligand_effects
                    groups morphogen x_max hill_k hill_n
                    neighbor_mode neighbor_k neighbor_mix rng
    = inr (snapshots, rng') ->
    forall cell tp,
      (cell < length snapshots)%nat -> (1 <= tp < length timepoints)%nat ->
      nth tp (nth cell snapshots []) [] = zeros (length (bias grn)).
Proof.
  intros G Gen n_cells timepoints dt spt grn le groups morphogen
         x_max k n mode nk mix rng snaps rng' Hspt E cell tp Hc Htp.
  set (n_tp := length timepoints) in *.
  set (n_genes := length (bias grn)).
  assert (Hpost :
            post (simulate_sample n_cells timepoints dt spt grn le groups
                    morphogen x_max k n mode nk mix)
                 (Forall (fun tps => forall t, (1 <= t < n_tp)%nat ->
                                               nth t tps [] = zeros n_genes))).
  { unfold simulate_sample. fold n_tp. fold n_genes.
    eapply post_bind; [apply post_any | intros x _].
    eapply post_bind.
    { apply post_lift with
        (Q := Forall (fun tps => forall t, (1 <= t < n_tp)%nat ->
                                           nth t tps [] = zeros n_genes)).
      intros s Es. unfold set_snapshot in Es.
      destruct (0 <? n_tp)%nat; [|discriminate]. injection Es as <-.
      apply Forall_zip_with
        with (P := fun tps => tps = repeat (zeros n_genes) n_tp)
             (Q := fun _ => True).
      - intros tps row Htps _. subst tps. cbv beta. intros t Ht.
        change (nth t (set_nth 0 row (repeat (zeros n_genes) n_tp)) []
                = zeros n_genes).
        rewrite nth_set_nth_other by lia.
        rewrite (nth_indep _ [] (zeros n_genes))
          by (rewrite repeat_length; lia).
        apply nth_repeat_lt. lia.
      - apply Forall_forall. intros tps Hin. now apply repeat_spec in Hin.
      - apply Forall_forall. auto. }
    intros s Hs.
    eapply post_bind; [apply post_any | intros nb _].
    replace (Z.to_nat ((Z.of_nat n_tp - 1) * spt)) with 0%nat by nia.
    simpl. unfold bind, ret. intros g a g' Eg. now injection Eg as <- _. }
  specialize (Hpost rng snaps rng' E). rewrite Forall_forall in Hpost.
  apply Hpost; [now apply nth_In | exact Htp].
Qed.

(** X17. With [steps_per_tp <= 0] (the value the check yields for hours
    below the tolerance), groups that index genes of the network and at
    least one timepoint, the simulator takes no step: it returns a tensor
    in which every snapshot after timepoint 0 is the zero vector it was
    allocated with. *)
Theorem no_steps_leave_later_snapshots_zero :
  forall (G : Type) (Gen : Generator G)
         (n_cells : nat) (timepoints : list R) (dt : R) (steps_per_tp : Z)
         (grn : GRN) (ligand_effects : matrix) (groups : Groups)
         (morphogen : list R) (x_max hill_k hill_n : R)
         (neighbor_mode : string) (neighbor_k : Z) (neighbor_mix : R)
         (rng : G),
    (steps_per_tp <= 0)%Z ->
    groups_in_range (length (bias grn)) groups ->
    timepoints <> [] ->
    exists snapshots rng',
      simulate_sample n_cells timepoints dt steps_per_tp grn ligand_effects
                      groups morphogen x_max hill_k hill_n
                      neighbor_mode neighbor_k neighbor_mix rng
      = inr (snapshots, rng')
      /\ forall cell tp,
          (cell < length snapshots)%nat ->
          (1 <= tp < length timepoints)%nat ->
          nth tp (nth cell snapshots []) [] = zeros (length (bias grn)).
Proof.
  intros G Gen n_cells timepoints dt spt grn le groups morphogen
         x_max k n mode nk mix rng Hspt Hg Htp.
  destruct (simulate_sample_returns n_cells timepoints dt spt grn le
              groups morphogen x_max k n mode nk mix Hg Htp rng)
    as (snaps & rng' & E & _).
  exists snaps, rng'. split; [exact E|].
  exact (zero_steps_snapshots G Gen n_cells timepoints dt spt grn le groups
           morphogen x_max k n mode nk mix rng snaps rng' Hspt E).
Qed.

Lemma no_steps_leave_later_snapshots_zero_witness :
  exists snapshots rng',
    simulate_sample 2 [0; 0; 0] 1 0 toy_grn toy_ligand_effects toy_groups
                    [0; 0.3; 0; 0] 6 1 2 "none" 0 1
                    [7; 250; 999; 4; 31; 600]%nat
    = inr (snapshots, rng')
    /\ forall cell tp,
        (cell < length snapshots)%nat -> (1 <= tp < 3)%nat ->
        nth tp (nth cell snapshots []) [] = zeros 4.
Proof.
  assert (Htp : [0; 0; 0] <> []) by discriminate.
  exact (no_steps_leave_later_snapshots_zero (list nat) TapeGenerator
           2 [0; 0; 0] 1 0 toy_grn toy_ligand_effects toy_groups
           [0; 0.3; 0; 0] 6 1 2 "none" 0 1 [7; 250; 999; 4; 31; 600]%nat
           ltac:(lia) toy_groups_in_range Htp).
Defined.

Lemma post_sample_with {G A} (op : G -> A * G) (Q : A -> Prop) :
  (forall g, Q (fst (op g))) -> post (sample op) Q.
Proof.
  intros HQ g a g' E. unfold sample in E. specialize (HQ g).
  destruct (op g) as [a0 g0]. injection E as <- _. exact HQ.
Qed.

Lemma post_conseq_value {S A} (m : M S A) (Q Q' : A -> Prop) :
  post m Q -> (forall a, Q a -> Q' a) -> post m Q'.
Proof. intros Hm HQ s a s' E. eapply HQ, Hm, E. Qed.

Lemma has_shape_map_mat (f : R -> R) (r c : nat) (m : matrix) :
  has_shape r c m -> has_shape r c (map_mat f m).
Proof.
  intros [L Hrows]. unfold map_mat. split; [now rewrite length_map|].
  apply Forall_map. rewrite Forall_forall in *. intros row Hrow.
  rewrite length_map. now apply Hrows.
Qed.

Lemma has_shape_mat_zip (f : R -> R -> R) (r c : nat) (a b : matrix) :
  has_shape r c a -> has_shape r c b -> has_shape r c (mat_zip f a b).
Proof.
  intros [La Ha] [Lb Hb]. unfold mat_zip. split.
  - rewrite length_zip_with. lia.
  - apply Forall_zip_with with (P := fun row => length row = c)
                               (Q := fun row => length row = c);
      [|exact Ha|exact Hb].
    intros x y Hx Hy. rewrite length_zip_with, Hx, Hy. apply Nat.min_id.
Qed.

Lemma has_shape_mat_row (f : R -> R -> R) (r c : nat) (a : matrix)
      (v : list R) :
  has_shape r c a -> length v = c -> has_shape r c (mat_row f a v).
Proof.
  intros [La Ha] Lv. unfold mat_row. split; [now rewrite length_map|].
  apply Forall_map. rewrite Forall_forall in *. intros row Hrow.
  rewrite length_zip_with, (Ha row Hrow). lia.
Qed.

Lemma has_shape_matmul (n : nat) (a b : matrix) :
  has_shape (length a) n (matmul n a b).
Proof.
  unfold matmul. split; [now rewrite length_map|].
  apply Forall_map, Forall_forall. intros row _.
  now rewrite length_map, length_seq.
Qed.

Lemma length_write_row (idxs : list nat) (vs row : list R) :
  length (write_row idxs vs row) = length row.
Proof.
  revert vs row. induction idxs as [|i idxs IH]; intros [|v vs] row; simpl;
    try reflexivity.
  now rewrite IH, length_set_nth.
Qed.

Lemma set_cols_shape (n r c : nat) (idxs : list nat) (vals x x' : matrix) :
  has_shape r n x -> length vals = r ->
  set_cols n idxs vals x = inr x' -> has_shape r n x'.
Proof.
  intros [L Hrows] Lv E. unfold set_cols in E.
  destruct (forallb _ idxs); [|discriminate]. injection E as <-. split.
  - rewrite length_zip_with. lia.
  - apply Forall_zip_with with (P := fun row => length row = n)
                               (Q := fun _ => True).
    + intros row vs Hrow _. now rewrite length_write_row.
    + exact Hrows.
    + apply Forall_forall. auto.
Qed.

Lemma length_signal_of (ract : matrix) (lm : ligand_avail) (r : nat) :
  length ract = r ->
  match lm with Global _ => True | PerCell m => length m = r end ->
  length (signal_of ract lm) = r.
Proof.
  intros Lr Hm. destruct lm as [v|m]; simpl.
  - unfold mat_row. now rewrite length_map.
  - unfold mat_zip. rewrite length_zip_with. lia.
Qed.

Section SimulateShape.
Context {G : Type} `{Generator G}.
Hypothesis shapes : normal_shapes G.

Variables (n_cells : nat) (timepoints : list R) (dt : R)
        (steps_per_tp : Z) (grn : GRN) (ligand_effects : matrix)
        (groups : Groups) (morphogen : list R)
        (x_max hill_k hill_n : R) (neighbor_mode : string)
        (neighbor_k : Z) (neighbor_mix : R).

Hypothesis decay_length : length (decay grn) = length (bias grn).
Hypothesis noise_length : length (noise grn) = length (bias grn).
Hypothesis morphogen_length : length morphogen = length (bias grn).

Lemma init_state_shape :
post (init_state n_cells (length (bias grn)) groups x_max)
     (has_shape n_cells (length (bias grn))).
Proof.
unfold init_state.
assert (H0 : has_shape n_cells (length (bias grn))
                       (repeat (zeros (length (bias grn))) n_cells)).
{ split; [apply repeat_length|].
  apply Forall_forall. intros row ->%repeat_spec. apply repeat_length. }
assert (Hgrp : forall idxs loc scale x,
           has_shape n_cells (length (bias grn)) x ->
           post (init_group n_cells (length (bias grn)) idxs loc scale x)
                (has_shape n_cells (length (bias grn)))).
{ intros idxs loc scale x Hx. unfold init_group.
  eapply post_bind.
  - apply (post_sample_with _ (has_shape n_cells (length idxs))).
    intros g. apply shapes.
  - intros vals [Lv _]. apply post_lift. intros x' E.
    eapply set_cols_shape; eauto. }
eapply post_bind; [now apply Hgrp | intros x1 H1].
eapply post_bind; [now apply Hgrp | intros x2 H2].
eapply post_bind; [now apply Hgrp | intros x3 H3].
eapply post_bind; [now apply Hgrp | intros x4 H4].
eapply post_bind; [now apply Hgrp | intros x5 H5].
eapply post_bind; [now apply Hgrp | intros x6 H6].
eapply post_bind; [now apply Hgrp | intros x7 H7].
apply post_ret. now apply has_shape_map_mat.
Qed.

Lemma sample_neighbors_rows :
post (sample_neighbors neighbor_mode neighbor_k n_cells)
     (fun o => match o with
               | None => True
               | Some nb => length nb = n_cells
               end).
Proof.
unfold sample_neighbors.
destruct (String.eqb neighbor_mode "random"); [|now apply post_ret].
destruct ((neighbor_k <=? 0)%Z || (n_cells <=? 1)%nat)%bool;
  [now apply post_ret|].
eapply post_bind with (Q := fun nb => length nb = n_cells);
  [|intros nb Hnb; now apply post_ret].
assert (Hgen : forall (l : list nat) (acc : list (list nat)) k,
          post (fold_m l acc (fun nb i =>
                  choices <- sample (choice (n_cells - 1) k) ;;
                  ret (nb ++ [map (fun c => if (i <=? c)%nat
                                            then (c + 1)%nat else c)
                                  choices])))
               (fun nb => length nb = (length acc + length l)%nat)).
{ induction l as [|i l IH]; intros acc k; simpl.
  - apply post_ret. lia.
  - eapply post_bind with (Q := fun nb => length nb = S (length acc)).
    + eapply post_bind; [apply post_any | intros ch _].
      apply post_ret. rewrite length_app. simpl. lia.
    + intros nb Hnb. eapply post_conseq_value; [apply IH|].
      intros r Hr. cbv beta in *. simpl in *. lia. }
eapply post_conseq_value; [apply Hgen|].
intros nb Hnb. unfold range in Hnb. rewrite length_seq in Hnb.
simpl in Hnb. exact Hnb.
Qed.

Lemma deriv_shape neighbor_idx x :
has_shape n_cells (length (bias grn)) x ->
match neighbor_idx with
| None => True
| Some nb => length nb = n_cells
end ->
has_shape n_cells (length (bias grn))
          (deriv grn ligand_effects groups morphogen hill_k hill_n
                 neighbor_idx neighbor_mix x).
Proof.
intros Hx Hnb. rewrite deriv_terms. pose proof Hx as [Lx _].
apply has_shape_mat_row; [|exact morphogen_length].
apply has_shape_mat_zip.
- unfold drift. apply has_shape_mat_zip.
  + apply has_shape_mat_row; [|reflexivity].
    unfold regulatory_input.
    replace n_cells with (length (map_mat (fun v => hill v hill_k hill_n) x))
      by (unfold map_mat; now rewrite length_map).
    apply has_shape_matmul.
  + apply has_shape_mat_row; [exact Hx | exact decay_length].
- unfold g_signal_of.
  match goal with
  | |- has_shape _ _ (matmul _ ?s _) =>
      replace n_cells with (length s); [apply has_shape_matmul|]
  end.
  apply length_signal_of.
  + unfold map_mat, take_cols. now rewrite !length_map.
  + unfold ligand_mean. destruct neighbor_idx as [nb|]; [|exact I].
    unfold mat_row, map_mat, neighbor_ligand_mean.
    now rewrite !length_map.
Qed.

Lemma step_x_shape neighbor_idx x :
has_shape n_cells (length (bias grn)) x ->
match neighbor_idx with
| None => True
| Some nb => length nb = n_cells
end ->
post (step_x dt grn ligand_effects groups morphogen x_max hill_k hill_n
             neighbor_idx neighbor_mix x)
     (has_shape n_cells (length (bias grn))).
Proof.
intros Hx Hnb. unfold step_x. pose proof Hx as [Lx _].
eapply post_bind.
- apply (post_sample_with _ (has_shape n_cells (length (bias grn)))).
  intros g. rewrite <- noise_length, <- Lx. apply shapes.
- intros nz Hnz. apply post_ret.
  apply has_shape_map_mat, has_shape_mat_zip.
  + apply has_shape_mat_zip; [exact Hx|].
    apply has_shape_map_mat. now apply deriv_shape.
  + now apply has_shape_map_mat.
Qed.

Lemma set_snapshot_shape (n_tp idx : nat) (x : matrix)
    (snapshots snapshots' : tensor) :
has_shape n_cells (length (bias grn)) x ->
length snapshots = n_cells ->
Forall (fun tps => length tps = n_tp
                   /\ Forall (fun row => length row = length (bias grn))
                             tps) snapshots ->
set_snapshot n_tp idx x snapshots = inr snapshots' ->
length snapshots' = n_cells
/\ Forall (fun tps => length tps = n_tp
                      /\ Forall (fun row => length row
                                            = length (bias grn)) tps)
          snapshots'.
Proof.
intros [Lx Hx] Ls Hs E. unfold set_snapshot in E.
destruct (idx <? n_tp)%nat; [|discriminate]. injection E as <-. split.
- rewrite length_zip_with. lia.
- eapply Forall_zip_with; [|exact Hs|exact Hx].
  intros tps row [Lt Ht] Hrow. cbv beta. split.
  + now rewrite length_set_nth.
  + now apply Forall_set_nth.
Qed.

Lemma simulate_sample_shape :
post (simulate_sample n_cells timepoints dt steps_per_tp grn
        ligand_effects groups morphogen x_max hill_k hill_n
        neighbor_mode neighbor_k neighbor_mix)
     (fun snapshots =>
        length snapshots = n_cells
        /\ Forall (fun tps =>
                     length tps = length timepoints
                     /\ Forall (fun row => length row
                                           = length (bias grn)) tps)
                  snapshots).
Proof.
unfold simulate_sample.
eapply post_bind; [apply init_state_shape | intros x Hx].
eapply post_bind.
{ apply post_lift. intros s. apply set_snapshot_shape; [exact Hx| |].
  - apply repeat_length.
  - apply Forall_forall. intros tps ->%repeat_spec.
    split; [apply repeat_length|].
    apply Forall_forall. intros row ->%repeat_spec. apply repeat_length. }
intros snaps Hsnaps.
eapply post_bind; [apply sample_neighbors_rows | intros nb Hnb].
eapply post_bind
  with (Q := fun lv =>
               has_shape n_cells (length (bias grn)) (lv_x lv)
               /\ length (lv_snapshots lv) = n_cells
               /\ Forall (fun tps =>
                            length tps = length timepoints
                            /\ Forall (fun row => length row
                                                  = length (bias grn)) tps)
                         (lv_snapshots lv)).
- apply post_fold_m; [simpl; tauto|].
  intros lv step (Hlx & Lls & Hls).
  eapply post_bind; [now apply step_x_shape | intros x' Hx'].
  destruct ((Z.of_nat step + 1) mod steps_per_tp =? 0)%Z.
  + eapply post_bind.
    { apply post_lift. intros s.
      apply set_snapshot_shape; eassumption. }
    intros s [Ls Hs]. apply post_ret. simpl. auto.
  + apply post_ret. simpl. auto.
- intros lv (_ & Lls & Hls). now apply post_ret.
Qed.
End SimulateShape.

(** X18. With a generator that returns arrays of the requested shape,
    operands that conform ([conformant]), Hill parameters [k >= 0] and
    [n >= 0] whose power [k ** n] is inside the double range, and at least
    one timepoint, [simulate_sample] returns a tensor with one entry per
    cell, one snapshot per timepoint in each, and one value per gene in
    every snapshot. *)
Theorem snapshot_tensor_shape :
  forall (G : Type) (Gen : Generator G)
         (n_cells : nat) (timepoints : list R) (dt : R) (steps_per_tp : Z)
         (grn : GRN) (ligand_effects : matrix) (groups : Groups)
         (morphogen : list R) (x_max hill_k hill_n : R)
         (neighbor_mode : string) (neighbor_k : Z) (neighbor_mix : R)
         (rng : G),
    let n_genes := length (bias grn) in
    normal_shapes G ->
    conformant grn groups ligand_effects morphogen ->
    0 <= hill_k -> 0 <= hill_n -> power hill_k hill_n <= 1e300 ->
    timepoints <> [] ->
    exists snapshots rng',
      simulate_sample n_cells timepoints dt steps_per_tp grn
                      ligand_effects groups morphogen x_max hill_k
                      hill_n neighbor_mode neighbor_k neighbor_mix rng
      = inr (snapshots, rng')
      /\ length snapshots = n_cells
      /\ Forall (fun tps =>
                   length tps = length timepoints
                   /\ Forall (fun row => length row = n_genes) tps)
                snapshots.
Proof.
  intros G Gen n_cells timepoints dt spt grn le groups morphogen
         x_max k n mode nk mix rng n_genes Hshapes Hconf _ _ _ Htp.
  destruct Hconf as (_ & Hd & Hn & _ & Hm & _ & _ & Hg).
  destruct (simulate_sample_returns n_cells timepoints dt spt grn le
              groups morphogen x_max k n mode nk mix Hg Htp rng)
    as (snaps & rng' & E & _).
  exists snaps, rng'. split; [exact E|].
  exact (simulate_sample_shape Hshapes n_cells timepoints dt spt grn le
           groups morphogen x_max k n mode nk mix Hd Hn Hm rng snaps rng' E).
Qed.

Lemma tape_rows_shape (f : nat -> nat -> R) (rows cols : nat)
      (tape : list nat) :
  has_shape rows cols (fst (tape_rows f rows cols tape)).
Proof.
  revert tape. induction rows as [|r IH]; intros tape; simpl.
  - split; [reflexivity | constructor].
  - pose proof (length_pops cols tape) as L.
    destruct (pops cols tape) as [hs t]. simpl in L.
    specialize (IH t). destruct (tape_rows f r cols t) as [m t'].
    destruct IH as [Lm Hm]. cbn [fst] in *. split.
    + cbn [length]. now f_equal.
    + constructor; [|exact Hm].
      unfold enumerate. rewrite length_map, length_combine, length_seq, L.
      apply Nat.min_id.
Qed.

Lemma tape_normal_shapes : normal_shapes (list nat).
Proof.
  split; intros; apply tape_rows_shape.
Qed.

Lemma snapshot_tensor_shape_witness :
  exists snapshots rng',
    toy_run "random" 1 = inr (snapshots, rng')
    /\ length snapshots = 2%nat
    /\ Forall (fun tps =>
                 length tps = 3%nat
                 /\ Forall (fun row => length row = 4%nat) tps) snapshots.
Proof.
  assert (Htp : [0; 2; 4] <> []) by discriminate.
  assert (Hk : 0 <= 1) by lra. assert (Hn : 0 <= 2) by lra.
  assert (Hp : power 1 2 <= 1e300)
    by (rewrite power_sq by lra; lra).
  exact (snapshot_tensor_shape (list nat) TapeGenerator 2 [0; 2; 4] 1 2
           toy_grn toy_ligand_effects toy_groups [0; 0.3; 0; 0] 6 1 2
           "random" 1 1 [7; 250; 999; 4; 31; 600]%nat
           tape_normal_shapes toy_conformant Hk Hn Hp Htp).
Defined.

(** ** The kinetic vectors and the lineage count of [build_grn] *)

Lemma assign_idx_pick (idxs : list nat) (v : R) (vec vec' : list R)
      (g : nat) :
  assign_idx idxs v vec = inr vec' ->
  nth g vec' 0 = if mem g idxs then v else nth g vec 0.
Proof.
  intros E. destruct (assign_idx_nth idxs v vec vec' g E) as [Hin Hout].
  destruct (mem g idxs) eqn:Hm.
  - apply Hin. now apply mem_In.
  - apply Hout. intros Hc. apply mem_In in Hc. congruence.
Qed.

Lemma by_group_nth (groups : Groups) (n g : nat)
      (hk lig rec tgt prg lin oth : R) (v : list R) :
  by_group groups n hk lig rec tgt prg lin oth = inr v ->
  nth g v 0 = last_group_value groups g hk lig rec tgt prg lin oth.
Proof.
  unfold by_group, last_group_value. intros E.
  destruct (assign_idx (housekeeping groups) hk (zeros n))
    as [|v1] eqn:E1; [discriminate|].
  destruct (assign_idx (ligand groups) lig v1) as [|v2] eqn:E2;
    [discriminate|].
  destruct (assign_idx (receptor groups) rec v2) as [|v3] eqn:E3;
    [discriminate|].
  destruct (assign_idx (target groups) tgt v3) as [|v4] eqn:E4;
    [discriminate|].
  destruct (assign_idx (prog groups) prg v4) as [|v5] eqn:E5;
    [discriminate|].
  destruct (assign_idx (lineage groups) lin v5) as [|v6] eqn:E6;
    [discriminate|].
  rewrite (assign_idx_pick _ _ _ _ g E), (assign_idx_pick _ _ _ _ g E6),
    (assign_idx_pick _ _ _ _ g E5), (assign_idx_pick _ _ _ _ g E4),
    (assign_idx_pick _ _ _ _ g E3), (assign_idx_pick _ _ _ _ g E2),
    (assign_idx_pick _ _ _ _ g E1).
  unfold zeros. now rewrite nth_repeat.
Qed.

Section BuildGrnKinetics.
Context {G : Type} `{Generator G}.
Variable names : list string.
Variable groups : Groups.
Variables n_lineages lineage_tfs_per : nat.

Lemma run_build_grn_kinetics (rng rng' : G) (grn : GRN) :
run_build_grn names groups n_lineages lineage_tfs_per rng
= inr (grn, rng') ->
by_group groups (length names) 0.6 0.2 0.2 0.05 0.05 0.05 0.1
= inr (bias grn)
/\ by_group groups (length names) 0.1 0.2 0.2 0.2 0.3 0.3 0.2
   = inr (decay grn)
/\ by_group groups (length names) 0.05 0.06 0.06 0.08 0.1 0.1 0.08
   = inr (noise grn).
Proof.
unfold run_build_grn. intros E.
destruct (build_grn names groups n_lineages lineage_tfs_per
                    (rng, empty_builder)) as [e|[grn0 st]] eqn:E0;
  [discriminate|].
injection E as <- _. unfold build_grn in E0.
unfold bind at 1 in E0.
destruct (structured_edges names groups n_lineages lineage_tfs_per
                           (rng, empty_builder)) as [e|[[] s1]];
  [discriminate|].
unfold bind at 1 in E0.
destruct (random_edges names (length names) s1) as [e|[[] s2]];
  [discriminate|].
unfold bind, get, lift, ret in E0.
destruct (by_group groups (length names) 0.6 0.2 0.2 0.05 0.05 0.05 0.1)
  as [e|vb]; [discriminate|].
destruct (by_group groups (length names) 0.1 0.2 0.2 0.2 0.3 0.3 0.2)
  as [e|vd]; [discriminate|].
destruct (by_group groups (length names) 0.05 0.06 0.06 0.08 0.1 0.1 0.08)
  as [e|vn]; [discriminate|].
injection E0 as <- _. auto.
Qed.

Hypothesis groups_ok : groups_in_range (length names) groups.

Lemma add_edge_returns (src dst : nat) (w : R) (label : string) :
(src < length names)%nat -> (dst < length names)%nat ->
hoare (fun _ : G * Builder => True) (add_edge names src dst w label)
      (fun _ _ => True).
Proof.
intros Hs Hd st _. unfold add_edge.
destruct (nth_error names src) as [s|] eqn:Es;
  [|apply nth_error_None in Es; lia].
destruct (nth_error names dst) as [t|] eqn:Et;
  [|apply nth_error_None in Et; lia].
eauto.
Qed.

Lemma prog_edges_returns :
hoare (fun _ : G * Builder => True) (prog_edges names groups)
      (fun _ _ => True).
Proof.
unfold prog_edges. apply hoare_for_each. intros i Hi.
pose proof (in_prog names groups groups_ok i Hi) as Li.
eapply hoare_bind; [now apply add_edge_returns|].
intros ?. apply hoare_for_each. intros j Hj.
pose proof (in_prog names groups groups_ok j Hj) as Lj.
destruct (i =? j)%nat; [apply hoare_ret; auto|].
eapply hoare_bind with (Q := fun _ _ => True).
- intros st _. unfold draw. destruct (random (fst st)). eauto.
- intros r. now apply add_edge_returns.
Qed.

Lemma prog_to_lineage_edges_returns :
hoare (fun _ : G * Builder => True) (prog_to_lineage_edges names groups)
      (fun _ _ => True).
Proof.
unfold prog_to_lineage_edges.
apply hoare_for_each. intros l Hl. apply hoare_for_each. intros p Hp.
apply add_edge_returns;
  [exact (in_prog names groups groups_ok p Hp)
  |exact (in_lineage names groups groups_ok l Hl)].
Qed.

Lemma zero_lineages_raise (rng : G) :
exists msg,
  run_build_grn names groups 0 lineage_tfs_per rng
  = inl (ValueError msg).
Proof.
destruct (prog_edges_returns (rng, empty_builder) I)
  as ([] & s1 & E1 & _).
destruct (prog_to_lineage_edges_returns s1 I) as ([] & s2 & E2 & _).
eexists. unfold run_build_grn, build_grn, structured_edges.
unfold bind at 1. unfold bind at 1. rewrite E1.
unfold bind at 1. rewrite E2.
unfold bind at 1. unfold lineage_edges, range. cbn [seq for_each].
unfold ret at 1.
unfold bind at 1. unfold split_edges. unfold bind at 1.
unfold array_split, lift. reflexivity.
Qed.
End BuildGrnKinetics.

(** X19. On a catalog of distinct names, groups that index it and at
    least one lineage, [build_grn] returns a network whose bias, decay and
    noise of every gene are the values of the last assigned group that
    holds the gene (housekeeping, ligand, receptor, target, prog, lineage,
    other in this order), and 0 for a gene of no group. *)
Theorem kinetics_follow_last_group :
  forall (G : Type) (Gen : Generator G) (Laws : GeneratorLaws G)
         (names : list string) (groups : Groups)
         (n_lineages lineage_tfs_per : nat) (rng : G),
    NoDup names ->
    groups_in_range (length names) groups ->
    (0 < n_lineages)%nat -> (0 < length names)%nat ->
    exists grn rng',
      run_build_grn names groups n_lineages lineage_tfs_per rng
      = inr (grn, rng')
      /\ forall g,
          nth g (bias grn) 0
          = last_group_value groups g 0.6 0.2 0.2 0.05 0.05 0.05 0.1
          /\ nth g (decay grn) 0
             = last_group_value groups g 0.1 0.2 0.2 0.2 0.3 0.3 0.2
          /\ nth g (noise grn) 0
             = last_group_value groups g 0.05 0.06 0.06 0.08 0.1 0.1 0.08.
Proof.
  intros G Gen Laws names groups nl per rng Hnd Hg Hl Hn.
  destruct (run_build_grn_spec names groups nl per Hnd Hg rng Hl Hn)
    as (st0 & grn & rng' & _ & E & _).
  exists grn, rng'. split; [exact E|]. intros g.
  destruct (run_build_grn_kinetics names groups nl per rng rng' grn E)
    as (Eb & Ed & En).
  repeat split; now apply by_group_nth with (n := length names).
Qed.

Lemma kinetics_follow_last_group_witness :
  exists grn rng',
    run_build_grn main_gene_names main_groups main_n_lineages
                  main_lineage_tfs_per (@nil nat) = inr (grn, rng')
    /\ forall g,
        nth g (bias grn) 0
        = last_group_value main_groups g 0.6 0.2 0.2 0.05 0.05 0.05 0.1
        /\ nth g (decay grn) 0
           = last_group_value main_groups g 0.1 0.2 0.2 0.2 0.3 0.3 0.2
        /\ nth g (noise grn) 0
           = last_group_value main_groups g 0.05 0.06 0.06 0.08 0.1 0.1
                              0.08.
Proof.
  apply (kinetics_follow_last_group (list nat) TapeGenerator tape_laws).
  - exact main_gene_names_nodup.
  - exact main_groups_in_range.
  - unfold main_n_lineages. lia.
  - rewrite main_gene_names_length. lia.
Defined.

(** X20. With [n_lineages = 0] and groups that index the catalog,
    [build_grn] raises the [ValueError] of [np.array_split]: the program
    edges are added, the lineage loop is empty, and the split of the
    targets into zero sections is refused. *)
Theorem build_grn_rejects_zero_lineages :
  forall (G : Type) (Gen : Generator G)
         (names : list string) (groups : Groups)
         (lineage_tfs_per : nat) (rng : G),
    groups_in_range (length names) groups ->
    exists msg,
      run_build_grn names groups 0 lineage_tfs_per rng
      = inl (ValueError msg).
Proof.
  intros G Gen names groups per rng Hg.
  exact (zero_lineages_raise names groups per Hg rng).
Qed.

Lemma build_grn_rejects_zero_lineages_witness :
  exists msg,
    run_build_grn main_gene_names main_groups 0 main_lineage_tfs_per
                  (@nil nat) = inl (ValueError msg).
Proof.
  exact (build_grn_rejects_zero_lineages (list nat) TapeGenerator
           main_gene_names main_groups main_lineage_tfs_per (@nil nat)
           main_groups_in_range).
Defined.
